(** * Hex-mesh background: mesh builder and render-loop state

    A shallow embedding of the procedural mesh generator ([createHexGrid]) and
    of the pointer / shock / responsive-scale state of the animation loop, as
    found in [src/main.js] (the simple variant) and in the richer variant that
    adds mesh levels, shock waves and a context menu.

    JavaScript numbers are IEEE-754 binary64 values.  The code is written once
    over an interface [Number] of the operations the source uses, and read at
    two instances:

    - [Float64.float_number]: primitive binary64 floats, with the
      round-to-binary32 store of [Float32Array]; definitions evaluate on
      concrete inputs exactly as the script does;
    - [Ideal.xreal_number]: the same special values (NaN, the infinities) over
      exact real arithmetic, with no rounding; it is the reading in which
      statements quantified over all grids, positions or times are proved.

    Where rounding decides a statement (the easing of the pointer), binary64
    numbers are read as real numbers through their specification
    ([Binary64]).  Where the state of the page matters (two calls of the
    builder), the builder is read as the script runs it, on a heap of arrays
    ([Store], [SimpleRun], [RichRun]).

    Loop counters and array indices are integers ([Z]). *)

From Stdlib Require Import String ZArith List Bool Floats Reals Lra Lia.
Import ListNotations.

Local Open Scope Z_scope.

(** ** The numeric interface *)

Class Number (F : Type) : Type := {
  of_Z : Z -> F;                 (* an integer-valued number *)
  add : F -> F -> F;
  sub : F -> F -> F;
  mul : F -> F -> F;
  div : F -> F -> F;
  neg : F -> F;                  (* unary minus *)
  sqrt : F -> F;                 (* Math.sqrt *)
  max : F -> F -> F;             (* Math.max, two arguments *)
  ltb : F -> F -> bool;          (* a < b *)
  leb : F -> F -> bool;          (* a <= b *)
  truthy : F -> bool;            (* ToBoolean: false on 0 and NaN *)
  infinity : F;                  (* Infinity *)
  fround : F -> F                (* the value a Float32Array element keeps *)
}.

Declare Scope js_scope.
Delimit Scope js_scope with js.
Notation "a +! b" := (add a b) (at level 50, left associativity) : js_scope.
Notation "a -! b" := (sub a b) (at level 50, left associativity) : js_scope.
Notation "a *! b" := (mul a b) (at level 40, left associativity) : js_scope.
Notation "a /! b" := (div a b) (at level 40, left associativity) : js_scope.
Notation "a <! b" := (ltb a b) (at level 70, no associativity) : js_scope.
Notation "a >! b" := (ltb b a) (at level 70, no associativity) : js_scope.
Notation "a >=! b" := (leb b a) (at level 70, no associativity) : js_scope.
Notation "a ||! b" := (if truthy a then a else b)
  (at level 72, left associativity) : js_scope.

(** A decimal literal [n / d] of the source text, such as [0.07] = [lit 7 100].
    Both [n] and [d] are exact in binary64 and division rounds correctly, so at
    the float instance this is the double the literal denotes. *)
Definition lit {F} `{Number F} (n d : Z) : F := (of_Z n /! of_Z d)%js.

(** ** Binary64 instance *)

Module Float64.

Definition from_Z (z : Z) : float := SF2Prim (binary_normalize prec emax z 0 false).

(** Rounding to the nearest binary32 value (ties to even), as stored by a
    [Float32Array]; zeros, infinities and NaN are kept. *)
Definition round32 (x : float) : float :=
  match Prim2SF x with
  | S754_finite s m e => SF2Prim (binary_round 24 128 s m e)
  | _ => x
  end.

Definition to_boolean (x : float) : bool := negb (PrimFloat.is_nan x || PrimFloat.is_zero x).

(** [Math.max(a, b)]: NaN if either is NaN; [+0] is larger than [-0]. *)
Definition math_max (a b : float) : float :=
  if PrimFloat.is_nan a || PrimFloat.is_nan b then PrimFloat.nan
  else if PrimFloat.ltb a b then b
  else if PrimFloat.ltb b a then a
  else if PrimFloat.is_zero a && PrimFloat.get_sign a then b else a.

#[global] Instance float_number : Number float := {|
  of_Z := from_Z;
  add := PrimFloat.add;
  sub := PrimFloat.sub;
  mul := PrimFloat.mul;
  div := PrimFloat.div;
  neg := PrimFloat.opp;
  sqrt := PrimFloat.sqrt;
  max := math_max;
  ltb := PrimFloat.ltb;
  leb := PrimFloat.leb;
  truthy := to_boolean;
  infinity := PrimFloat.infinity;
  fround := round32
|}.

End Float64.

(** ** Exact-arithmetic instance *)

Module Ideal.

Local Open Scope R_scope.

(** A number is NaN, a signed infinity or a real.  Zero carries no sign: a
    division of a non-zero real by zero yields the infinity of the sign of the
    numerator. *)
Inductive xreal : Type :=
| XNaN
| XInf (negative : bool)
| XFin (r : R).

Definition Rltb (a b : R) : bool := if Rlt_dec a b then true else false.
Definition Rleb (a b : R) : bool := if Rle_dec a b then true else false.
Definition Reqb (a b : R) : bool := if Req_dec_T a b then true else false.

Definition xneg (a : xreal) : xreal :=
  match a with
  | XNaN => XNaN
  | XInf s => XInf (negb s)
  | XFin r => XFin (- r)
  end.

Definition xadd (a b : xreal) : xreal :=
  match a, b with
  | XNaN, _ | _, XNaN => XNaN
  | XInf s, XInf s' => if Bool.eqb s s' then XInf s else XNaN
  | XInf s, XFin _ | XFin _, XInf s => XInf s
  | XFin x, XFin y => XFin (x + y)
  end.

Definition xsub (a b : xreal) : xreal := xadd a (xneg b).

Definition xmul (a b : xreal) : xreal :=
  match a, b with
  | XNaN, _ | _, XNaN => XNaN
  | XInf s, XInf s' => XInf (xorb s s')
  | XInf s, XFin r | XFin r, XInf s =>
      if Reqb r 0 then XNaN else XInf (xorb s (Rltb r 0))
  | XFin x, XFin y => XFin (x * y)
  end.

Definition xdiv (a b : xreal) : xreal :=
  match a, b with
  | XNaN, _ | _, XNaN => XNaN
  | XInf _, XInf _ => XNaN
  | XInf s, XFin r => XInf (xorb s (Rltb r 0))
  | XFin _, XInf _ => XFin 0
  | XFin x, XFin y =>
      if Reqb y 0 then (if Reqb x 0 then XNaN else XInf (Rltb x 0))
      else XFin (x / y)
  end.

Definition xsqrt (a : xreal) : xreal :=
  match a with
  | XNaN => XNaN
  | XInf s => if s then XNaN else XInf false
  | XFin r => if Rltb r 0 then XNaN else XFin (R_sqrt.sqrt r)
  end.

Definition xltb (a b : xreal) : bool :=
  match a, b with
  | XNaN, _ | _, XNaN => false
  | XInf s, XInf s' => s && negb s'
  | XInf s, XFin _ => s
  | XFin _, XInf s => negb s
  | XFin x, XFin y => Rltb x y
  end.

Definition xleb (a b : xreal) : bool :=
  match a, b with
  | XNaN, _ | _, XNaN => false
  | XInf s, XInf s' => s || negb s'
  | XInf s, XFin _ => s
  | XFin _, XInf s => negb s
  | XFin x, XFin y => Rleb x y
  end.

Definition xmax (a b : xreal) : xreal :=
  match a, b with
  | XNaN, _ | _, XNaN => XNaN
  | _, _ => if xltb a b then b else a
  end.

Definition xtruthy (a : xreal) : bool :=
  match a with
  | XNaN => false
  | XInf _ => true
  | XFin r => negb (Reqb r 0)
  end.

#[global] Instance xreal_number : Number xreal := {|
  of_Z := fun z => XFin (IZR z);
  add := xadd;
  sub := xsub;
  mul := xmul;
  div := xdiv;
  neg := xneg;
  sqrt := xsqrt;
  max := xmax;
  ltb := xltb;
  leb := xleb;
  truthy := xtruthy;
  infinity := XInf false;
  fround := fun a => a
|}.

End Ideal.

(** ** Arrays *)

(** [for (let k = 0; k < n; k++)]: the values the counter takes. *)
Definition range (n : Z) : list Z := map Z.of_nat (seq 0 (Z.to_nat n)).

(** [a[i] = v] on a typed array: a store outside the array is ignored and the
    length never changes. *)
Fixpoint upd {A : Type} (i : nat) (v : A) (a : list A) : list A :=
  match a, i with
  | [], _ => []
  | _ :: t, O => v :: t
  | h :: t, S k => h :: upd k v t
  end.

(** Conversion of an integer to an element of a [Uint16Array]. *)
Definition to_uint16 (v : Z) : Z := v mod 65536.

(** [new Uint16Array(edges)]. *)
Definition Uint16Array (edges : list Z) : list Z := map to_uint16 edges.

(** The line segments of a flat index buffer, two indices per segment. *)
Fixpoint segments (idx : list Z) : list (Z * Z) :=
  match idx with
  | a :: b :: rest => (a, b) :: segments rest
  | _ => []
  end.

(** The x components (even slots) and y components (odd slots) of a flat
    position buffer. *)
Fixpoint xs_of {A : Type} (pos : list A) : list A :=
  match pos with
  | x :: _ :: rest => x :: xs_of rest
  | _ => []
  end.

Fixpoint ys_of {A : Type} (pos : list A) : list A :=
  match pos with
  | _ :: y :: rest => y :: ys_of rest
  | _ => []
  end.

(** ** Data shared by the variants *)

Record point (F : Type) : Type := mkPoint { x : F; y : F }.
Arguments mkPoint {F} _ _.
Arguments x {F} _.
Arguments y {F} _.

Record grid (F : Type) : Type := mkGrid { positions : list F; indices : list Z }.
Arguments mkGrid {F} _ _.
Arguments positions {F} _.
Arguments indices {F} _.

(** The running minima and maxima of the bounds loop. *)
Record extent (F : Type) : Type :=
  mkExtent { minX : F; maxX : F; minY : F; maxY : F }.
Arguments mkExtent {F} _ _ _ _.
Arguments minX {F} _.
Arguments maxX {F} _.
Arguments minY {F} _.
Arguments maxY {F} _.

(** ** The simple variant ([src/main.js]) *)

Module Simple.
Section WithNumber.
Context {F : Type} `{Number F}.
Local Open Scope js_scope.

(** One round of [for (const p of raw)] in the bounds computation. *)
Definition bounds_step (b : extent F) (p : point F) : extent F :=
  let b := if x p <! minX b then mkExtent (x p) (maxX b) (minY b) (maxY b) else b in
  let b := if x p >! maxX b then mkExtent (minX b) (x p) (minY b) (maxY b) else b in
  let b := if y p <! minY b then mkExtent (minX b) (maxX b) (y p) (maxY b) else b in
  let b := if y p >! maxY b then mkExtent (minX b) (maxX b) (minY b) (y p) else b in
  b.

Definition createHexGrid (cols rows : Z) : grid F :=
  let cellW := of_Z 1 in
  let cellH := sqrt (of_Z 3) *! lit 5 10 *! cellW in
  (* Raw hex coordinates *)
  let raw :=
    flat_map (fun j =>
      let odd := j mod 2 in
      map (fun i =>
        mkPoint (of_Z i +! of_Z odd *! lit 5 10) (of_Z j *! cellH))
        (range cols))
      (range rows) in
  (* Compute bounds *)
  let b :=
    fold_left bounds_step raw
      (mkExtent infinity (neg infinity) infinity (neg infinity)) in
  let spanX := (maxX b -! minX b) ||! of_Z 1 in
  let spanY := (maxY b -! minY b) ||! of_Z 1 in
  (* Normalize to [-1,1] and widen horizontally *)
  let positions :=
    fold_left (fun (positions : list F) (i : nat) =>
      let p := nth i raw (mkPoint (of_Z 0) (of_Z 0)) in
      let nx := ((x p -! minX b) /! spanX) *! of_Z 2 -! of_Z 1 in
      let ny := ((y p -! minY b) /! spanY) *! of_Z 2 -! of_Z 1 in
      let nx := nx *! lit 125 100 in
      let positions := upd (i * 2) (fround nx) positions in
      upd (i * 2 + 1) (fround ny) positions)
      (seq 0 (length raw))
      (repeat (of_Z 0) (length raw * 2)) in
  (* Build connectivity (hex lines) *)
  let index := fun i j : Z => (j * cols + i)%Z in
  let edges :=
    flat_map (fun j =>
      let odd := j mod 2 in
      flat_map (fun i =>
        let a := index i j in
        (if (i + 1 <? cols)%Z then [a; index (i + 1)%Z j] else []) ++
        (if (j + 1 <? rows)%Z then
           [a; index i (j + 1)%Z] ++
           (let di := if negb (odd =? 0)%Z then (i + 1)%Z else (i - 1)%Z in
            if (di >=? 0)%Z && (di <? cols)%Z
            then [a; index di (j + 1)%Z] else [])
         else []))
        (range cols))
      (range rows) in
  mkGrid positions (Uint16Array edges).

End WithNumber.
End Simple.

(** ** The richer variant: the mesh builder as a pipeline *)

Module Rich.
Section WithNumber.
Context {F : Type} `{Number F}.
Local Open Scope js_scope.

Definition buildHexPoints (cols rows : Z) (cellHeight : F) : list (point F) :=
  flat_map (fun j =>
    let offset := of_Z (j mod 2) *! lit 5 10 in
    map (fun i => mkPoint (of_Z i +! offset) (of_Z j *! cellHeight))
      (range cols))
    (range rows).

(** The object [computeBounds] returns. *)
Record bounds : Type :=
  mkBounds { b_minX : F; b_minY : F; spanX : F; spanY : F }.

Definition bounds_step (b : extent F) (p : point F) : extent F :=
  let b := if x p <! minX b then mkExtent (x p) (maxX b) (minY b) (maxY b) else b in
  let b := if x p >! maxX b then mkExtent (minX b) (x p) (minY b) (maxY b) else b in
  let b := if y p <! minY b then mkExtent (minX b) (maxX b) (y p) (maxY b) else b in
  let b := if y p >! maxY b then mkExtent (minX b) (maxX b) (minY b) (y p) else b in
  b.

Definition computeBounds (points : list (point F)) : bounds :=
  let b :=
    fold_left bounds_step points
      (mkExtent infinity (neg infinity) infinity (neg infinity)) in
  mkBounds (minX b) (minY b)
    ((maxX b -! minX b) ||! of_Z 1)
    ((maxY b -! minY b) ||! of_Z 1).

Definition normalizePositions (points : list (point F)) (bounds : bounds)
    (widenFactor : F) : list F :=
  fold_left (fun (positions : list F) (i : nat) =>
    let p := nth i points (mkPoint (of_Z 0) (of_Z 0)) in
    let nx := ((x p -! b_minX bounds) /! spanX bounds) *! of_Z 2 -! of_Z 1 in
    let ny := ((y p -! b_minY bounds) /! spanY bounds) *! of_Z 2 -! of_Z 1 in
    let positions := upd (i * 2) (fround (nx *! widenFactor)) positions in
    upd (i * 2 + 1) (fround ny) positions)
    (seq 0 (length points))
    (repeat (of_Z 0) (length points * 2)).

(** Neighbor offsets [dx, dy], by row parity. *)
Definition neighborOffsets : list (list (Z * Z)) :=
  [ [ (1, 0); (0, 1); (-1, 1) ];
    [ (1, 0); (0, 1); (1, 1) ] ]%Z.

Definition buildHexEdges (cols rows : Z) : list Z :=
  let index := fun i j : Z => (j * cols + i)%Z in
  let edges :=
    flat_map (fun j =>
      let neighbors := nth (Z.to_nat (j mod 2)) neighborOffsets [] in
      flat_map (fun i =>
        let a := index i j in
        flat_map (fun '(dx, dy) =>
          let ni := (i + dx)%Z in
          let nj := (j + dy)%Z in
          if (ni <? 0)%Z || (ni >=? cols)%Z || (nj <? 0)%Z || (nj >=? rows)%Z
          then []
          else [a; index ni nj])
          neighbors)
        (range cols))
      (range rows) in
  Uint16Array edges.

Definition createHexGrid (cols rows : Z) : grid F :=
  let cellHeight := sqrt (of_Z 3) *! lit 5 10 in
  let rawPoints := buildHexPoints cols rows cellHeight in
  let bounds := computeBounds rawPoints in
  let positions := normalizePositions rawPoints bounds (lit 125 100) in
  let indices := buildHexEdges cols rows in
  mkGrid positions indices.

End WithNumber.

Record meshLevel : Type :=
  mkLevel { id : string; label : string; cols : Z; rows : Z }.

Definition meshLevels : list meshLevel :=
  [ mkLevel "minimal" "Light mesh" 52 18;
    mkLevel "balanced" "Balanced mesh" 80 28;
    mkLevel "dense" "Dense mesh" 120 42 ].

End Rich.

(** ** The interaction / render loop *)

Module Loop.
Section WithNumber.
Context {F : Type} `{Number F}.
Local Open Scope js_scope.

(** [shockState]: one origin and one start time; [start = -1] means no shock. *)
Record shockState : Type := mkShock { origin : point F; start : F }.

(** The mutable variables of the load handler that the pointer and shock code
    reads or writes.  ([pointerSpeed], the canvas size and the current grid are
    written by the same handlers but never read by the code modelled here.) *)
Record state : Type := mkState {
  targetMouse : point F;
  mouse : point F;
  shock : shockState;
  menuVisible : bool
}.

(** What the handlers read from the page: the window size and whether the
    [mesh-menu] element exists. *)
Record page : Type := mkPage {
  innerWidth : F;
  innerHeight : F;
  contextMenu : bool
}.

Record pointerEvent : Type := mkPointerEvent {
  pointerType : string;
  button : Z;
  clientX : F;
  clientY : F;
  target_in_menu : bool   (* the event target is inside the menu element *)
}.

Definition initial : state :=
  mkState (mkPoint (of_Z 0) (of_Z 0)) (mkPoint (of_Z 0) (of_Z 0))
    (mkShock (mkPoint (of_Z 0) (of_Z 0)) (of_Z (-1))) false.

Definition closeContextMenu (w : page) (st : state) : state :=
  if negb (contextMenu w) || negb (menuVisible st) then st
  else mkState (targetMouse st) (mouse st) (shock st) false.

Definition openContextMenu (w : page) (st : state) : state :=
  if negb (contextMenu w) then st
  else mkState (targetMouse st) (mouse st) (shock st) true.

Definition clipSpaceFromEvent (w : page) (e : pointerEvent) : point F :=
  let nx := (clientX e /! innerWidth w) *! of_Z 2 -! of_Z 1 in
  let ny := (clientY e /! innerHeight w) *! of_Z 2 -! of_Z 1 in
  mkPoint nx (neg ny).

Definition updatePointerTarget (w : page) (e : pointerEvent) (st : state)
    : state * point F :=
  let coords := clipSpaceFromEvent w e in
  (mkState coords (mouse st) (shock st) (menuVisible st), coords).

(** The [pointermove] listener. *)
Definition pointermove (w : page) (e : pointerEvent) (st : state) : state :=
  fst (updatePointerTarget w e st).

(** The [pointerdown] listener; [now] is the value [performance.now()] returns
    when the shock is recorded. *)
Definition pointerdown (w : page) (e : pointerEvent) (now : F) (st : state)
    : state :=
  if (pointerType e =? "mouse")%string && (button e =? 2)%Z then
    openContextMenu w st
  else if contextMenu w && target_in_menu e then st
  else
    let st := if menuVisible st then closeContextMenu w st else st in
    if (pointerType e =? "mouse")%string && negb (button e =? 0)%Z then st
    else
      let '(st, coords) := updatePointerTarget w e st in
      mkState (targetMouse st) (mouse st) (mkShock coords now) (menuVisible st).

(** The [contextmenu] listener. *)
Definition contextmenu (w : page) (e : pointerEvent) (st : state) : state :=
  if contextMenu w && target_in_menu e then st else openContextMenu w st.

(** The [keydown] listener. *)
Definition keydown (w : page) (key : string) (st : state) : state :=
  if (key =? "Escape")%string then closeContextMenu w st else st.

(** Smooth mouse motion: one frame of easing toward the target. *)
Definition ease (target m : point F) : point F :=
  mkPoint (x m +! (x target -! x m) *! lit 7 100)
          (y m +! (y target -! y m) *! lit 7 100).

(** Automatic mesh zoom: the scale chosen for a window width. *)
Definition responsiveScale (w : F) : F :=
  if w <! of_Z 480 then lit 18 10
  else if w <! of_Z 768 then lit 14 10
  else if w <! of_Z 1024 then lit 12 10
  else of_Z 1.

(** The values a frame hands to the shaders. *)
Record uniforms : Type := mkUniforms {
  uTime : F;
  uMouse : point F;
  uScale : F;
  uShockOrigin : point F;
  uShockTime : F;
  uShockPower : F;
  uShockHeat : F
}.

(** The shock part of a frame: the new start time and the age. *)
Definition shock_age (ms : F) (start : F) : F * F :=
  let shockAge := of_Z (-1) in
  if start >=! of_Z 0 then
    let shockAge := (ms -! start) *! lit 1 1000 in
    if shockAge >! lit 45 10 then (of_Z (-1), of_Z (-1))
    else (start, shockAge)
  else (start, shockAge).

(** One call of [render(ms)] of the richer variant. *)
Definition render (w : page) (ms : F) (st : state) : state * uniforms :=
  let t := ms *! lit 1 1000 in
  let mouse := ease (targetMouse st) (mouse st) in
  let scale := responsiveScale (innerWidth w) in
  let '(start, shockAge) := shock_age ms (start (shock st)) in
  let shockStrength :=
    if shockAge >=! of_Z 0
    then max (of_Z 0) (of_Z 1 -! shockAge /! lit 32 10) else of_Z 0 in
  let shockHeat :=
    if shockAge >=! of_Z 0
    then max (of_Z 0) (of_Z 1 -! shockAge /! lit 22 10) else of_Z 0 in
  let shock := mkShock (origin (shock st)) start in
  (mkState (targetMouse st) mouse shock (menuVisible st),
   mkUniforms t mouse scale (origin shock) shockAge shockStrength shockHeat).

(** One call of [render(ms)] of the simple variant: pointer and scale only. *)
Definition render_simple (w : page) (ms : F) (targetMouse mouse : point F)
    : point F * (F * point F * F) :=
  let t := ms *! lit 1 1000 in
  let mouse := ease targetMouse mouse in
  let scale := responsiveScale (innerWidth w) in
  (mouse, (t, mouse, scale)).

(** The pointer position after [n] frames with the target held. *)
Fixpoint ease_frames (n : nat) (target m : point F) : point F :=
  match n with
  | O => m
  | S k => ease_frames k target (ease target m)
  end.

Inductive event : Type :=
| PointerMove (e : pointerEvent)
| PointerDown (e : pointerEvent) (now : F)
| ContextMenu (e : pointerEvent)
| KeyDown (key : string)
| Frame (ms : F).

Definition step (w : page) (st : state) (ev : event) : state :=
  match ev with
  | PointerMove e => pointermove w e st
  | PointerDown e now => pointerdown w e now st
  | ContextMenu e => contextmenu w e st
  | KeyDown key => keydown w key st
  | Frame ms => fst (render w ms st)
  end.

(** The state after a sequence of events, handled one at a time. *)
Definition run (w : page) (st : state) (evs : list event) : state :=
  fold_left (step w) evs st.

(** A primary press: the left mouse button, or any touch or pen contact. *)
Definition primary (e : pointerEvent) : bool :=
  negb (pointerType e =? "mouse")%string || (button e =? 0)%Z.

(** A press that the listener records as a shock: primary, and not aimed at
    the menu element. *)
Definition starts_shock (w : page) (e : pointerEvent) : bool :=
  primary e && negb (contextMenu w && target_in_menu e).

End WithNumber.
End Loop.

(** ** Notions used in the statements *)

Section Notions.
Context {F : Type} `{Number F}.
Local Open Scope js_scope.

(** The two normalized components of a point, before the 32-bit store. *)
Definition norm_x (b : Rich.bounds) (w : F) (p : point F) : F :=
  (((x p -! Rich.b_minX b) /! Rich.spanX b) *! of_Z 2 -! of_Z 1) *! w.

Definition norm_y (b : Rich.bounds) (p : point F) : F :=
  ((y p -! Rich.b_minY b) /! Rich.spanY b) *! of_Z 2 -! of_Z 1.

(** The running minimum and maximum of the bounds loop, one coordinate at a
    time. *)
Definition run_min (vs : list F) (init : F) : F :=
  fold_left (fun m v => if v <! m then v else m) vs init.

Definition run_max (vs : list F) (init : F) : F :=
  fold_left (fun m v => if v >! m then v else m) vs init.

(** The stored components span exactly [-w, w] in x and [-1, 1] in y. *)
Definition spans_box (w : F) (p : list F) : Prop :=
  run_min (xs_of p) infinity = neg w
  /\ run_max (xs_of p) (neg infinity) = w
  /\ run_min (ys_of p) infinity = neg (of_Z 1)
  /\ run_max (ys_of p) (neg infinity) = of_Z 1.

End Notions.

(** An undirected segment: its two endpoints, smaller first. *)
Definition undirected (s : Z * Z) : Z * Z :=
  (Z.min (fst s) (snd s), Z.max (fst s) (snd s)).

(** The row-parity rule: the column, in the next row, of the diagonal neighbor
    of the point in column [i] of row [j]. *)
Definition diagonal_column (i j : Z) : Z :=
  if Z.even j then i - 1 else i + 1.

(** A left click at the middle of a 1000 by 800 window, aimed at the page or
    at a button of the menu. *)
Definition page_1000_800 {F : Type} `{Number F} : Loop.page (F:=F) :=
  Loop.mkPage (of_Z 1000) (of_Z 800) true.

Definition left_click {F : Type} `{Number F} (in_menu : bool)
    : Loop.pointerEvent (F:=F) :=
  Loop.mkPointerEvent "mouse" 0 (of_Z 500) (of_Z 400) in_menu.

(** In exact arithmetic: a point with real coordinates, the real a finite
    number holds, and the Euclidean distance between two points. *)
Definition pt (a b : R) : point Ideal.xreal :=
  mkPoint (Ideal.XFin a) (Ideal.XFin b).

Definition to_R (a : Ideal.xreal) : R :=
  match a with
  | Ideal.XFin r => r
  | _ => 0%R
  end.

Definition distance (a b : point Ideal.xreal) : R :=
  R_sqrt.sqrt ((to_R (x a) - to_R (x b)) ^ 2 + (to_R (y a) - to_R (y b)) ^ 2)%R.

(** [m] is the least (greatest) element of a list of finite numbers. *)
Definition least (m : R) (l : list Ideal.xreal) : Prop :=
  In (Ideal.XFin m) l /\ Forall (fun v => exists r, v = Ideal.XFin r /\ (m <= r)%R) l.

Definition all_finite (l : list Ideal.xreal) : Prop :=
  Forall (fun v => exists r, v = Ideal.XFin r) l.

Definition greatest (m : R) (l : list Ideal.xreal) : Prop :=
  In (Ideal.XFin m) l /\ Forall (fun v => exists r, v = Ideal.XFin r /\ (r <= m)%R) l.

(** ** Further parts of the scripts *)

(** [Math.min], used by the speed estimate and by the menu placement. *)
Class MathMin (F : Type) : Type := { math_min : F -> F -> F }.

(** [Math.min(a, b)] on binary64: NaN if either is NaN; [-0] is smaller than
    [+0]. *)
Definition float_min (a b : float) : float :=
  if PrimFloat.is_nan a || PrimFloat.is_nan b then PrimFloat.nan
  else if PrimFloat.ltb a b then a
  else if PrimFloat.ltb b a then b
  else if PrimFloat.is_zero a && PrimFloat.get_sign b then b else a.

#[global] Instance float_math_min : MathMin float := {| math_min := float_min |}.

Definition xreal_min (a b : Ideal.xreal) : Ideal.xreal :=
  match a, b with
  | Ideal.XNaN, _ | _, Ideal.XNaN => Ideal.XNaN
  | _, _ => if Ideal.xltb b a then b else a
  end.

#[global] Instance xreal_math_min : MathMin Ideal.xreal := {| math_min := xreal_min |}.

(** [Math.hypot(a, b)].  Its binary64 result is left to the host, so only the
    exact reading is given: the root of the sum of squares, infinite as soon
    as one argument is. *)
Class MathHypot (F : Type) : Type := { hypot : F -> F -> F }.

Definition xreal_hypot (a b : Ideal.xreal) : Ideal.xreal :=
  match a, b with
  | Ideal.XInf _, _ | _, Ideal.XInf _ => Ideal.XInf false
  | Ideal.XNaN, _ | _, Ideal.XNaN => Ideal.XNaN
  | Ideal.XFin u, Ideal.XFin v => Ideal.XFin (R_sqrt.sqrt (u * u + v * v))
  end.

#[global] Instance xreal_math_hypot : MathHypot Ideal.xreal := {| hypot := xreal_hypot |}.

(** *** The middle variant: the pipeline with a chain of tests for the edges *)

Module Mid.
Section WithNumber.
Context {F : Type} `{Number F}.
Local Open Scope js_scope.

Definition buildHexEdges (cols rows : Z) : list Z :=
  let index := fun i j : Z => (j * cols + i)%Z in
  let edges :=
    flat_map (fun j =>
      let odd := j mod 2 in
      flat_map (fun i =>
        let a := index i j in
        (if (i + 1 <? cols)%Z then [a; index (i + 1)%Z j] else []) ++
        (if (j + 1 <? rows)%Z then
           [a; index i (j + 1)%Z] ++
           (let di := if negb (odd =? 0)%Z then (i + 1)%Z else (i - 1)%Z in
            if (di >=? 0)%Z && (di <? cols)%Z
            then [a; index di (j + 1)%Z] else [])
         else []))
        (range cols))
      (range rows) in
  Uint16Array edges.

Definition createHexGrid (cols rows : Z) : grid F :=
  let cellHeight := sqrt (of_Z 3) *! lit 5 10 in
  let rawPoints := Rich.buildHexPoints cols rows cellHeight in
  let bounds := Rich.computeBounds rawPoints in
  let positions := Rich.normalizePositions rawPoints bounds (lit 125 100) in
  let indices := buildHexEdges cols rows in
  mkGrid positions indices.

End WithNumber.
End Mid.

(** *** Aspect correction ([resize]) *)

Module Viewport.
Section WithNumber.
Context {F : Type} `{Number F}.
Local Open Scope js_scope.

(** What [resize] reads. *)
Record screen : Type := mkScreen {
  devicePixelRatio : F;
  clientWidth : F;
  clientHeight : F;
  winWidth : F;      (* window.innerWidth *)
  winHeight : F      (* window.innerHeight *)
}.

(** The [aspectScale] that [resize] leaves.  (The same call also stores the
    size into the canvas element and sets the GL viewport; [aspectScale] does
    not depend on either.) *)
Definition resize (s : screen) : point F :=
  let dpr := devicePixelRatio s ||! of_Z 1 in
  let w := (clientWidth s ||! winWidth s) *! dpr in
  let h := (clientHeight s ||! winHeight s) *! dpr in
  let aspect := if h >! of_Z 0 then w /! h else of_Z 1 in
  if aspect >=! of_Z 1 then mkPoint (of_Z 1) aspect
  else if aspect >! of_Z 0 then mkPoint (of_Z 1 /! aspect) (of_Z 1)
  else mkPoint (of_Z 1) (of_Z 1).

End WithNumber.
End Viewport.

(** *** Placement of the context menu *)

Module MenuPlace.
Section WithNumber.
Context {F : Type} `{Number F} `{MathMin F}.
Local Open Scope js_scope.

(** The frame callback of [openContextMenu]: the [left] and [top] offsets, in
    pixels, given the measured menu size and the window size. *)
Definition place (offsetWidth offsetHeight innerWidth innerHeight
                  clientX clientY : F) : F * F :=
  let menuWidth := offsetWidth ||! of_Z 200 in
  let menuHeight := offsetHeight ||! of_Z 140 in
  let maxX := innerWidth -! menuWidth -! of_Z 12 in
  let maxY := innerHeight -! menuHeight -! of_Z 12 in
  let clampedX := max (of_Z 12) (math_min clientX maxX) in
  let clampedY := max (of_Z 12) (math_min clientY maxY) in
  (clampedX, clampedY).

End WithNumber.
End MenuPlace.

(** *** The pointer-speed estimate *)

Module Speed.
Section WithNumber.
Context {F : Type} `{Number F} `{MathMin F} `{MathHypot F}.
Local Open Scope js_scope.

Record pointerSpeed : Type := mkSpeed {
  target : F;
  value : F;
  lastX : F;
  lastY : F;
  lastTime : F
}.

(** [recordPointerSpeed(coords)]; [now] is what [performance.now()] returns. *)
Definition recordPointerSpeed (coords : point F) (now : F) (ps : pointerSpeed)
    : pointerSpeed :=
  let dx := x coords -! lastX ps in
  let dy := y coords -! lastY ps in
  let dt := max (of_Z 1) (now -! lastTime ps) in
  let dist := hypot dx dy in
  let normalized := dist /! (dt /! of_Z 16) in
  mkSpeed (math_min (lit 25 10) normalized) (value ps) (x coords) (y coords) now.

(** The speed part of a frame. *)
Definition frame (ps : pointerSpeed) : pointerSpeed :=
  let value := value ps +! (target ps -! value ps) *! lit 8 100 in
  let target := target ps *! lit 9 10 in
  let target := if target <! lit 1 10000 then of_Z 0 else target in
  mkSpeed target value (lastX ps) (lastY ps) (lastTime ps).

Fixpoint frames (n : nat) (ps : pointerSpeed) : pointerSpeed :=
  match n with
  | O => ps
  | S k => frames k (frame ps)
  end.

End WithNumber.
End Speed.

(** *** Mesh levels and the menu buttons *)

Module Levels.
Section WithNumber.
Context {F : Type} `{Number F}.

(** [menuButtons]: the [data-level] attribute of each button of the menu. *)
Variable menuButtons : list string.

(** The current level, the grid built for it, the grids uploaded to the GPU
    buffers so far (latest first), and the [active] flag of each button. *)
Record state : Type := mkState {
  currentMeshLevel : Rich.meshLevel;
  meshGrid : grid F;
  uploads : list (grid F);
  active : list bool
}.

Definition markActiveMeshButton (st : state) : state :=
  if (length menuButtons =? 0)%nat then st
  else
    mkState (currentMeshLevel st) (meshGrid st) (uploads st)
      (map (fun btn => (btn =? Rich.id (currentMeshLevel st))%string) menuButtons).

Definition uploadGridBuffers (data : grid F) (st : state) : state :=
  mkState (currentMeshLevel st) (meshGrid st) (data :: uploads st) (active st).

Definition applyMeshLevel (level : Rich.meshLevel) (st : state) : state :=
  let g := Rich.createHexGrid (Rich.cols level) (Rich.rows level) in
  let st := mkState level g (uploads st) (active st) in
  let st := uploadGridBuffers g st in
  markActiveMeshButton st.

(** The state the load handler sets up: the second level, its grid uploaded
    once, the buttons marked; [flags] are the flags the markup starts with. *)
Definition initial (flags : list bool) : state :=
  let level := nth 1 Rich.meshLevels (Rich.mkLevel "" "" 0 0) in
  let g := Rich.createHexGrid (Rich.cols level) (Rich.rows level) in
  markActiveMeshButton (uploadGridBuffers g (mkState level g [] flags)).

(** The [click] listener of the menu, as far as it concerns the mesh; [btn]
    is the [data-level] of the button hit, if a button was hit. *)
Definition click (btn : option string) (st : state) : state :=
  match btn with
  | None => st
  | Some wanted =>
      match find (fun item => (Rich.id item =? wanted)%string) Rich.meshLevels with
      | Some level =>
          if negb (Rich.id level =? Rich.id (currentMeshLevel st))%string
          then applyMeshLevel level st else st
      | None => st
      end
  end.

(** The events that reach the mesh state: a click in the menu, and an
    opening of the menu (which marks the buttons again). *)
Inductive event : Type :=
| Click (btn : option string)
| Open.

Definition step (st : state) (ev : event) : state :=
  match ev with
  | Click btn => click btn st
  | Open => markActiveMeshButton st
  end.

Definition run (st : state) (evs : list event) : state := fold_left step evs st.

End WithNumber.
End Levels.

(** *** Shader and program creation *)

Module GL.

Inductive shaderType : Type := VERTEX_SHADER | FRAGMENT_SHADER.

(** The calls made on the context and on the console; objects are numbered
    in the order the context creates them. *)
Inductive call : Type :=
| createShader_ (id : nat) (type : shaderType)
| shaderSource (id : nat) (src : string)
| compileShader (id : nat)
| deleteShader (id : nat)
| createProgram_ (id : nat)
| attachShader (program shader : nat)
| linkProgram (program : nat)
| deleteProgram (program : nat)
| console_error (what : string).

(** What the driver answers: whether a source compiles as a shader of a
    type, whether two compiled sources link. *)
Record driver : Type := mkDriver {
  COMPILE_STATUS : shaderType -> string -> bool;
  LINK_STATUS : string -> string -> bool
}.

(** The context: the number of objects created and the calls so far (latest
    first). *)
Record context : Type := mkContext { created : nat; calls : list call }.

Definition emit (c : call) (gl : context) : context :=
  mkContext (created gl) (c :: calls gl).

Definition fresh (gl : context) : nat * context :=
  (created gl, mkContext (S (created gl)) (calls gl)).

Definition createShader (d : driver) (gl : context) (type : shaderType)
    (src : string) : option nat * context :=
  let '(s, gl) := fresh gl in
  let gl := emit (createShader_ s type) gl in
  let gl := emit (shaderSource s src) gl in
  let gl := emit (compileShader s) gl in
  if negb (COMPILE_STATUS d type src) then
    let gl := emit (console_error "Shader compile error:") gl in
    let gl := emit (deleteShader s) gl in
    (None, gl)
  else (Some s, gl).

Definition createProgram (d : driver) (gl : context) (vs fs : string)
    : option nat * context :=
  let '(v, gl) := createShader d gl VERTEX_SHADER vs in
  let '(f, gl) := createShader d gl FRAGMENT_SHADER fs in
  match v, f with
  | Some v, Some f =>
      let '(p, gl) := fresh gl in
      let gl := emit (createProgram_ p) gl in
      let gl := emit (attachShader p v) gl in
      let gl := emit (attachShader p f) gl in
      let gl := emit (linkProgram p) gl in
      if negb (LINK_STATUS d vs fs) then
        let gl := emit (console_error "Link error:") gl in
        let gl := emit (deleteProgram p) gl in
        (None, gl)
      else (Some p, gl)
  | _, _ => (None, gl)
  end.

(** The shaders and programs that exist after a list of calls (given latest
    first): created and not deleted since. *)
Fixpoint live_shaders (cs : list call) : list nat :=
  match cs with
  | [] => []
  | createShader_ s _ :: rest => s :: live_shaders rest
  | deleteShader s :: rest => remove Nat.eq_dec s (live_shaders rest)
  | _ :: rest => live_shaders rest
  end.

Fixpoint live_programs (cs : list call) : list nat :=
  match cs with
  | [] => []
  | createProgram_ p :: rest => p :: live_programs rest
  | deleteProgram p :: rest => remove Nat.eq_dec p (live_programs rest)
  | _ :: rest => live_programs rest
  end.

(** The objects that exist were numbered by the context. *)
Definition numbered (gl : context) : Prop :=
  forall id : nat,
    In id (live_shaders (calls gl)) \/ In id (live_programs (calls gl)) ->
    (id < created gl)%nat.

(** The errors written to the console. *)
Fixpoint errors (cs : list call) : nat :=
  match cs with
  | [] => 0%nat
  | console_error _ :: rest => S (errors rest)
  | _ :: rest => errors rest
  end.

End GL.

(** *** The build script: copying the static files *)

Module Build.

(** What a path of the disk holds. *)
Inductive entry : Type := File (content : string) | Directory.

(** The disk: what each path holds, if it exists.  Different paths are
    different files (no links). *)
Definition disk : Type := string -> option entry.

(** How a call on the disk ends: it returns, or it throws an error; either
    way it leaves a disk. *)
Inductive outcome : Type :=
| Done (d : disk)
| Thrown (error : string) (d : disk).

Definition path_join (dir file : string) : string := (dir ++ "/" ++ file)%string.

Definition STATIC_FILES : list string :=
  ["favicon.svg"%string; ".htaccess"%string; "robots.txt"%string].

(** [fs.existsSync]: true for files and for directories. *)
Definition existsSync (d : disk) (p : string) : bool :=
  match d p with Some _ => true | None => false end.

(** [fs.copyFileSync] belongs to the platform, so the script is read over
    any [copy] that behaves as follows: when it returns, the source was a
    regular file and the target now holds its content; when it throws, the
    target may be in any state; in both cases all other paths are as before. *)
Definition copy_law (copy : string -> string -> disk -> outcome) : Prop :=
  forall (source target : string) (d : disk),
    match copy source target d with
    | Done d' =>
        (exists c, d source = Some (File c) /\ d' target = Some (File c))
        /\ forall p, p <> target -> d' p = d p
    | Thrown _ d' => forall p, p <> target -> d' p = d p
    end.

(** A platform with files and directories and nothing else that can fail:
    copying a directory, or onto a directory, throws. *)
Definition plain_copy (source target : string) (d : disk) : outcome :=
  match d source, d target with
  | Some (File c), Some Directory => Thrown "EISDIR" d
  | Some (File c), _ =>
      Done (fun p => if (p =? target)%string then Some (File c) else d p)
  | Some Directory, _ => Thrown "EISDIR" d
  | None, _ => Thrown "ENOENT" d
  end.

Section WithPlatform.
Variable copyFileSync : string -> string -> disk -> outcome.

(** The loop of [copyStaticFiles] over a list of files: a throw ends it. *)
Fixpoint copy_files (SRC DIST : string) (files : list string) (d : disk)
    : outcome :=
  match files with
  | [] => Done d
  | file :: files' =>
      let sourcePath := path_join SRC file in
      if existsSync d sourcePath then
        let targetPath := path_join DIST file in
        match copyFileSync sourcePath targetPath d with
        | Done d' => copy_files SRC DIST files' d'
        | Thrown error d' => Thrown error d'
        end
      else copy_files SRC DIST files' d
  end.

Definition copyStaticFiles (dirname : string) (d : disk) : outcome :=
  let SRC := path_join dirname "src" in
  let DIST := path_join dirname "dist" in
  copy_files SRC DIST STATIC_FILES d.

End WithPlatform.

(** What the loop has done for one file when it is through with it. *)
Definition handled (SRC DIST : string) (d d' : disk) (file : string) : Prop :=
  match d (path_join SRC file) with
  | None => d' (path_join DIST file) = d (path_join DIST file)
  | Some e => exists c, e = File c /\ d' (path_join DIST file) = Some (File c)
  end.

(** The files were handled one after the other until [copy] threw, if it
    did. *)
Definition copied (SRC DIST : string) (files : list string) (d : disk)
    (o : outcome) : Prop :=
  match o with
  | Done d' =>
      (forall f, In f files -> handled SRC DIST d d' f)
      /\ forall p, (forall f, In f files -> p <> path_join DIST f) -> d' p = d p
  | Thrown _ d' =>
      exists before f after,
        files = before ++ f :: after
        /\ (forall g, In g before -> handled SRC DIST d d' g)
        /\ d (path_join SRC f) <> None
        /\ (forall g, In g after -> d' (path_join DIST g) = d (path_join DIST g))
        /\ forall p, (forall g, In g files -> p <> path_join DIST g) -> d' p = d p
  end.

End Build.

(** *** Notions used in the further statements *)

(** The segments pushed for the point in column [i] of row [j]. *)
Definition cell_segments (cols rows i j : Z) : list (Z * Z) :=
  let a := j * cols + i in
  (if i + 1 <? cols then [(a, j * cols + (i + 1))] else []) ++
  (if j + 1 <? rows then
     (a, (j + 1) * cols + i) ::
     (let di := diagonal_column i j in
      if (0 <=? di) && (di <? cols) then [(a, (j + 1) * cols + di)] else [])
   else []).

(** All the segments of a grid, row by row, and a list of segments written
    out as a flat index list. *)
Definition grid_segments (cols rows : Z) : list (Z * Z) :=
  flat_map (fun j => flat_map (fun i => cell_segments cols rows i j) (range cols))
    (range rows).

Definition unpair (l : list (Z * Z)) : list Z :=
  flat_map (fun s => [fst s; snd s]) l.

(** The lattice point of column [i] and row [j], for a cell height [h]. *)
Definition lattice_point {F : Type} `{Number F} (h : F) (i j : Z) : point F :=
  mkPoint (of_Z i +! of_Z (j mod 2) *! lit 5 10)%js (of_Z j *! h)%js.

(** The greatest raw x of a lattice: the last column, shifted by half a cell
    when there is an odd row. *)
Definition lattice_max_x (cols rows : Z) : R :=
  (IZR cols - 1 + (if (2 <=? rows)%Z then 5 / 10 else 0))%R.

(** The menu is shown only if the page has a menu element. *)
Definition menu_consistent {F : Type} `{Number F}
    (w : Loop.page (F:=F)) (st : Loop.state (F:=F)) : Prop :=
  Loop.menuVisible st = true -> Loop.contextMenu w = true.

(** *** The builder as the script runs it: arrays on a heap *)

Module Store.
Section WithNumber.
Context {F : Type} `{Number F} {G : Type}.

(** The arrays the builder allocates.  The point objects [{x, y}], the
    table of neighbor offsets and the object returned are never written to
    after they are made, nor shared, so they are kept as values: points inside
    their array, the result as the pair of its two references. *)
Inductive object : Type :=
| PointArr (elems : list (point F))     (* an array of [{x, y}] objects *)
| NumberArr (elems : list Z)            (* an array of integers *)
| Float32Arr (elems : list F)           (* a [Float32Array] *)
| Uint16Arr (elems : list Z).           (* a [Uint16Array] *)

(** The state a script runs in: the heap, objects by reference in the order
    of their allocation, and the rest of the page (the variables of the other
    functions, the DOM, the clock). *)
Record world : Type := mkWorld { heap : list object; rest : G }.

Definition M (A : Type) : Type := world -> A * world.

Definition ret {A : Type} (a : A) : M A := fun w => (a, w).

Definition bind {A B : Type} (m : M A) (k : A -> M B) : M B :=
  fun w => let '(a, w') := m w in k a w'.

Definition alloc (o : object) : M nat :=
  fun w => (length (heap w), mkWorld (heap w ++ [o]) (rest w)).

Definition read (r : nat) : M object :=
  fun w => (nth r (heap w) (NumberArr []), w).

Definition write (r : nat) (o : object) : M unit :=
  fun w => (tt, mkWorld (upd r o (heap w)) (rest w)).

(** [for (const a of l) body(a)]. *)
Fixpoint for_ {A : Type} (l : list A) (body : A -> M unit) : M unit :=
  match l with
  | [] => ret tt
  | a :: l' => bind (body a) (fun _ => for_ l' body)
  end.

(** The two kinds of plain arrays. *)
Record kind (X : Type) : Type :=
  mkKind { wrap : list X -> object; unwrap : object -> option (list X) }.
Arguments wrap {X} _ _.
Arguments unwrap {X} _ _.

Definition points : kind (point F) :=
  mkKind _ PointArr (fun o => match o with PointArr l => Some l | _ => None end).

Definition numbers : kind Z :=
  mkKind _ NumberArr (fun o => match o with NumberArr l => Some l | _ => None end).

(** [array.push(...xs)]. *)
Definition push {X : Type} (K : kind X) (r : nat) (xs : list X) : M unit :=
  bind (read r) (fun o =>
    match unwrap K o with
    | Some l => write r (wrap K (l ++ xs))
    | None => ret tt
    end).

(** The elements of an array, as [for ... of] and [.length] see them. *)
Definition elements {X : Type} (K : kind X) (r : nat) : M (list X) :=
  bind (read r) (fun o =>
    ret (match unwrap K o with Some l => l | None => [] end)).

(** [positions[i] = v] on a [Float32Array]. *)
Definition store32 (r : nat) (i : nat) (v : F) : M unit :=
  bind (read r) (fun o =>
    match o with
    | Float32Arr l => write r (Float32Arr (upd i (fround v) l))
    | _ => ret tt
    end).

End WithNumber.
Arguments object : clear implicits.
Arguments world : clear implicits.
Arguments M : clear implicits.
Arguments kind : clear implicits.
Arguments wrap {F X} _ _.
Arguments unwrap {F X} _ _.
End Store.

Declare Scope run_scope.
Delimit Scope run_scope with run.
Notation "x <- m ;; k" := (Store.bind m (fun x => k))
  (at level 61, m at next level, right associativity) : run_scope.
Notation "m ;;; k" := (Store.bind m (fun _ => k))
  (at level 61, right associativity) : run_scope.

Module RichRun.
Section WithNumber.
Context {F : Type} `{Number F} {G : Type}.
Import Store.
Local Open Scope js_scope.
Local Open Scope run_scope.

Definition buildHexPoints (cols rows : Z) (cellHeight : F) : M F G nat :=
  pts <- alloc (PointArr []) ;;
  for_ (range rows) (fun j =>
    let offset := of_Z (j mod 2) *! lit 5 10 in
    for_ (range cols) (fun i =>
      push points pts [mkPoint (of_Z i +! offset) (of_Z j *! cellHeight)])) ;;;
  ret pts.

Definition computeBounds (pts : nat) : M F G Rich.bounds :=
  elems <- elements points pts ;;
  let b :=
    fold_left Rich.bounds_step elems
      (mkExtent infinity (neg infinity) infinity (neg infinity)) in
  ret (Rich.mkBounds (minX b) (minY b)
         ((maxX b -! minX b) ||! of_Z 1)
         ((maxY b -! minY b) ||! of_Z 1)).

Definition normalizePositions (pts : nat) (bounds : Rich.bounds)
    (widenFactor : F) : M F G nat :=
  elems <- elements points pts ;;
  positions <- alloc (Float32Arr (repeat (of_Z 0) (length elems * 2))) ;;
  for_ (seq 0 (length elems)) (fun i =>
    elems <- elements points pts ;;
    let p := nth i elems (mkPoint (of_Z 0) (of_Z 0)) in
    let nx := ((x p -! Rich.b_minX bounds) /! Rich.spanX bounds) *! of_Z 2 -! of_Z 1 in
    let ny := ((y p -! Rich.b_minY bounds) /! Rich.spanY bounds) *! of_Z 2 -! of_Z 1 in
    store32 positions (i * 2) (nx *! widenFactor) ;;;
    store32 positions (i * 2 + 1) ny) ;;;
  ret positions.

Definition buildHexEdges (cols rows : Z) : M F G nat :=
  edges <- alloc (NumberArr []) ;;
  let index := fun i j : Z => (j * cols + i)%Z in
  for_ (range rows) (fun j =>
    let neighbors := nth (Z.to_nat (j mod 2)) Rich.neighborOffsets [] in
    for_ (range cols) (fun i =>
      let a := index i j in
      for_ neighbors (fun '(dx, dy) =>
        let ni := (i + dx)%Z in
        let nj := (j + dy)%Z in
        if (ni <? 0)%Z || (ni >=? cols)%Z || (nj <? 0)%Z || (nj >=? rows)%Z
        then ret tt
        else push numbers edges [a; index ni nj]))) ;;;
  elems <- elements numbers edges ;;
  alloc (Uint16Arr (Uint16Array elems)).

(** The object returned holds the references of the two buffers. *)
Definition createHexGrid (cols rows : Z) : M F G (nat * nat) :=
  let cellHeight := sqrt (of_Z 3) *! lit 5 10 in
  rawPoints <- buildHexPoints cols rows cellHeight ;;
  bounds <- computeBounds rawPoints ;;
  positions <- normalizePositions rawPoints bounds (lit 125 100) ;;
  indices <- buildHexEdges cols rows ;;
  ret (positions, indices).

End WithNumber.
End RichRun.

Module SimpleRun.
Section WithNumber.
Context {F : Type} `{Number F} {G : Type}.
Import Store.
Local Open Scope js_scope.
Local Open Scope run_scope.

Definition createHexGrid (cols rows : Z) : M F G (nat * nat) :=
  raw <- alloc (PointArr []) ;;
  edges <- alloc (NumberArr []) ;;
  let cellW := of_Z 1 in
  let cellH := sqrt (of_Z 3) *! lit 5 10 *! cellW in
  (* Raw hex coordinates *)
  for_ (range rows) (fun j =>
    let odd := j mod 2 in
    for_ (range cols) (fun i =>
      push points raw
        [mkPoint (of_Z i +! of_Z odd *! lit 5 10) (of_Z j *! cellH)])) ;;;
  (* Compute bounds *)
  elems <- elements points raw ;;
  let b :=
    fold_left Simple.bounds_step elems
      (mkExtent infinity (neg infinity) infinity (neg infinity)) in
  let spanX := (maxX b -! minX b) ||! of_Z 1 in
  let spanY := (maxY b -! minY b) ||! of_Z 1 in
  (* Normalize to [-1,1] and widen horizontally *)
  positions <- alloc (Float32Arr (repeat (of_Z 0) (length elems * 2))) ;;
  for_ (seq 0 (length elems)) (fun i =>
    elems <- elements points raw ;;
    let p := nth i elems (mkPoint (of_Z 0) (of_Z 0)) in
    let nx := ((x p -! minX b) /! spanX) *! of_Z 2 -! of_Z 1 in
    let ny := ((y p -! minY b) /! spanY) *! of_Z 2 -! of_Z 1 in
    let nx := nx *! lit 125 100 in
    store32 positions (i * 2) nx ;;;
    store32 positions (i * 2 + 1) ny) ;;;
  (* Build connectivity (hex lines) *)
  let index := fun i j : Z => (j * cols + i)%Z in
  for_ (range rows) (fun j =>
    let odd := j mod 2 in
    for_ (range cols) (fun i =>
      let a := index i j in
      (if (i + 1 <? cols)%Z
       then push numbers edges [a; index (i + 1)%Z j] else ret tt) ;;;
      (if (j + 1 <? rows)%Z then
         push numbers edges [a; index i (j + 1)%Z] ;;;
         (let di := if negb (odd =? 0)%Z then (i + 1)%Z else (i - 1)%Z in
          if (di >=? 0)%Z && (di <? cols)%Z
          then push numbers edges [a; index di (j + 1)%Z] else ret tt)
       else ret tt))) ;;;
  elems <- elements numbers edges ;;
  indices <- alloc (Uint16Arr (Uint16Array elems)) ;;
  ret (positions, indices).

End WithNumber.
End SimpleRun.

(** *** Notions used in the statements about the heap *)

(** Reading back what was wrapped. *)
Definition lawful {F X : Type} (K : Store.kind F X) : Prop :=
  forall l, Store.unwrap K (Store.wrap K l) = Some l.

(** [body] appends the elements [k] to the array [r], whatever the world, and
    touches nothing else. *)
Definition appends {F G X : Type} (K : Store.kind F X) (r : nat)
    (body : Store.M F G unit) (k : list X) : Prop :=
  forall (w : Store.world F G) (acc : list X),
    nth_error (Store.heap w) r = Some (Store.wrap K acc) ->
    body w = (tt, Store.mkWorld (upd r (Store.wrap K (acc ++ k)) (Store.heap w))
                    (Store.rest w)).

(** What a call of a builder does in a world [w]: it returns the references of
    two new buffers that hold the positions and the indices of [g], and it
    leaves every object that existed, and the rest of the page, as they
    were. *)
Definition returns_grid {F G : Type} (run : Store.M F G (nat * nat))
    (w : Store.world F G) (g : grid F) : Prop :=
  let '((p, i), w') := run w in
  nth_error (Store.heap w') p = Some (Store.Float32Arr (positions g))
  /\ nth_error (Store.heap w') i = Some (Store.Uint16Arr (indices g))
  /\ (length (Store.heap w) <= p)%nat /\ (length (Store.heap w) <= i)%nat
  /\ (forall r o, nth_error (Store.heap w) r = Some o ->
                  nth_error (Store.heap w') r = Some o)
  /\ Store.rest w' = Store.rest w.

(** Two calls in a row: both results are alive afterwards, in different
    buffers with the same contents. *)
Definition two_calls_agree {F G : Type} (run : Store.M F G (nat * nat))
    (w : Store.world F G) : Prop :=
  let '((p1, i1), w') := run w in
  let '((p2, i2), w'') := run w' in
  p1 <> p2 /\ i1 <> i2
  /\ exists pos idx,
       nth_error (Store.heap w'') p1 = Some (Store.Float32Arr pos)
       /\ nth_error (Store.heap w'') p2 = Some (Store.Float32Arr pos)
       /\ nth_error (Store.heap w'') i1 = Some (Store.Uint16Arr idx)
       /\ nth_error (Store.heap w'') i2 = Some (Store.Uint16Arr idx).

(** *** Binary64 numbers read as real numbers *)

Module Binary64.

(** The real number a finite binary64 number stands for (0 for the others). *)
Definition SF2R (f : spec_float) : R :=
  match f with
  | S754_finite s m e => (IZR (cond_Zopp s (Zpos m)) * powerRZ 2 e)%R
  | _ => 0%R
  end.

Definition SF_finite (f : spec_float) : bool :=
  match f with
  | S754_zero _ | S754_finite _ _ _ => true
  | _ => false
  end.

Definition B2R (a : float) : R := SF2R (Prim2SF a).

(** Neither NaN nor an infinity. *)
Definition finite (a : float) : bool := SF_finite (Prim2SF a).

(** A finite number of magnitude below [2 ^ 1000]. *)
Definition in_range (a : float) : bool :=
  match Prim2SF a with
  | S754_zero _ => true
  | S754_finite _ m e => Zpos (digits2_pos m) + e <=? 1000
  | _ => false
  end.

(** The distance of two points with binary64 coordinates, as a real number. *)
Definition fdistance (a b : point float) : R :=
  R_sqrt.sqrt ((B2R (x a) - B2R (x b)) ^ 2 + (B2R (y a) - B2R (y b)) ^ 2)%R.

(** One coordinate of [Loop.ease] on binary64 numbers, [c] being the blend
    factor, and [n] frames of it. *)
Definition ease1 (c t m : float) : float := (m + (t - m) * c)%float.

Fixpoint ease1_frames (c : float) (n : nat) (t m : float) : float :=
  match n with
  | O => m
  | S k => ease1_frames c k t (ease1 c t m)
  end.

(** The factor by which a rounded frame shrinks the remaining distance, the
    rounding allowance of a coordinate with target [T], and the allowance of
    a target point. *)
Definition rho : R := (9300000001 / 10000000000)%R.

Definition slack (T : R) : R :=
  (powerRZ 2 (-53) * Rabs T + powerRZ 2 (-1074))%R.

Definition allowance (target : point float) : R :=
  (powerRZ 2 (-49) * (Rabs (B2R (x target)) + Rabs (B2R (y target)))
   + powerRZ 2 (-1069))%R.

(** What [binary_round_aux] returns for a mantissa and an exponent. *)
Definition SF_of_Z (sx : bool) (m e : Z) : spec_float :=
  match m with
  | Z0 => S754_zero sx
  | Zpos q => if e <=? emax - prec then S754_finite sx q e else S754_infinity sx
  | Zneg _ => S754_nan
  end.

(** After [k] shifts of [m0]: the quotient, and the round and sticky bits
    that locate the remainder [rho]. *)
Definition shr_ok (m0 k : Z) (rec : shr_record) : Prop :=
  exists rem : Z,
    m0 = shr_m rec * 2 ^ k + rem /\ 0 <= rem < 2 ^ k
    /\ (shr_r rec = true <-> 2 ^ k <= 2 * rem)
    /\ (shr_s rec = false <-> rem = 0 \/ 2 * rem = 2 ^ k).

End Binary64.

(** What holds of the mesh state at all times: the level is one of the
    table, the grid is the one built for it and the last one uploaded, and
    the buttons (if there are any) are marked by the current level. *)
Definition level_ok {F : Type} `{Number F} (menuButtons : list string)
    (st : Levels.state (F:=F)) : Prop :=
  In (Levels.currentMeshLevel st) Rich.meshLevels
  /\ Levels.meshGrid st
     = Rich.createHexGrid (Rich.cols (Levels.currentMeshLevel st))
         (Rich.rows (Levels.currentMeshLevel st))
  /\ (exists older, Levels.uploads st = Levels.meshGrid st :: older)
  /\ (menuButtons <> [] ->
      Levels.active st
      = map (fun btn => (btn =? Rich.id (Levels.currentMeshLevel st))%string)
          menuButtons).

(** * Properties *)

(** ** Lists, loops and typed arrays *)

Lemma in_range (n k : Z) : In k (range n) <-> 0 <= k < n.
Proof.
  unfold range. rewrite in_map_iff. split.
  - intros (i & <- & Hi). apply in_seq in Hi. lia.
  - intros Hk. exists (Z.to_nat k). split; [lia|]. apply in_seq. lia.
Qed.

Lemma length_range (n : Z) : length (range n) = Z.to_nat n.
Proof. unfold range. now rewrite length_map, length_seq. Qed.

Lemma length_upd {A} (i : nat) (v : A) (a : list A) : length (upd i v a) = length a.
Proof.
  revert i. induction a as [|h t IH]; intros [|i]; simpl; auto.
Qed.

Lemma upd_app {A} (pre : list A) (v h : A) (t : list A) :
  upd (length pre) v (pre ++ h :: t) = pre ++ v :: t.
Proof. induction pre as [|p pre IH]; simpl; [reflexivity | now rewrite IH]. Qed.

Lemma length_flat_map_const {A B} (f : A -> list B) (n : nat) (l : list A) :
  (forall a, length (f a) = n) -> length (flat_map f l) = (length l * n)%nat.
Proof.
  intros Hf. induction l as [|a l IH]; simpl; [reflexivity|].
  rewrite length_app, Hf, IH. lia.
Qed.

(** The loop that fills a position buffer slot by slot writes, for every
    point in turn, its two components. *)
Lemma fill_pairs {A B} (f g : A -> B) (d : A) (z : B) (l : list A) :
  fold_left (fun (pos : list B) (i : nat) =>
               upd (i * 2 + 1) (g (nth i l d)) (upd (i * 2) (f (nth i l d)) pos))
    (seq 0 (length l)) (repeat z (length l * 2))
  = flat_map (fun p => [f p; g p]) l.
Proof.
  set (body := fun (pos : list B) (i : nat) =>
    upd (i * 2 + 1) (g (nth i l d)) (upd (i * 2) (f (nth i l d)) pos)).
  assert (Hk : forall k, (k <= length l)%nat ->
    fold_left body (seq 0 k) (repeat z (length l * 2))
    = flat_map (fun p => [f p; g p]) (firstn k l)
      ++ repeat z ((length l - k) * 2)).
  { induction k as [|k IH]; intros Hle.
    - simpl. now rewrite Nat.sub_0_r.
    - assert (Hf : firstn (S k) l = firstn k l ++ [nth k l d]).
      { clear -Hle. revert k Hle. induction l as [|a l IH]; intros k Hle.
        - simpl in Hle. lia.
        - destruct k as [|k]; [reflexivity|]. simpl in Hle.
          change (firstn (S (S k)) (a :: l)) with (a :: firstn (S k) l).
          rewrite IH by lia. reflexivity. }
      rewrite seq_S, fold_left_app, IH, Hf, flat_map_app by lia.
      set (done := flat_map (fun p => [f p; g p]) (firstn k l)).
      assert (Hlen : length done = (k * 2)%nat).
      { unfold done. rewrite length_flat_map_const with (n := 2%nat) by reflexivity.
        rewrite length_firstn. lia. }
      replace ((length l - k) * 2)%nat with (S (S ((length l - S k) * 2))) by lia.
      cbn [fold_left repeat flat_map app Nat.add]. unfold body.
      rewrite <- Hlen at 2. rewrite upd_app.
      replace (done ++ f (nth k l d) :: z :: repeat z ((length l - S k) * 2))
        with ((done ++ [f (nth k l d)]) ++ z :: repeat z ((length l - S k) * 2))
        by now rewrite <- app_assoc.
      replace (k * 2 + 1)%nat with (length (done ++ [f (nth k l d)]))
        by (rewrite length_app, Hlen; simpl; lia).
      rewrite upd_app, <- !app_assoc. reflexivity. }
  rewrite Hk by lia. rewrite firstn_all, Nat.sub_diag. simpl. apply app_nil_r.
Qed.

Lemma xs_of_pairs {A B} (f g : A -> B) (l : list A) :
  xs_of (flat_map (fun p => [f p; g p]) l) = map f l.
Proof. induction l as [|a l IH]; simpl; [reflexivity | now rewrite IH]. Qed.

Lemma ys_of_pairs {A B} (f g : A -> B) (l : list A) :
  ys_of (flat_map (fun p => [f p; g p]) l) = map g l.
Proof. induction l as [|a l IH]; simpl; [reflexivity | now rewrite IH]. Qed.

(** A stored index is below the number of points whenever the index itself
    is: either nothing wraps, or the bound exceeds every 16-bit value. *)
Lemma to_uint16_below (v n : Z) : 0 <= v < n -> 0 <= to_uint16 v < n.
Proof.
  intros Hv. unfold to_uint16.
  pose proof (Z.mod_pos_bound v 65536 ltac:(lia)) as Hm.
  destruct (Z_lt_le_dec v 65536) as [Hs|Hs].
  - rewrite Z.mod_small; lia.
  - lia.
Qed.

Lemma index_in_grid (cols rows i j : Z) :
  0 <= i < cols -> 0 <= j < rows -> 0 <= j * cols + i < cols * rows.
Proof. intros Hi Hj. nia. Qed.

(** ** The mesh builder, for every number model *)

Section MeshFacts.
Context {F : Type} `{Number F}.
Local Open Scope js_scope.

Lemma normalizePositions_pairs (pts : list (point F)) (b : Rich.bounds) (w : F) :
  Rich.normalizePositions pts b w
  = flat_map (fun p => [fround (norm_x b w p); fround (norm_y b p)]) pts.
Proof.
  unfold Rich.normalizePositions.
  apply (fill_pairs (fun p => fround (norm_x b w p)) (fun p => fround (norm_y b p))).
Qed.

Lemma length_buildHexPoints (cols rows : Z) (h : F) :
  length (Rich.buildHexPoints cols rows h) = (Z.to_nat rows * Z.to_nat cols)%nat.
Proof.
  unfold Rich.buildHexPoints.
  rewrite length_flat_map_const with (n := Z.to_nat cols).
  - now rewrite length_range.
  - intros j. now rewrite length_map, length_range.
Qed.

Lemma length_normalizePositions (pts : list (point F)) (b : Rich.bounds) (w : F) :
  length (Rich.normalizePositions pts b w) = (length pts * 2)%nat.
Proof.
  rewrite normalizePositions_pairs.
  now apply length_flat_map_const.
Qed.

(** The monolithic builder computes its positions as the pipeline does, from
    its own cell height. *)
Lemma simple_positions (cols rows : Z) :
  positions (Simple.createHexGrid cols rows)
  = let pts := Rich.buildHexPoints cols rows (sqrt (of_Z 3) *! lit 5 10 *! of_Z 1) in
    Rich.normalizePositions pts (Rich.computeBounds pts) (lit 125 100).
Proof. reflexivity. Qed.

(** Settles every integer comparison of the goal that the context decides. *)
Ltac decide_tests :=
  repeat match goal with
  | |- context [(?a >=? ?b)%Z] => rewrite (Z.geb_leb a b)
  | |- context [(?a <? ?b)%Z] =>
      first [ rewrite (proj2 (Z.ltb_lt a b)) by lia
            | rewrite (proj2 (Z.ltb_ge a b)) by lia ]
  | |- context [(?a <=? ?b)%Z] =>
      first [ rewrite (proj2 (Z.leb_le a b)) by lia
            | rewrite (proj2 (Z.leb_gt a b)) by lia ]
  end.

(** The neighbors pushed for one cell, by the offset table and by the chain of
    tests. *)
Lemma cell_edges (cols rows i j : Z) :
  0 <= i < cols -> 0 <= j < rows ->
  flat_map (fun '(dx, dy) =>
      let ni := (i + dx)%Z in
      let nj := (j + dy)%Z in
      if (ni <? 0)%Z || (ni >=? cols)%Z || (nj <? 0)%Z || (nj >=? rows)%Z
      then []
      else [(j * cols + i)%Z; (nj * cols + ni)%Z])
    (nth (Z.to_nat (j mod 2)) Rich.neighborOffsets [])
  = (if (i + 1 <? cols)%Z then [(j * cols + i)%Z; (j * cols + (i + 1))%Z] else []) ++
    (if (j + 1 <? rows)%Z then
       [(j * cols + i)%Z; ((j + 1) * cols + i)%Z] ++
       (let di := if negb (j mod 2 =? 0)%Z then (i + 1)%Z else (i - 1)%Z in
        if (di >=? 0)%Z && (di <? cols)%Z
        then [(j * cols + i)%Z; ((j + 1) * cols + di)%Z] else [])
     else []).
Proof.
  intros Hi Hj.
  assert (Hm : j mod 2 = 0 \/ j mod 2 = 1)
    by (pose proof (Z.mod_pos_bound j 2); lia).
  destruct (Z.lt_ge_cases (i + 1) cols), (Z.lt_ge_cases (j + 1) rows),
    (Z.lt_ge_cases (i - 1) 0);
  destruct Hm as [Hm|Hm]; rewrite Hm;
    change (Z.to_nat 0) with 0%nat; change (Z.to_nat 1) with 1%nat;
    cbn [nth Rich.neighborOffsets flat_map Z.eqb negb];
    rewrite ?Z.add_0_r; decide_tests; cbn [orb andb app];
    repeat f_equal; lia.
Qed.

Lemma flat_map_ext_range {B} (f g : Z -> list B) (n : Z) :
  (forall k, 0 <= k < n -> f k = g k)%Z -> flat_map f (range n) = flat_map g (range n).
Proof.
  intros Hfg.
  assert (Hin : forall k, In k (range n) -> f k = g k)
    by (intros k Hk; apply Hfg, in_range, Hk).
  induction (range n) as [|a l IH]; simpl; [reflexivity|].
  rewrite Hin by now left. rewrite IH; [reflexivity|].
  intros k Hk. apply Hin. now right.
Qed.

(** Both builders push the same indices in the same order. *)
Lemma simple_indices (cols rows : Z) :
  indices (Simple.createHexGrid (F:=F) cols rows) = Rich.buildHexEdges cols rows.
Proof.
  cbn [Simple.createHexGrid indices]. unfold Rich.buildHexEdges. f_equal.
  apply flat_map_ext_range. intros j Hj.
  apply flat_map_ext_range. intros i Hi.
  symmetry. apply cell_edges; assumption.
Qed.

Lemma buildHexEdges_in_grid (cols rows : Z) :
  Forall (fun v => 0 <= v < cols * rows)%Z (Rich.buildHexEdges cols rows).
Proof.
  unfold Rich.buildHexEdges, Uint16Array.
  apply Forall_map, Forall_flat_map, Forall_forall. intros j Hj%in_range.
  apply Forall_flat_map, Forall_forall. intros i Hi%in_range.
  rewrite cell_edges by assumption.
  assert (Hpair : forall i' j' l, (0 <= i' < cols)%Z -> (0 <= j' < rows)%Z ->
            Forall (fun v => 0 <= to_uint16 v < cols * rows)%Z l ->
            Forall (fun v => 0 <= to_uint16 v < cols * rows)%Z
              ((j * cols + i) :: (j' * cols + i') :: l)%Z).
  { intros i' j' l Hi' Hj' Hl.
    constructor; [apply to_uint16_below, index_in_grid; assumption|].
    constructor; [apply to_uint16_below, index_in_grid; assumption|assumption]. }
  apply Forall_app. split.
  - destruct (Z.ltb_spec (i + 1) cols); [|constructor].
    apply Hpair; [lia | lia | constructor].
  - destruct (Z.ltb_spec (j + 1) rows); [|constructor].
    apply Forall_app. split.
    + apply Hpair; [lia | lia | constructor].
    + cbv zeta.
      destruct (negb (j mod 2 =? 0)%Z);
        rewrite Z.geb_leb;
        match goal with |- context [(0 <=? ?d)%Z] => destruct (Z.leb_spec 0 d) end;
        match goal with |- context [(?d <? cols)%Z] => destruct (Z.ltb_spec d cols) end;
        cbn [andb];
        first [apply Forall_nil | apply Hpair; [lia | lia | constructor]].
Qed.

(** The components of the pipeline's positions, point by point. *)
Lemma rich_components (cols rows : Z) :
  let pts := Rich.buildHexPoints cols rows (sqrt (of_Z 3) *! lit 5 10) in
  let b := Rich.computeBounds pts in
  xs_of (positions (Rich.createHexGrid cols rows))
    = map (fun p => fround (norm_x b (lit 125 100) p)) pts
  /\ ys_of (positions (Rich.createHexGrid cols rows))
    = map (fun p => fround (norm_y b p)) pts.
Proof.
  cbn [Rich.createHexGrid positions]. cbv zeta.
  rewrite normalizePositions_pairs, xs_of_pairs, ys_of_pairs.
  split; reflexivity.
Qed.

(** The four bounds evolve independently. *)
Lemma bounds_fold (pts : list (point F)) (b : extent F) :
  let b' := fold_left Rich.bounds_step pts b in
  minX b' = run_min (map x pts) (minX b)
  /\ maxX b' = run_max (map x pts) (maxX b)
  /\ minY b' = run_min (map y pts) (minY b)
  /\ maxY b' = run_max (map y pts) (maxY b).
Proof.
  revert b. induction pts as [|p pts IH]; intros b.
  - repeat split.
  - cbn [fold_left map run_min run_max]. specialize (IH (Rich.bounds_step b p)).
    cbv zeta in IH. destruct IH as (H1 & H2 & H3 & H4).
    rewrite H1, H2, H3, H4. unfold run_min, run_max, Rich.bounds_step.
    destruct b as [a0 a1 a2 a3]. cbn [minX maxX minY maxY].
    destruct (x p <! a0); cbn [minX maxX minY maxY];
      destruct (x p >! a1); cbn [minX maxX minY maxY];
      destruct (y p <! a2); cbn [minX maxX minY maxY];
      destruct (y p >! a3); cbn [minX maxX minY maxY]; repeat split.
Qed.

Lemma simple_point_count (cols rows : Z) :
  0 <= cols -> 0 <= rows ->
  Z.of_nat (length (positions (Simple.createHexGrid (F:=F) cols rows)))
  = 2 * (cols * rows).
Proof.
  intros Hc Hr.
  rewrite simple_positions. cbv zeta.
  rewrite length_normalizePositions, length_buildHexPoints. lia.
Qed.

Lemma rich_point_count (cols rows : Z) :
  0 <= cols -> 0 <= rows ->
  Z.of_nat (length (positions (Rich.createHexGrid (F:=F) cols rows)))
  = 2 * (cols * rows).
Proof.
  intros Hc Hr.
  cbn [Rich.createHexGrid positions].
  rewrite length_normalizePositions, length_buildHexPoints. lia.
Qed.

(** The builders agree as soon as the cell heights do: the monolithic one
    multiplies by the cell width [1.0] once more. *)
Lemma createHexGrid_agree_if (cols rows : Z) :
  sqrt (of_Z 3) *! lit 5 10 *! of_Z 1 = sqrt (of_Z 3) *! lit 5 10 ->
  Simple.createHexGrid (F:=F) cols rows = Rich.createHexGrid cols rows.
Proof.
  intros Hcell.
  change (Simple.createHexGrid cols rows)
    with (mkGrid (positions (Simple.createHexGrid (F:=F) cols rows))
                 (indices (Simple.createHexGrid (F:=F) cols rows))).
  rewrite simple_positions, simple_indices. cbv zeta. rewrite Hcell.
  reflexivity.
Qed.

(** C1: for every [cols >= 1] and [rows >= 1] the position buffer holds
    exactly [cols * rows] points, two numbers each, and every index stored in
    the index buffer lies in [[0, cols * rows)]; this holds for the monolithic
    builder and for the pipeline, whatever the number model.  The stored
    indices are the 16-bit values of the [Uint16Array]. *)
Theorem createHexGrid_points_and_index_range (cols rows : Z) :
  1 <= cols -> 1 <= rows ->
  (Z.of_nat (length (positions (Simple.createHexGrid (F:=F) cols rows)))
     = 2 * (cols * rows)
   /\ Forall (fun v => 0 <= v < cols * rows)
        (indices (Simple.createHexGrid (F:=F) cols rows)))
  /\
  (Z.of_nat (length (positions (Rich.createHexGrid (F:=F) cols rows)))
     = 2 * (cols * rows)
   /\ Forall (fun v => 0 <= v < cols * rows)
        (indices (Rich.createHexGrid (F:=F) cols rows))).
Proof.
  intros Hc Hr. repeat split.
  - apply simple_point_count; lia.
  - rewrite simple_indices. apply buildHexEdges_in_grid.
  - apply rich_point_count; lia.
  - apply buildHexEdges_in_grid.
Qed.

End MeshFacts.

Lemma createHexGrid_points_and_index_range_witness :
  1 <= 4 /\ 1 <= 3 /\
  ((Z.of_nat (length (positions (Simple.createHexGrid (F:=float) 4 3)))
      = 2 * (4 * 3)
    /\ Forall (fun v => 0 <= v < 4 * 3)
         (indices (Simple.createHexGrid (F:=float) 4 3)))
   /\
   (Z.of_nat (length (positions (Rich.createHexGrid (F:=float) 4 3)))
      = 2 * (4 * 3)
    /\ Forall (fun v => 0 <= v < 4 * 3)
         (indices (Rich.createHexGrid (F:=float) 4 3)))).
Proof.
  split; [lia|]. split; [lia|].
  exact (createHexGrid_points_and_index_range (F:=float) 4 3
           ltac:(lia) ltac:(lia)).
Defined.

(** ** The pointer and shock handlers, for every number model *)

Section LoopFacts.
Context {F : Type} `{Number F}.
Local Open Scope js_scope.
Import Loop.

Lemma shock_closeContextMenu (w : page) (st : state (F:=F)) :
  shock (closeContextMenu w st) = shock st.
Proof. unfold closeContextMenu. now destruct (negb (contextMenu w) || negb (menuVisible st)). Qed.

Lemma shock_openContextMenu (w : page) (st : state (F:=F)) :
  shock (openContextMenu w st) = shock st.
Proof. unfold openContextMenu. now destruct (negb (contextMenu w)). Qed.

(** A press that starts a shock replaces origin and start time, whatever the
    shock state was. *)
Lemma pointerdown_starts (w : page) (e : pointerEvent) (now : F) (st : state) :
  starts_shock w e = true ->
  shock (pointerdown w e now st) = mkShock (clipSpaceFromEvent w e) now.
Proof.
  unfold starts_shock, primary, pointerdown. intros Hs.
  apply andb_prop in Hs as [Hp Hm]. apply negb_true_iff in Hm. rewrite Hm.
  destruct (pointerType e =? "mouse")%string; cbn [negb orb andb] in *.
  - apply Z.eqb_eq in Hp. rewrite Hp. reflexivity.
  - reflexivity.
Qed.

(** Any other press leaves the shock state as it was. *)
Lemma pointerdown_other (w : page) (e : pointerEvent) (now : F) (st : state) :
  starts_shock w e = false ->
  shock (pointerdown w e now st) = shock st.
Proof.
  unfold starts_shock, primary, pointerdown. intros Hs.
  destruct (pointerType e =? "mouse")%string; cbn [negb orb andb] in *.
  - destruct (button e =? 2)%Z eqn:H2; [apply shock_openContextMenu|].
    destruct (contextMenu w && target_in_menu e); [reflexivity|].
    destruct (button e =? 0)%Z; [discriminate|]. cbn [negb].
    destruct (menuVisible st); [apply shock_closeContextMenu | reflexivity].
  - destruct (contextMenu w && target_in_menu e); [reflexivity | discriminate].
Qed.

Lemma shock_render (w : page) (ms : F) (st : state) :
  shock (fst (render w ms st))
  = mkShock (origin (shock st)) (fst (shock_age ms (start (shock st)))).
Proof.
  unfold render. destruct (shock_age ms (start (shock st))). reflexivity.
Qed.

(** What an event does to the shock state depends on the shock state only. *)
Lemma shock_step (w : page) (ev : event) (st st' : state) :
  shock st = shock st' -> shock (step w st ev) = shock (step w st' ev).
Proof.
  intros Heq. destruct ev as [e|e now|e|key|ms]; cbn [step].
  - exact Heq.
  - destruct (starts_shock w e) eqn:Hs.
    + now rewrite !pointerdown_starts.
    + now rewrite !pointerdown_other.
  - unfold contextmenu. destruct (contextMenu w && target_in_menu e);
      rewrite ?shock_openContextMenu; exact Heq.
  - unfold keydown. destruct (key =? "Escape")%string;
      rewrite ?shock_closeContextMenu; exact Heq.
  - rewrite !shock_render, Heq. reflexivity.
Qed.

Lemma shock_run (w : page) (evs : list event) (st st' : state) :
  shock st = shock st' -> shock (run w st evs) = shock (run w st' evs).
Proof.
  unfold run. revert st st'. induction evs as [|ev evs IH]; intros st st' Heq.
  - exact Heq.
  - cbn [fold_left]. apply IH, shock_step, Heq.
Qed.

(** C9, as the code has it: the state holds one shock record; a primary press
    whose target is outside the menu element replaces its origin and start
    time; a press aimed at the menu leaves it alone; whatever events came
    before such a press, and whatever the state was, the shock state after it
    is the one this press alone produces (nothing is queued); and a frame
    whose computed age exceeds 4.5 seconds resets the start time to [-1]. *)
Theorem single_shock_overwritten_and_aged (w : page) (e : pointerEvent)
    (now ms : F) (pre post : list event) (st st' : state) :
  starts_shock w e = true ->
  shock (pointerdown w e now st) = mkShock (clipSpaceFromEvent w e) now
  /\ shock (run w st (pre ++ PointerDown e now :: post))
     = shock (run w st' (PointerDown e now :: post))
  /\ (forall e' now', starts_shock w e' = false ->
      shock (pointerdown w e' now' st) = shock st)
  /\ ((start (shock st) >=! of_Z 0) = true ->
      (((ms -! start (shock st)) *! lit 1 1000) >! lit 45 10) = true ->
      start (shock (fst (render w ms st))) = of_Z (-1)
      /\ uShockTime (snd (render w ms st)) = of_Z (-1)).
Proof.
  intros Hs. split; [now apply pointerdown_starts|]. split; [|split].
  - unfold run. rewrite fold_left_app. cbn [fold_left step].
    apply shock_run. now rewrite !pointerdown_starts.
  - intros e' now' Hs'. now apply pointerdown_other.
  - intros Hge Hgt. unfold render, shock_age. rewrite Hge, Hgt.
    split; reflexivity.
Qed.

End LoopFacts.

(** ** The mesh builder on binary64 numbers *)

Set Warnings "-inexact-float".

Lemma float_neq (a b : float) :
  PrimFloat.eqb a a = true -> PrimFloat.eqb a b = false -> a <> b.
Proof. intros Haa Hab ->. rewrite Haa in Hab. discriminate. Qed.

Lemma float_cell_height :
  (sqrt (of_Z 3) *! lit 5 10 *! of_Z 1 = sqrt (of_Z 3) *! lit 5 10 :> float)%js.
Proof. vm_compute. reflexivity. Qed.

(** C10: the monolithic builder of the simple variant and the pipeline of the
    richer variant (with its table of neighbor offsets) return the same
    position buffer and the same index buffer, element by element, for all
    [cols] and [rows]. *)
Theorem createHexGrid_variants_agree (cols rows : Z) :
  positions (Simple.createHexGrid (F:=float) cols rows)
    = positions (Rich.createHexGrid (F:=float) cols rows)
  /\ indices (Simple.createHexGrid (F:=float) cols rows)
    = indices (Rich.createHexGrid (F:=float) cols rows).
Proof.
  rewrite (createHexGrid_agree_if cols rows float_cell_height).
  split; reflexivity.
Qed.

Lemma ideal_createHexGrid_agree (cols rows : Z) :
  Simple.createHexGrid (F:=Ideal.xreal) cols rows = Rich.createHexGrid cols rows.
Proof.
  apply createHexGrid_agree_if.
  unfold lit. cbn [of_Z sqrt mul div Ideal.xreal_number Ideal.xsqrt].
  unfold Ideal.Rltb, Ideal.xdiv, Ideal.Reqb.
  destruct (Rlt_dec 3 0) as [Hlt|_]; [lra|].
  destruct (Req_dec_T 10 0) as [Heq|_]; [lra|].
  cbn [Ideal.xmul]. f_equal. lra.
Qed.

(** C7: with [cols = 1] and [rows = 1] both spans are replaced by 1, so both
    divisions are by 1, and the builder returns the single point
    [(-1.25, -1)] and no segment. *)
Theorem createHexGrid_single_point :
  (let pts := Rich.buildHexPoints (F:=float) 1 1 (sqrt (of_Z 3) *! lit 5 10) in
   pts = [mkPoint 0%float 0%float]
   /\ Rich.spanX (Rich.computeBounds pts) = 1%float
   /\ Rich.spanY (Rich.computeBounds pts) = 1%float)%js
  /\ Rich.createHexGrid (F:=float) 1 1 = mkGrid [(-1.25)%float; (-1)%float] []
  /\ Simple.createHexGrid (F:=float) 1 1 = mkGrid [(-1.25)%float; (-1)%float] [].
Proof. vm_compute. repeat split. Qed.

Lemma indices_4_3 :
  indices (Simple.createHexGrid (F:=float) 4 3)
  = [0; 1; 0; 4; 1; 2; 1; 5; 1; 4; 2; 3; 2; 6; 2; 5; 3; 7; 3; 6; 4; 5; 4; 8;
     4; 9; 5; 6; 5; 9; 5; 10; 6; 7; 6; 10; 6; 11; 7; 11; 8; 9; 9; 10; 10; 11].
Proof. vm_compute. reflexivity. Qed.

(** C6: the builder called with [cols = 4] and [rows = 3] returns 12 points
    and a non-empty list of segments; no undirected pair of endpoints occurs
    twice; a point of column [i] and row [j] is joined to column
    [diagonal_column i j] of the next row ([i - 1] from an even row, [i + 1]
    from an odd row) exactly when that neighbor lies in the grid; and every
    segment leaves a point for its right neighbor, its lower neighbor or that
    diagonal neighbor. *)
Theorem createHexGrid_4_3 :
  let g := Simple.createHexGrid (F:=float) 4 3 in
  let segs := segments (indices g) in
  Z.of_nat (length (positions g)) = 12 * 2
  /\ segs <> []
  /\ NoDup (map undirected segs)
  /\ (forall i j, 0 <= i < 4 -> 0 <= j < 3 ->
        In (j * 4 + i, (j + 1) * 4 + diagonal_column i j) segs
        <-> (j + 1 < 3 /\ 0 <= diagonal_column i j < 4))
  /\ (forall a b, In (a, b) segs ->
        let i := a mod 4 in
        let j := a / 4 in
        0 <= a < 12
        /\ ((i + 1 < 4 /\ b = j * 4 + (i + 1))
            \/ (j + 1 < 3 /\ b = (j + 1) * 4 + i)
            \/ (j + 1 < 3 /\ 0 <= diagonal_column i j < 4
                /\ b = (j + 1) * 4 + diagonal_column i j))).
Proof.
  cbv zeta. rewrite indices_4_3.
  split; [vm_compute; reflexivity|].
  split; [discriminate|].
  split.
  { cbv [segments map undirected fst snd]. 
    repeat (constructor;
            [ let H := fresh in
              intros H; cbn in H;
              repeat (destruct H as [H|H]; [discriminate H|]); exact H |]).
    constructor. }
  split.
  { intros i j Hi Hj.
    assert (Ei : i = 0 \/ i = 1 \/ i = 2 \/ i = 3) by lia.
    assert (Ej : j = 0 \/ j = 1 \/ j = 2) by lia.
    destruct Ei as [->|[->|[->| ->]]], Ej as [->|[->| ->]];
      vm_compute; (split;
      [ first
          [ solve [intros _; repeat split; first [reflexivity | discriminate]]
          | solve [intros H; exfalso;
                   repeat (destruct H as [H|H]; [discriminate H|]); exact H] ]
      | first
          [ solve [intros _; repeat (first [left; reflexivity | right])]
          | solve [intros (H1 & H2 & H3);
                   first [discriminate H1 | discriminate H3
                         | exfalso; apply H2; reflexivity]] ] ]). }
  intros a b Hin. cbn [segments] in Hin.
  repeat (destruct Hin as [Hin|Hin];
          [injection Hin as <- <-; vm_compute;
           split; [split; [discriminate|reflexivity]|];
           first [ left; split; reflexivity
                 | right; left; split; reflexivity
                 | right; right; repeat split; discriminate ] |]).
  destruct Hin.
Qed.

(** ** The render loop on binary64 numbers *)

(** C3, as the code has it: widths 400, 600, 900 and 1920 map to the scales
    1.8, 1.4, 1.2 and 1, and each breakpoint belongs to the bucket above it:
    width 480 maps to 1.4, width 768 to 1.2 and width 1024 to 1. *)
Theorem responsiveScale_buckets :
  Loop.responsiveScale (of_Z 400) = 1.8%float
  /\ Loop.responsiveScale (of_Z 600) = 1.4%float
  /\ Loop.responsiveScale (of_Z 900) = 1.2%float
  /\ Loop.responsiveScale (of_Z 1920) = 1%float
  /\ Loop.responsiveScale (of_Z 479) = 1.8%float
  /\ Loop.responsiveScale (of_Z 480) = 1.4%float
  /\ Loop.responsiveScale (of_Z 767) = 1.4%float
  /\ Loop.responsiveScale (of_Z 768) = 1.2%float
  /\ Loop.responsiveScale (of_Z 1023) = 1.2%float
  /\ Loop.responsiveScale (of_Z 1024) = 1%float.
Proof. vm_compute. repeat split. Qed.

(** The breakpoints do not fall into the lower bucket: width 480 does not map
    to 1.8, nor 768 to 1.4, nor 1024 to 1.2. *)
Lemma responsiveScale_breakpoints_not_lower :
  Loop.responsiveScale (of_Z 480) <> 1.8%float
  /\ Loop.responsiveScale (of_Z 768) <> 1.4%float
  /\ Loop.responsiveScale (of_Z 1024) <> 1.2%float.
Proof. repeat split; apply float_neq; vm_compute; reflexivity. Qed.

Lemma single_shock_overwritten_and_aged_witness :
  let w := page_1000_800 (F:=float) in
  let pressed := Loop.pointerdown w (left_click false) (of_Z 2000) Loop.initial in
  Loop.starts_shock w (left_click false) = true
  /\ Loop.shock (Loop.pointerdown w (left_click false) (of_Z 9000) pressed)
     = Loop.mkShock (Loop.clipSpaceFromEvent w (left_click false)) (of_Z 9000)
  /\ (Loop.start (Loop.shock pressed) >=! of_Z 0)%js = true
  /\ (((of_Z 7000 -! Loop.start (Loop.shock pressed)) *! lit 1 1000)
        >! lit 45 10)%js = true
  /\ Loop.start (Loop.shock (fst (Loop.render w (of_Z 7000) pressed)))
     = of_Z (-1).
Proof.
  intros w pressed.
  pose proof (single_shock_overwritten_and_aged w (left_click false)
                (of_Z 9000) (of_Z 7000) [] [] pressed pressed eq_refl)
    as (Hover & _ & _ & Haged).
  split; [reflexivity|]. split; [exact Hover|].
  split; [vm_compute; reflexivity|]. split; [vm_compute; reflexivity|].
  apply Haged; vm_compute; reflexivity.
Defined.

(** A primary press does not always overwrite the shock: a left click aimed
    at the menu, at time 2000, leaves the start time at [-1]. *)
Lemma primary_press_on_menu_keeps_shock :
  Loop.primary (F:=float) (left_click true) = true
  /\ Loop.shock
       (Loop.pointerdown (F:=float) page_1000_800 (left_click true)
          (of_Z 2000) Loop.initial)
     = Loop.shock Loop.initial
  /\ Loop.shock
       (Loop.pointerdown (F:=float) page_1000_800 (left_click true)
          (of_Z 2000) Loop.initial)
     <> Loop.mkShock (Loop.clipSpaceFromEvent page_1000_800 (left_click true))
          (of_Z 2000).
Proof.
  split; [reflexivity|]. split; [reflexivity|].
  intros Heq. apply (f_equal Loop.start) in Heq. revert Heq.
  apply float_neq; vm_compute; reflexivity.
Qed.

(** ** Exact arithmetic *)

Module IdealFacts.
Import Ideal.
Local Open Scope R_scope.

Lemma Rltb_true (a b : R) : a < b -> Rltb a b = true.
Proof. intros Hlt. unfold Rltb. destruct (Rlt_dec a b); [reflexivity | contradiction]. Qed.

Lemma Rltb_false (a b : R) : b <= a -> Rltb a b = false.
Proof. intros Hle. unfold Rltb. destruct (Rlt_dec a b); [lra | reflexivity]. Qed.

Lemma Rleb_true (a b : R) : a <= b -> Rleb a b = true.
Proof. intros Hle. unfold Rleb. destruct (Rle_dec a b); [reflexivity | contradiction]. Qed.

Lemma Rleb_false (a b : R) : b < a -> Rleb a b = false.
Proof. intros Hlt. unfold Rleb. destruct (Rle_dec a b); [lra | reflexivity]. Qed.

Lemma Reqb_false (a b : R) : a <> b -> Reqb a b = false.
Proof. intros Hne. unfold Reqb. destruct (Req_dec_T a b); [contradiction | reflexivity]. Qed.

Lemma xdiv_fin (a b : R) : b <> 0 -> xdiv (XFin a) (XFin b) = XFin (a / b).
Proof. intros Hb. unfold xdiv. now rewrite Reqb_false. Qed.

Lemma lit_fin (n d : Z) : (d <> 0)%Z -> lit (F:=xreal) n d = XFin (IZR n / IZR d).
Proof.
  intros Hd. unfold lit. cbn [of_Z div xreal_number].
  apply xdiv_fin. now apply not_0_IZR.
Qed.

Lemma xsub_fin (a b : R) : xsub (XFin a) (XFin b) = XFin (a - b).
Proof. reflexivity. Qed.

(** *** Pointer easing *)

Lemma ease_fin (tx ty mx my : R) :
  Loop.ease (pt tx ty) (pt mx my)
  = pt (mx + (tx - mx) * (7 / 100)) (my + (ty - my) * (7 / 100)).
Proof.
  unfold Loop.ease, pt. cbn [x y]. rewrite lit_fin by discriminate.
  reflexivity.
Qed.

Lemma ease_frames_fin (n : nat) (tx ty mx my : R) :
  Loop.ease_frames n (pt tx ty) (pt mx my)
  = pt (tx + (mx - tx) * (93 / 100) ^ n) (ty + (my - ty) * (93 / 100) ^ n).
Proof.
  revert mx my. induction n as [|n IH]; intros mx my.
  - cbn [Loop.ease_frames pow]. unfold pt. f_equal; f_equal; lra.
  - cbn [Loop.ease_frames]. rewrite ease_fin, IH. unfold pt.
    f_equal; f_equal; cbn [pow]; lra.
Qed.

(** After [n] frames the distance to the target is [0.93 ^ n] times the
    initial distance. *)
Lemma ease_frames_distance (n : nat) (tx ty mx my : R) :
  distance (Loop.ease_frames n (pt tx ty) (pt mx my)) (pt tx ty)
  = (93 / 100) ^ n * distance (pt mx my) (pt tx ty).
Proof.
  rewrite ease_frames_fin. unfold distance, pt. cbn [x y to_R].
  set (q := (93 / 100) ^ n).
  assert (Hq : 0 <= q) by (apply pow_le; lra).
  replace ((tx + (mx - tx) * q - tx) ^ 2 + (ty + (my - ty) * q - ty) ^ 2)
    with (q ^ 2 * ((mx - tx) ^ 2 + (my - ty) ^ 2)) by ring.
  rewrite sqrt_mult_alt by (apply pow2_ge_0).
  rewrite sqrt_pow2 by assumption. reflexivity.
Qed.

Lemma Rdiv_lt_cross (a b c d : R) :
  0 < b -> 0 < d -> a * d < c * b -> a / b < c / d.
Proof.
  intros Hb Hd Hlt.
  replace (a / b) with (a * d * / (b * d)) by (field; lra).
  replace (c / d) with (c * b * / (b * d)) by (field; lra).
  apply Rmult_lt_compat_r; [|assumption].
  apply Rinv_0_lt_compat, Rmult_lt_0_compat; assumption.
Qed.

Lemma pow_ratio (a b : Z) (n : nat) :
  (IZR a / IZR b) ^ n = IZR (a ^ Z.of_nat n) / IZR (b ^ Z.of_nat n).
Proof. unfold Rdiv. now rewrite Rpow_mult_distr, pow_inv, !pow_IZR. Qed.

(** Bounds on [0.93 ^ n] by integer arithmetic. *)
Lemma pow93_above (n : nat) (c d : Z) :
  (0 < d)%Z -> (c * 100 ^ Z.of_nat n < 93 ^ Z.of_nat n * d)%Z ->
  IZR c / IZR d < (93 / 100) ^ n.
Proof.
  intros Hd Hlt. rewrite pow_ratio. apply Rdiv_lt_cross.
  - now apply IZR_lt.
  - apply IZR_lt, Z.pow_pos_nonneg; lia.
  - rewrite <- !mult_IZR. now apply IZR_lt.
Qed.

Lemma pow93_below (n : nat) (c d : Z) :
  (0 < d)%Z -> (93 ^ Z.of_nat n * d < c * 100 ^ Z.of_nat n)%Z ->
  (93 / 100) ^ n < IZR c / IZR d.
Proof.
  intros Hd Hlt. rewrite pow_ratio. apply Rdiv_lt_cross.
  - apply IZR_lt, Z.pow_pos_nonneg; lia.
  - now apply IZR_lt.
  - rewrite <- !mult_IZR. now apply IZR_lt.
Qed.

Lemma pow93_60 : 1 / 1000 < (93 / 100) ^ 60 < 13 / 1000.
Proof.
  split.
  - apply (pow93_above 60 1 1000); [lia | vm_compute; reflexivity].
  - apply (pow93_below 60 13 1000); [lia | vm_compute; reflexivity].
Qed.

Lemma pow93_from_96 (n : nat) : (96 <= n)%nat -> (93 / 100) ^ n < 1 / 1000.
Proof.
  intros Hn. replace n with (96 + (n - 96))%nat by lia. rewrite pow_add.
  assert (H96 : (93 / 100) ^ 96 < 1 / 1000)
    by (apply (pow93_below 96 1 1000); [lia | vm_compute; reflexivity]).
  assert (Hk : 0 <= (93 / 100) ^ (n - 96) <= 1).
  { split; [apply pow_le; lra|].
    rewrite <- (pow1 (n - 96)). apply pow_incr. lra. }
  assert (H0 : 0 < (93 / 100) ^ 96) by (apply pow_lt; lra).
  nra.
Qed.

Lemma distance_pos (tx ty mx my : R) :
  (mx, my) <> (tx, ty) -> 0 < distance (pt mx my) (pt tx ty).
Proof.
  intros Hne. unfold distance, pt. cbn [x y to_R].
  apply sqrt_lt_R0.
  assert (Hcase : mx < tx \/ tx < mx \/ (mx = tx /\ (my < ty \/ ty < my))).
  { destruct (Rtotal_order mx tx) as [Hx|[->|Hx]]; auto.
    destruct (Rtotal_order my ty) as [Hy|[->|Hy]]; auto.
    now contradiction Hne. }
  pose proof (Rle_0_sqr (mx - tx)) as Hsx.
  pose proof (Rle_0_sqr (my - ty)) as Hsy.
  unfold Rsqr in Hsx, Hsy. cbn [pow]. rewrite !Rmult_1_r.
  destruct Hcase as [Hx|[Hx|[-> [Hy|Hy]]]].
  - assert (0 < (tx - mx) * (tx - mx)) by (apply Rmult_lt_0_compat; lra). nra.
  - assert (0 < (mx - tx) * (mx - tx)) by (apply Rmult_lt_0_compat; lra). nra.
  - assert (0 < (ty - my) * (ty - my)) by (apply Rmult_lt_0_compat; lra). nra.
  - assert (0 < (my - ty) * (my - ty)) by (apply Rmult_lt_0_compat; lra). nra.
Qed.

(** The easing in exact arithmetic: with the target held, each frame
    multiplies the distance between the smoothed pointer and the target by
    0.93; after 60 frames the distance is below 1.3e-2 times the initial
    distance, and it is below 1e-3 times the initial distance after 96 frames
    and ever after. *)
Lemma pointer_easing_exact (tx ty mx my : R) (n : nat) :
  (mx, my) <> (tx, ty) ->
  distance (Loop.ease_frames n (pt tx ty) (pt mx my)) (pt tx ty)
    = (93 / 100) ^ n * distance (pt mx my) (pt tx ty)
  /\ (n = 60%nat ->
      distance (Loop.ease_frames n (pt tx ty) (pt mx my)) (pt tx ty)
        < 13 / 1000 * distance (pt mx my) (pt tx ty))
  /\ ((96 <= n)%nat ->
      distance (Loop.ease_frames n (pt tx ty) (pt mx my)) (pt tx ty)
        < 1 / 1000 * distance (pt mx my) (pt tx ty)).
Proof.
  intros Hne. pose proof (distance_pos tx ty mx my Hne) as Hd.
  rewrite ease_frames_distance. split; [reflexivity|]. split.
  - intros ->. apply Rmult_lt_compat_r; [assumption | apply pow93_60].
  - intros Hn. apply Rmult_lt_compat_r; [assumption | now apply pow93_from_96].
Qed.

(** After 60 frames the pointer is not within 1e-3 of the initial distance:
    from (0, 0) toward the target (1, 0) the remaining distance is
    [0.93 ^ 60], about 1.29e-2, in exact arithmetic and on binary64 numbers
    alike. *)
Lemma pointer_easing_60_frames_too_few :
  ~ (distance (Loop.ease_frames 60 (pt 1 0) (pt 0 0)) (pt 1 0)
     < 1 / 1000 * distance (pt 0 0) (pt 1 0))
  /\ (let m := Loop.ease_frames 60 (mkPoint 1%float 0%float)
                 (mkPoint 0%float 0%float) in
      y m = 0%float
      /\ PrimFloat.ltb (PrimFloat.sub 1 (x m)) (PrimFloat.mul 0.001 1) = false
      /\ PrimFloat.ltb 0.0128 (PrimFloat.sub 1 (x m)) = true).
Proof.
  split.
  - rewrite ease_frames_distance.
    assert (Hne : (0, 0) <> (1, 0)) by (intros [=]; lra).
    pose proof (distance_pos 1 0 0 0 Hne) as Hd.
    pose proof pow93_60 as [Hlo _].
    intros Hlt. apply Rmult_lt_reg_r in Hlt; [lra | assumption].
  - vm_compute. repeat split.
Qed.

(** *** Bounds and normalization *)

Lemma run_min_fin (vs : list xreal) (m0 : R) :
  all_finite vs ->
  exists m, run_min vs (XFin m0) = XFin m
    /\ m <= m0
    /\ (m = m0 \/ In (XFin m) vs)
    /\ Forall (fun v => exists r, v = XFin r /\ m <= r) vs.
Proof.
  revert m0. induction vs as [|v vs IH]; intros m0 Hfin.
  - exists m0. repeat split; [lra | now left | constructor].
  - inversion Hfin as [|? ? [r ->] Hfin']; subst.
    unfold run_min. cbn [fold_left ltb xreal_number xltb]. unfold Rltb.
    destruct (Rlt_dec r m0) as [Hlt|Hge].
    + destruct (IH r Hfin') as (m & Hm & Hle & Hin & Hall).
      exists m. split; [exact Hm|]. split; [lra|]. split.
      * right. destruct Hin as [->|Hin]; [now left | now right].
      * constructor; [exists r; split; [reflexivity | lra] | exact Hall].
    + destruct (IH m0 Hfin') as (m & Hm & Hle & Hin & Hall).
      exists m. split; [exact Hm|]. split; [lra|]. split.
      * destruct Hin as [->|Hin]; [now left | right; now right].
      * constructor; [exists r; split; [reflexivity | lra] | exact Hall].
Qed.

Lemma run_max_fin (vs : list xreal) (m0 : R) :
  all_finite vs ->
  exists m, run_max vs (XFin m0) = XFin m
    /\ m0 <= m
    /\ (m = m0 \/ In (XFin m) vs)
    /\ Forall (fun v => exists r, v = XFin r /\ r <= m) vs.
Proof.
  revert m0. induction vs as [|v vs IH]; intros m0 Hfin.
  - exists m0. repeat split; [lra | now left | constructor].
  - inversion Hfin as [|? ? [r ->] Hfin']; subst.
    unfold run_max. cbn [fold_left ltb xreal_number xltb]. unfold Rltb.
    destruct (Rlt_dec m0 r) as [Hlt|Hge].
    + destruct (IH r Hfin') as (m & Hm & Hle & Hin & Hall).
      exists m. split; [exact Hm|]. split; [lra|]. split.
      * right. destruct Hin as [->|Hin]; [now left | now right].
      * constructor; [exists r; split; [reflexivity | lra] | exact Hall].
    + destruct (IH m0 Hfin') as (m & Hm & Hle & Hin & Hall).
      exists m. split; [exact Hm|]. split; [lra|]. split.
      * destruct Hin as [->|Hin]; [now left | right; now right].
      * constructor; [exists r; split; [reflexivity | lra] | exact Hall].
Qed.

(** From [Infinity], the running minimum of a non-empty list of finite
    numbers is its least element. *)
Lemma run_min_least (vs : list xreal) :
  vs <> [] -> all_finite vs ->
  exists m, run_min vs infinity = XFin m /\ least m vs.
Proof.
  destruct vs as [|v vs]; [congruence|]. intros _ Hfin.
  inversion Hfin as [|? ? [r ->] Hfin']; subst.
  destruct (run_min_fin vs r Hfin') as (m & Hm & Hle & Hin & Hall).
  exists m. split; [exact Hm|]. split.
  - destruct Hin as [->|Hin]; [now left | now right].
  - constructor; [exists r; split; [reflexivity | lra] | exact Hall].
Qed.

Lemma run_max_greatest (vs : list xreal) :
  vs <> [] -> all_finite vs ->
  exists m, run_max vs (neg infinity) = XFin m /\ greatest m vs.
Proof.
  destruct vs as [|v vs]; [congruence|]. intros _ Hfin.
  inversion Hfin as [|? ? [r ->] Hfin']; subst.
  destruct (run_max_fin vs r Hfin') as (m & Hm & Hle & Hin & Hall).
  exists m. split; [exact Hm|]. split.
  - destruct Hin as [->|Hin]; [now left | now right].
  - constructor; [exists r; split; [reflexivity | lra] | exact Hall].
Qed.

(** A non-decreasing map carries the least element to the least element and
    the greatest to the greatest. *)
Lemma least_map (g : xreal -> xreal) (h : R -> R) (m : R) (vs : list xreal) :
  (forall r, g (XFin r) = XFin (h r)) ->
  (forall a b, a <= b -> h a <= h b) ->
  least m vs -> least (h m) (map g vs).
Proof.
  intros Hg Hmono [Hin Hall]. split.
  - rewrite <- Hg. now apply in_map.
  - apply Forall_map. eapply Forall_impl; [|exact Hall].
    intros v (r & -> & Hle). exists (h r). split; [apply Hg | now apply Hmono].
Qed.

Lemma greatest_map (g : xreal -> xreal) (h : R -> R) (m : R) (vs : list xreal) :
  (forall r, g (XFin r) = XFin (h r)) ->
  (forall a b, a <= b -> h a <= h b) ->
  greatest m vs -> greatest (h m) (map g vs).
Proof.
  intros Hg Hmono [Hin Hall]. split.
  - rewrite <- Hg. now apply in_map.
  - apply Forall_map. eapply Forall_impl; [|exact Hall].
    intros v (r & -> & Hle). exists (h r). split; [apply Hg | now apply Hmono].
Qed.

(** The lattice points, in exact arithmetic. *)
Lemma in_buildHexPoints (cols rows : Z) (hr : R) (p : point xreal) :
  In p (Rich.buildHexPoints cols rows (XFin hr)) <->
  exists i j, (0 <= i < cols)%Z /\ (0 <= j < rows)%Z
    /\ p = pt (IZR i + IZR (j mod 2) * (5 / 10)) (IZR j * hr).
Proof.
  unfold Rich.buildHexPoints. rewrite lit_fin by discriminate.
  rewrite in_flat_map. split.
  - intros (j & Hj%in_range & Hp). apply in_map_iff in Hp as (i & <- & Hi%in_range).
    exists i, j. split; [assumption|]. split; [assumption | reflexivity].
  - intros (i & j & Hi & Hj & ->). exists j. split; [now apply in_range|].
    apply in_map_iff. exists i. split; [reflexivity | now apply in_range].
Qed.

Lemma least_le (m a : R) (vs : list xreal) :
  least m vs -> In (XFin a) vs -> m <= a.
Proof.
  intros [_ Hall] Hin. rewrite Forall_forall in Hall.
  destruct (Hall _ Hin) as (r & [= ->] & Hle). exact Hle.
Qed.

Lemma greatest_ge (m a : R) (vs : list xreal) :
  greatest m vs -> In (XFin a) vs -> a <= m.
Proof.
  intros [_ Hall] Hin. rewrite Forall_forall in Hall.
  destruct (Hall _ Hin) as (r & [= ->] & Hle). exact Hle.
Qed.

(** The running bounds of one coordinate and the guarded span, when the
    coordinate takes two different finite values. *)
Lemma span_fin (vs : list xreal) (a b : R) :
  all_finite vs -> In (XFin a) vs -> In (XFin b) vs -> a < b ->
  exists m M,
    run_min vs infinity = XFin m /\ run_max vs (neg infinity) = XFin M
    /\ least m vs /\ greatest M vs /\ m < M
    /\ ((XFin M -! XFin m) ||! of_Z 1)%js = XFin (M - m).
Proof.
  intros Hfin Ha Hb Hab.
  assert (Hne : vs <> []) by (intros ->; destruct Ha).
  destruct (run_min_least vs Hne Hfin) as (m & Hm & Hleast).
  destruct (run_max_greatest vs Hne Hfin) as (M & HM & Hgreatest).
  pose proof (least_le _ _ _ Hleast Ha).
  pose proof (greatest_ge _ _ _ Hgreatest Hb).
  exists m, M. repeat (split; [assumption || lra|]).
  cbn [sub truthy xreal_number]. rewrite xsub_fin. unfold xtruthy.
  rewrite Reqb_false by lra. reflexivity.
Qed.

(** Normalization of one coordinate, with a positive widening factor [w]:
    the least value goes to [-w], the greatest to [w]. *)
Lemma normalize_extremes (vs : list xreal) (m M w : R) (g : xreal -> xreal) :
  least m vs -> greatest M vs -> m < M -> 0 < w ->
  (forall r, g (XFin r) = XFin (((r - m) / (M - m) * 2 - 1) * w)) ->
  least (- w) (map g vs) /\ greatest w (map g vs).
Proof.
  intros Hleast Hgreatest HmM Hw Hg.
  set (h := fun r => ((r - m) / (M - m) * 2 - 1) * w).
  assert (Hmono : forall a b, a <= b -> h a <= h b).
  { intros a b Hab. unfold h, Rdiv.
    assert (Hk : 0 < / (M - m)) by (apply Rinv_0_lt_compat; lra).
    assert ((a - m) * / (M - m) <= (b - m) * / (M - m))
      by (apply Rmult_le_compat_r; lra).
    nra. }
  split.
  - replace (- w) with (h m) by (unfold h; field; lra).
    now apply least_map.
  - replace w with (h M) at 1 by (unfold h; field; lra).
    now apply greatest_map.
Qed.

(** The normalized lattice for any positive cell height. *)
Lemma normalized_lattice (cols rows : Z) (hr : R) :
  (2 <= cols)%Z -> (2 <= rows)%Z -> 0 < hr ->
  let pts := Rich.buildHexPoints cols rows (XFin hr) in
  let p := Rich.normalizePositions pts (Rich.computeBounds pts) (lit 125 100) in
  (least (-1) (ys_of p) /\ greatest 1 (ys_of p))
  /\ (least (- (125 / 100)) (xs_of p) /\ greatest (125 / 100) (xs_of p)).
Proof.
  intros Hc Hr Hh pts p.
  assert (Hfx : all_finite (map x pts)).
  { apply Forall_map, Forall_forall. intros q Hq.
    apply in_buildHexPoints in Hq as (i & j & _ & _ & ->). now eexists. }
  assert (Hfy : all_finite (map y pts)).
  { apply Forall_map, Forall_forall. intros q Hq.
    apply in_buildHexPoints in Hq as (i & j & _ & _ & ->). now eexists. }
  assert (Hin : forall i j, (0 <= i < cols)%Z -> (0 <= j < rows)%Z ->
            In (pt (IZR i + IZR (j mod 2) * (5 / 10)) (IZR j * hr)) pts).
  { intros i j Hi Hj. apply in_buildHexPoints. now exists i, j. }
  pose proof (in_map x _ _ (Hin 0%Z 0%Z ltac:(lia) ltac:(lia))) as Hx0.
  pose proof (in_map x _ _ (Hin 1%Z 0%Z ltac:(lia) ltac:(lia))) as Hx1.
  pose proof (in_map y _ _ (Hin 0%Z 0%Z ltac:(lia) ltac:(lia))) as Hy0.
  pose proof (in_map y _ _ (Hin 0%Z 1%Z ltac:(lia) ltac:(lia))) as Hy1.
  cbn [x y pt] in Hx0, Hx1, Hy0, Hy1.
  change (0 mod 2)%Z with 0%Z in Hx0, Hx1.
  destruct (span_fin _ _ _ Hfx Hx0 Hx1 ltac:(lra))
    as (mX & MX & HmX & HMX & HlX & HgX & HltX & HsX).
  destruct (span_fin _ _ _ Hfy Hy0 Hy1 ltac:(lra))
    as (mY & MY & HmY & HMY & HlY & HgY & HltY & HsY).
  assert (Hb : Rich.computeBounds pts
               = Rich.mkBounds (XFin mX) (XFin mY) (XFin (MX - mX)) (XFin (MY - mY))).
  { unfold Rich.computeBounds.
    destruct (bounds_fold pts
                (mkExtent infinity (neg infinity) infinity (neg infinity)))
      as (H1 & H2 & H3 & H4).
    cbn [minX maxX minY maxY] in H1, H2, H3, H4.
    rewrite H1, H2, H3, H4, HmX, HMX, HmY, HMY, HsX, HsY. reflexivity. }
  unfold p. rewrite Hb, normalizePositions_pairs, xs_of_pairs, ys_of_pairs.
  set (b := Rich.mkBounds (XFin mX) (XFin mY) (XFin (MX - mX)) (XFin (MY - mY))).
  pose (gy := fun v : xreal =>
    ((v -! XFin mY) /! XFin (MY - mY) *! of_Z 2 -! of_Z 1)%js).
  pose (gx := fun v : xreal =>
    (((v -! XFin mX) /! XFin (MX - mX) *! of_Z 2 -! of_Z 1) *! lit 125 100)%js).
  change (map (fun q => fround (norm_y b q)) pts)
    with (map (fun q => gy (y q)) pts).
  change (map (fun q => fround (norm_x b (lit 125 100) q)) pts)
    with (map (fun q => gx (x q)) pts).
  rewrite <- (map_map y gy), <- (map_map x gx).
  split.
  - assert (Hgy : forall r, gy (XFin r)
                    = XFin (((r - mY) / (MY - mY) * 2 - 1) * 1)).
    { intros r. unfold gy. rewrite xsub_fin, xdiv_fin by lra.
      cbn [of_Z mul sub xreal_number xmul xsub xadd xneg]. f_equal; lra. }
    destruct (normalize_extremes (map y pts) mY MY 1 gy HlY HgY HltY
                ltac:(lra) Hgy) as [Hlo Hhi].
    assert (E : - (1) = -1) by lra. rewrite <- E. now split.
  - assert (Hgx : forall r, gx (XFin r)
                    = XFin (((r - mX) / (MX - mX) * 2 - 1) * (125 / 100))).
    { intros r. unfold gx. rewrite lit_fin by discriminate.
      rewrite xsub_fin, xdiv_fin by lra.
      cbn [of_Z mul sub xreal_number xmul xsub xadd xneg]. f_equal; lra. }
    exact (normalize_extremes (map x pts) mX MX (125 / 100) gx HlX HgX HltX
             ltac:(lra) Hgx).
Qed.

Lemma ideal_cell_height :
  (sqrt (of_Z 3) *! lit 5 10)%js = XFin (R_sqrt.sqrt 3 * (5 / 10))
  /\ (sqrt (of_Z 3) *! lit 5 10 *! of_Z 1)%js
     = XFin (R_sqrt.sqrt 3 * (5 / 10) * 1).
Proof.
  rewrite lit_fin by discriminate.
  cbn [of_Z sqrt mul xreal_number xsqrt]. rewrite Rltb_false by lra.
  split; reflexivity.
Qed.

(** C2 (in exact arithmetic): for every [cols >= 2] and [rows >= 2] the
    y components of the normalized positions have least value -1 and greatest
    value 1, and the x components have least value -1.25 and greatest value
    1.25, so both horizontal bounds are tight; this holds for the monolithic
    builder and for the pipeline. *)
Theorem normalized_positions_extremes (cols rows : Z) :
  (2 <= cols)%Z -> (2 <= rows)%Z ->
  let p := positions (Simple.createHexGrid (F:=xreal) cols rows) in
  let p' := positions (Rich.createHexGrid (F:=xreal) cols rows) in
  ((least (-1) (ys_of p) /\ greatest 1 (ys_of p))
   /\ (least (- (125 / 100)) (xs_of p) /\ greatest (125 / 100) (xs_of p)))
  /\
  ((least (-1) (ys_of p') /\ greatest 1 (ys_of p'))
   /\ (least (- (125 / 100)) (xs_of p') /\ greatest (125 / 100) (xs_of p'))).
Proof.
  intros Hc Hr p p'.
  pose proof (sqrt_lt_R0 3 ltac:(lra)) as H3.
  destruct ideal_cell_height as [Hrich Hsimple].
  split.
  - unfold p. rewrite simple_positions. cbv zeta. rewrite Hsimple.
    apply normalized_lattice; [assumption | assumption | lra].
  - unfold p'. cbn [Rich.createHexGrid positions]. rewrite Hrich.
    apply normalized_lattice; [assumption | assumption | lra].
Qed.

Lemma normalized_positions_extremes_witness :
  (2 <= 2)%Z /\ (2 <= 2)%Z
  /\ least (-1) (ys_of (positions (Simple.createHexGrid (F:=xreal) 2 2))).
Proof.
  split; [lia|]. split; [lia|].
  apply (normalized_positions_extremes 2 2); lia.
Defined.

(** *** Shock aging *)

Lemma shock_age_expired (t0 dt : R) :
  0 <= t0 -> 4500 < dt ->
  Loop.shock_age (XFin (t0 + dt)) (XFin t0) = (XFin (-1), XFin (-1)).
Proof.
  intros Ht Hdt. unfold Loop.shock_age.
  rewrite !lit_fin by discriminate.
  cbn [of_Z leb ltb sub mul xreal_number xleb xltb xsub xadd xneg xmul].
  rewrite Rleb_true by assumption.
  rewrite Rltb_true by lra. reflexivity.
Qed.

Lemma shock_age_live (t0 dt : R) :
  0 <= t0 -> dt <= 4500 ->
  Loop.shock_age (XFin (t0 + dt)) (XFin t0) = (XFin t0, XFin (dt / 1000)).
Proof.
  intros Ht Hdt. unfold Loop.shock_age.
  rewrite !lit_fin by discriminate.
  cbn [of_Z leb ltb sub mul xreal_number xleb xltb xsub xadd xneg xmul].
  rewrite Rleb_true by assumption.
  rewrite Rltb_false by lra. do 2 f_equal. lra.
Qed.

(** The strength (window 3.2 s) or heat (window 2.2 s) of a live shock. *)
Lemma decay_live (age : R) (n : Z) :
  0 <= age -> (0 < n)%Z -> age < IZR n / 10 ->
  (if (XFin age >=! of_Z 0)%js
   then max (of_Z 0) (of_Z 1 -! XFin age /! lit n 10)%js else of_Z 0)
  = XFin (1 - age / (IZR n / 10)).
Proof.
  intros Hage Hn Hlt. rewrite lit_fin by discriminate.
  assert (Hpos : 0 < IZR n / 10)
    by (apply Rdiv_lt_0_compat; [now apply IZR_lt | lra]).
  cbn [of_Z leb div sub max xreal_number xleb].
  rewrite Rleb_true by assumption.
  rewrite xdiv_fin by lra. rewrite xsub_fin.
  unfold xmax, xltb. rewrite Rltb_true; [reflexivity|].
  assert (age / (IZR n / 10) < 1).
  { apply Rmult_lt_reg_r with (IZR n / 10); [assumption|].
    unfold Rdiv at 1. rewrite Rmult_assoc, Rinv_l, Rmult_1_r, Rmult_1_l by lra.
    assumption. }
  lra.
Qed.

(** C5: a press that starts a shock at time [t0] (in milliseconds, as
    [performance.now()] gives it, so [0 <= t0]) is cleared by the frame at
    [t0 + 5000]: the start time is reset to [-1] and strength and heat are 0;
    the frame at [t0 + 1000] keeps the shock and gives a strength and a heat
    that are both greater than 0 and at most 1. *)
Theorem shock_aging (w : Loop.page) (e : Loop.pointerEvent)
    (st0 : Loop.state) (t0 : R) :
  Loop.starts_shock w e = true -> 0 <= t0 ->
  let st := Loop.pointerdown w e (XFin t0) st0 in
  let late := Loop.render w (XFin (t0 + 5000)) st in
  let early := Loop.render w (XFin (t0 + 1000)) st in
  Loop.start (Loop.shock st) = XFin t0
  /\ (Loop.start (Loop.shock (fst late)) = XFin (-1)
      /\ Loop.uShockPower (snd late) = XFin 0
      /\ Loop.uShockHeat (snd late) = XFin 0)
  /\ (Loop.start (Loop.shock (fst early)) = XFin t0
      /\ exists s h,
           Loop.uShockPower (snd early) = XFin s
           /\ Loop.uShockHeat (snd early) = XFin h
           /\ 0 < s <= 1 /\ 0 < h <= 1).
Proof.
  intros Hs Ht st late early.
  assert (Hst : Loop.shock st
                = Loop.mkShock (Loop.clipSpaceFromEvent w e) (XFin t0))
    by (apply pointerdown_starts, Hs).
  split; [now rewrite Hst|]. split.
  - unfold late, Loop.render. rewrite Hst. cbn [Loop.start].
    rewrite shock_age_expired by lra.
    cbn [fst snd Loop.start Loop.shock Loop.uShockPower Loop.uShockHeat].
    cbn [of_Z leb xreal_number xleb]. rewrite Rleb_false by lra.
    repeat split.
  - unfold early, Loop.render. rewrite Hst. cbn [Loop.start].
    rewrite shock_age_live by lra.
    cbn [fst snd Loop.start Loop.shock Loop.uShockPower Loop.uShockHeat].
    split; [reflexivity|].
    rewrite (decay_live (1000 / 1000) 32) by (try lia; lra).
    rewrite (decay_live (1000 / 1000) 22) by (try lia; lra).
    eexists _, _. split; [reflexivity|]. split; [reflexivity|].
    lra.
Qed.

Lemma shock_aging_witness :
  Loop.starts_shock (F:=xreal) page_1000_800 (left_click false) = true
  /\ 0 <= 2000
  /\ Loop.start
       (Loop.shock
          (fst (Loop.render page_1000_800 (XFin (2000 + 5000))
                  (Loop.pointerdown page_1000_800 (left_click false)
                     (XFin 2000) Loop.initial))))
     = XFin (-1).
Proof.
  split; [reflexivity|]. split; [lra|].
  exact (proj1 (proj1 (proj2 (shock_aging page_1000_800 (left_click false)
                                Loop.initial 2000 eq_refl ltac:(lra))))).
Defined.

End IdealFacts.

(** The same two frames on binary64 numbers, for a press at 2000 ms. *)
Lemma float_shock_sample :
  let st := Loop.pointerdown (F:=float) page_1000_800 (left_click false)
              (of_Z 2000) Loop.initial in
  let late := Loop.render page_1000_800 (of_Z 7000) st in
  let early := Loop.render page_1000_800 (of_Z 3000) st in
  Loop.shock st = Loop.mkShock (mkPoint 0%float (-0)%float) 2000%float
  /\ Loop.start (Loop.shock (fst late)) = (-1)%float
  /\ Loop.uShockPower (snd late) = 0%float
  /\ Loop.uShockHeat (snd late) = 0%float
  /\ Loop.uShockPower (snd early) = 0.6875%float
  /\ Loop.uShockHeat (snd early) = 0.54545454545454541%float.
Proof. vm_compute. repeat split. Qed.

(** The grids the page builds (the three mesh levels), on binary64 numbers
    with the 32-bit store: the running minimum and maximum of the stored
    components are exactly -1.25 and 1.25 in x and -1 and 1 in y. *)
Lemma spans_box_float (cols rows : Z) :
  (let pts := Rich.buildHexPoints (F:=float) cols rows (sqrt (of_Z 3) *! lit 5 10) in
   let b := Rich.computeBounds pts in
   let xs := map (fun p => fround (norm_x b (lit 125 100) p)) pts in
   let ys := map (fun p => fround (norm_y b p)) pts in
   (run_min xs infinity = (-1.25)%float
    /\ run_max xs (neg infinity) = 1.25%float)
   /\ (run_min ys infinity = (-1)%float
       /\ run_max ys (neg infinity) = 1%float))%js ->
  spans_box 1.25%float (positions (Rich.createHexGrid (F:=float) cols rows)).
Proof.
  cbv zeta. intros [[Hx0 Hx1] [Hy0 Hy1]].
  destruct (rich_components (F:=float) cols rows) as [Ex Ey]. cbv zeta in Ex, Ey.
  unfold spans_box. rewrite Ex, Ey.
  repeat split; assumption.
Qed.

Lemma normalized_extremes_mesh_levels :
  Forall (fun lv =>
    spans_box 1.25%float
      (positions (Rich.createHexGrid (F:=float) (Rich.cols lv) (Rich.rows lv))))
    Rich.meshLevels.
Proof.
  unfold Rich.meshLevels.
  repeat (apply Forall_cons;
          [ apply spans_box_float; vm_compute; repeat split |]).
  apply Forall_nil.
Qed.

(** * Further properties *)

(** ** The segments of any grid *)

Lemma segments_unpair (l : list (Z * Z)) : segments (unpair l) = l.
Proof.
  induction l as [|[a b] l IH]; [reflexivity|].
  cbn [unpair flat_map app fst snd segments]. fold (unpair l). now rewrite IH.
Qed.

Lemma unpair_app (l l' : list (Z * Z)) : unpair (l ++ l') = unpair l ++ unpair l'.
Proof. unfold unpair. apply flat_map_app. Qed.

Lemma unpair_flat_map {A} (g : A -> list (Z * Z)) (l : list A) :
  flat_map (fun a => unpair (g a)) l = unpair (flat_map g l).
Proof.
  induction l as [|a l IH]; [reflexivity|].
  cbn [flat_map]. now rewrite IH, unpair_app.
Qed.

Lemma even_mod2 (j : Z) : negb (j mod 2 =? 0) = negb (Z.even j).
Proof. now rewrite Zeven_mod. Qed.

(** The chain of tests pushes, for one cell, the indices of its segments. *)
Lemma cell_chain_unpair (cols rows i j : Z) :
  (if i + 1 <? cols then [j * cols + i; j * cols + (i + 1)] else []) ++
  (if j + 1 <? rows then
     [j * cols + i; (j + 1) * cols + i] ++
     (let di := if negb (j mod 2 =? 0) then i + 1 else i - 1 in
      if (di >=? 0) && (di <? cols)
      then [j * cols + i; (j + 1) * cols + di] else [])
   else [])
  = unpair (cell_segments cols rows i j).
Proof.
  unfold cell_segments, diagonal_column. cbv zeta.
  rewrite even_mod2, unpair_app.
  destruct (i + 1 <? cols); destruct (j + 1 <? rows); destruct (Z.even j);
    cbn [negb]; rewrite ?Z.geb_leb;
    try destruct (0 <=? i - 1); try destruct (0 <=? i + 1);
    try destruct (i - 1 <? cols); try destruct (i + 1 <? cols);
    reflexivity.
Qed.

Lemma grid_segment_in_grid (cols rows a b : Z) :
  In (a, b) (grid_segments cols rows) ->
  0 <= a < cols * rows /\ 0 <= b < cols * rows /\ a < b.
Proof.
  unfold grid_segments. rewrite in_flat_map.
  intros (j & Hj%in_range & Hin). apply in_flat_map in Hin as (i & Hi%in_range & Hin).
  unfold cell_segments, diagonal_column in Hin. cbv zeta in Hin.
  apply in_app_or in Hin as [Hin|Hin].
  - destruct (Z.ltb_spec (i + 1) cols); [|destruct Hin].
    destruct Hin as [[= <- <-]|[]]. nia.
  - destruct (Z.ltb_spec (j + 1) rows); [|destruct Hin].
    destruct Hin as [[= <- <-]|Hin]; [nia|].
    destruct (Z.even j);
      match type of Hin with context [(0 <=? ?d)] => destruct (Z.leb_spec 0 d) end;
      match type of Hin with context [(?d <? cols)] => destruct (Z.ltb_spec d cols) end;
      cbn [andb] in Hin; try destruct Hin as [[= <- <-]|[]]; try destruct Hin; nia.
Qed.

(** The index buffer is the flat list of the segments, converted to 16 bits. *)
Lemma buildHexEdges_unpair (cols rows : Z) :
  Rich.buildHexEdges cols rows = Uint16Array (unpair (grid_segments cols rows)).
Proof.
  unfold Rich.buildHexEdges. cbv zeta. f_equal.
  unfold grid_segments. rewrite <- unpair_flat_map.
  apply flat_map_ext_range. intros j Hj. rewrite <- unpair_flat_map.
  apply flat_map_ext_range. intros i Hi.
  rewrite cell_edges by assumption. apply cell_chain_unpair.
Qed.

(** The index buffer, read as segments, for a grid whose points all have
    16-bit indices. *)
Lemma indices_segments (cols rows : Z) :
  cols * rows <= 65536 ->
  Rich.buildHexEdges cols rows = unpair (grid_segments cols rows).
Proof.
  intros Hsmall. rewrite buildHexEdges_unpair. unfold Uint16Array.
  rewrite <- (map_id (unpair (grid_segments cols rows))) at 2.
  apply map_ext_in. intros v Hv. unfold unpair in Hv.
  apply in_flat_map in Hv as ([a b] & Hab & Hv).
  apply grid_segment_in_grid in Hab as (Ha & Hb & _).
  unfold to_uint16. apply Z.mod_small.
  cbn [fst snd] in Hv. destruct Hv as [<-|[<-|[]]]; lia.
Qed.

Lemma NoDup_range (n : Z) : NoDup (range n).
Proof.
  unfold range. generalize (seq_NoDup (Z.to_nat n) 0).
  induction (seq 0 (Z.to_nat n)) as [|k l IH]; intros Hl; [constructor|].
  apply NoDup_cons_iff in Hl as [Hk Hl]. cbn [map]. constructor; [|now apply IH].
  intros Hin. apply in_map_iff in Hin as (k' & Heq & Hk').
  assert (k' = k) by lia. subst. contradiction.
Qed.

Lemma NoDup_flat_map {A B} (f : A -> list B) (l : list A) :
  NoDup l ->
  (forall a, In a l -> NoDup (f a)) ->
  (forall a a' b, In a l -> In a' l -> In b (f a) -> In b (f a') -> a = a') ->
  NoDup (flat_map f l).
Proof.
  induction l as [|a l IH]; intros Hl Hf Hdis; [constructor|].
  apply NoDup_cons_iff in Hl as [Hnotin Hl]. cbn [flat_map].
  apply NoDup_app.
  - apply Hf. now left.
  - apply IH; [assumption | intros; apply Hf; now right |].
    intros a1 a2 b H1 H2. apply Hdis; now right.
  - intros b Hb Hb'. apply in_flat_map in Hb' as (a' & Ha' & Hb').
    assert (a = a') by (apply (Hdis a a' b); [now left | now right | assumption..]).
    subst. contradiction.
Qed.

Lemma cell_segment_source (cols rows i j a b : Z) :
  In (a, b) (cell_segments cols rows i j) -> a = j * cols + i.
Proof.
  unfold cell_segments. cbv zeta. intros Hin.
  apply in_app_or in Hin as [Hin|Hin].
  - destruct (i + 1 <? cols); [|destruct Hin]. now destruct Hin as [[= <- <-]|[]].
  - destruct (j + 1 <? rows); [|destruct Hin].
    destruct Hin as [[= <- <-]|Hin]; [reflexivity|].
    destruct ((0 <=? diagonal_column i j) && (diagonal_column i j <? cols));
      [|destruct Hin].
    now destruct Hin as [[= <- <-]|[]].
Qed.

Lemma NoDup_cell_segments (cols rows i j : Z) :
  0 <= i < cols -> NoDup (cell_segments cols rows i j).
Proof.
  intros Hi. unfold cell_segments, diagonal_column. cbv zeta.
  destruct (Z.ltb_spec (i + 1) cols); destruct (Z.ltb_spec (j + 1) rows);
    destruct (Z.even j); cbn [app];
    repeat match goal with
    | |- context [(0 <=? ?d)] => destruct (Z.leb_spec 0 d)
    | |- context [(?d <? cols)] => destruct (Z.ltb_spec d cols)
    end; cbn [andb];
    repeat (constructor;
            [ cbn [In]; intros Hin;
              repeat (destruct Hin as [[= Hin]|Hin]; [nia|]); exact Hin |]);
    constructor.
Qed.

Lemma NoDup_grid_segments (cols rows : Z) : NoDup (grid_segments cols rows).
Proof.
  unfold grid_segments. apply NoDup_flat_map; [apply NoDup_range | |].
  - intros j Hj%in_range. apply NoDup_flat_map; [apply NoDup_range | |].
    + intros i Hi%in_range. now apply NoDup_cell_segments.
    + intros i i' [a b] _ _ H1%cell_segment_source H2%cell_segment_source. lia.
  - intros j j' [a b] _ _ H1 H2.
    apply in_flat_map in H1 as (i & Hi%in_range & H1%cell_segment_source).
    apply in_flat_map in H2 as (i' & Hi'%in_range & H2%cell_segment_source).
    nia.
Qed.

Lemma in_grid_segments (cols rows a b : Z) :
  In (a, b) (grid_segments cols rows) <->
  exists i j, 0 <= i < cols /\ 0 <= j < rows /\ a = j * cols + i
    /\ ((i + 1 < cols /\ b = j * cols + (i + 1))
        \/ (j + 1 < rows /\ b = (j + 1) * cols + i)
        \/ (j + 1 < rows /\ 0 <= diagonal_column i j < cols
            /\ b = (j + 1) * cols + diagonal_column i j)).
Proof.
  unfold grid_segments. rewrite in_flat_map. split.
  - intros (j & Hj%in_range & Hin).
    apply in_flat_map in Hin as (i & Hi%in_range & Hin).
    exists i, j. split; [assumption|]. split; [assumption|].
    split; [now apply cell_segment_source in Hin|].
    unfold cell_segments in Hin. cbv zeta in Hin.
    apply in_app_or in Hin as [Hin|Hin].
    + destruct (Z.ltb_spec (i + 1) cols); [|destruct Hin].
      destruct Hin as [[= _ <-]|[]]. now left.
    + destruct (Z.ltb_spec (j + 1) rows); [|destruct Hin].
      destruct Hin as [[= _ <-]|Hin]; [right; now left|].
      destruct (Z.leb_spec 0 (diagonal_column i j));
        destruct (Z.ltb_spec (diagonal_column i j) cols);
        cbn [andb] in Hin; try destruct Hin as [[= _ <-]|[]]; try destruct Hin.
      right; right. repeat split; assumption.
  - intros (i & j & Hi & Hj & -> & Hb). exists j. split; [now apply in_range|].
    apply in_flat_map. exists i. split; [now apply in_range|].
    unfold cell_segments. cbv zeta. apply in_or_app.
    destruct Hb as [[Hlt ->]|[[Hlt ->]|(Hlt & Hd & ->)]].
    + left. rewrite (proj2 (Z.ltb_lt _ _) Hlt). now left.
    + right. rewrite (proj2 (Z.ltb_lt _ _) Hlt). now left.
    + right. rewrite (proj2 (Z.ltb_lt _ _) Hlt). right.
      rewrite (proj2 (Z.leb_le _ _) (proj1 Hd)), (proj2 (Z.ltb_lt _ _) (proj2 Hd)).
      now left.
Qed.

(** X1: for every grid of at most 65536 points, the index buffer read two by
    two holds exactly the segments from a point to its right neighbor, to its
    lower neighbor and to its diagonal lower neighbor (column [i - 1] below an
    even row, [i + 1] below an odd row), each present exactly when the
    neighbor lies in the grid. *)
Theorem segments_are_the_lattice_neighbors (cols rows a b : Z) :
  cols * rows <= 65536 ->
  In (a, b) (segments (Rich.buildHexEdges cols rows)) <->
  exists i j, 0 <= i < cols /\ 0 <= j < rows /\ a = j * cols + i
    /\ ((i + 1 < cols /\ b = j * cols + (i + 1))
        \/ (j + 1 < rows /\ b = (j + 1) * cols + i)
        \/ (j + 1 < rows /\ 0 <= diagonal_column i j < cols
            /\ b = (j + 1) * cols + diagonal_column i j)).
Proof.
  intros Hsmall. rewrite indices_segments, segments_unpair by assumption.
  apply in_grid_segments.
Qed.

Lemma segments_are_the_lattice_neighbors_witness :
  80 * 28 <= 65536
  /\ (In (81, 160) (segments (Rich.buildHexEdges 80 28)) <->
      exists i j, 0 <= i < 80 /\ 0 <= j < 28 /\ 81 = j * 80 + i
        /\ ((i + 1 < 80 /\ 160 = j * 80 + (i + 1))
            \/ (j + 1 < 28 /\ 160 = (j + 1) * 80 + i)
            \/ (j + 1 < 28 /\ 0 <= diagonal_column i j < 80
                /\ 160 = (j + 1) * 80 + diagonal_column i j))).
Proof.
  split; [lia|].
  exact (segments_are_the_lattice_neighbors 80 28 81 160 ltac:(lia)).
Defined.

(** X2: in a grid of at most 65536 points no segment occurs twice, in either
    direction, and every segment runs from a point to a point of larger
    index inside the grid, so no segment is a loop. *)
Theorem segments_distinct_and_forward (cols rows : Z) :
  cols * rows <= 65536 ->
  NoDup (map undirected (segments (Rich.buildHexEdges cols rows)))
  /\ forall a b, In (a, b) (segments (Rich.buildHexEdges cols rows)) ->
       0 <= a /\ a < b /\ b < cols * rows.
Proof.
  intros Hsmall. rewrite indices_segments, segments_unpair by assumption.
  assert (Hfwd : forall a b, In (a, b) (grid_segments cols rows) ->
                   0 <= a /\ a < b /\ b < cols * rows).
  { intros a b Hin. apply grid_segment_in_grid in Hin. lia. }
  split; [|exact Hfwd].
  rewrite <- (map_id (grid_segments cols rows)) at 1. rewrite map_map.
  erewrite map_ext_in; [rewrite map_id; apply NoDup_grid_segments|].
  intros [a b] Hin. apply Hfwd in Hin. unfold undirected. cbn [fst snd].
  f_equal; lia.
Qed.

Lemma segments_distinct_and_forward_witness :
  120 * 42 <= 65536
  /\ NoDup (map undirected (segments (Rich.buildHexEdges 120 42))).
Proof.
  split; [lia|].
  exact (proj1 (segments_distinct_and_forward 120 42 ltac:(lia))).
Defined.

(** *** The number of segments *)

Lemma length_unpair (l : list (Z * Z)) : length (unpair l) = (2 * length l)%nat.
Proof.
  unfold unpair. rewrite length_flat_map_const with (n := 2%nat) by reflexivity. lia.
Qed.

Lemma length_cell_segments (cols rows i j : Z) :
  Z.of_nat (length (cell_segments cols rows i j))
  = (if i + 1 <? cols then 1 else 0)
    + (if j + 1 <? rows
       then 1 + (if (0 <=? diagonal_column i j) && (diagonal_column i j <? cols)
                 then 1 else 0)
       else 0).
Proof.
  unfold cell_segments. cbv zeta. rewrite length_app.
  destruct (i + 1 <? cols); destruct (j + 1 <? rows);
    try destruct ((0 <=? diagonal_column i j) && (diagonal_column i j <? cols));
    reflexivity.
Qed.

(** The segments of the first [n] cells of row [j]. *)
Lemma row_prefix_count (cols rows j : Z) (n : nat) :
  1 <= cols -> Z.of_nat n <= cols ->
  Z.of_nat (length (flat_map (fun i => cell_segments cols rows i j)
                      (map Z.of_nat (seq 0 n))))
  = Z.min (Z.of_nat n) (cols - 1)
    + (if j + 1 <? rows
       then Z.of_nat n
            + (if Z.even j then Z.max 0 (Z.of_nat n - 1)
               else Z.min (Z.of_nat n) (cols - 1))
       else 0).
Proof.
  intros Hc. induction n as [|n IH]; intros Hn.
  - cbn [seq map flat_map length]. destruct (j + 1 <? rows), (Z.even j); lia.
  - rewrite seq_S, map_app, flat_map_app, length_app, Nat2Z.inj_add, IH by lia.
    cbn [map flat_map Nat.add]. rewrite app_nil_r, length_cell_segments.
    unfold diagonal_column.
    destruct (Z.ltb_spec (Z.of_nat n + 1) cols); destruct (j + 1 <? rows);
      destruct (Z.even j);
      repeat match goal with
      | |- context [(0 <=? ?d)] => destruct (Z.leb_spec 0 d)
      | |- context [(?d <? cols)] => destruct (Z.ltb_spec d cols)
      end; cbn [andb]; lia.
Qed.

Lemma row_count (cols rows j : Z) :
  1 <= cols ->
  Z.of_nat (length (flat_map (fun i => cell_segments cols rows i j) (range cols)))
  = if j + 1 <? rows then 3 * cols - 2 else cols - 1.
Proof.
  intros Hc. unfold range. rewrite row_prefix_count by lia.
  destruct (j + 1 <? rows), (Z.even j); lia.
Qed.

Lemma rows_prefix_count (cols rows : Z) (m : nat) :
  1 <= cols -> 1 <= rows -> Z.of_nat m <= rows ->
  Z.of_nat (length (flat_map (fun j =>
                      flat_map (fun i => cell_segments cols rows i j) (range cols))
                      (map Z.of_nat (seq 0 m))))
  = (3 * cols - 2) * Z.min (Z.of_nat m) (rows - 1)
    + (if Z.of_nat m =? rows then cols - 1 else 0).
Proof.
  intros Hc Hr. induction m as [|m IH]; intros Hm.
  - cbn [seq map flat_map length].
    replace (Z.min (Z.of_nat 0) (rows - 1)) with 0 by lia.
    destruct (Z.eqb_spec (Z.of_nat 0) rows); lia.
  - rewrite seq_S, map_app, flat_map_app, length_app, Nat2Z.inj_add, IH by lia.
    cbn [map flat_map Nat.add]. rewrite app_nil_r, row_count by assumption.
    destruct (Z.eqb_spec (Z.of_nat m) rows); [lia|].
    destruct (Z.eqb_spec (Z.of_nat (S m)) rows);
      destruct (Z.ltb_spec (Z.of_nat m + 1) rows); try lia.
    replace (Z.min (Z.of_nat m) (rows - 1)) with (Z.of_nat m) by lia.
    replace (Z.min (Z.of_nat (S m)) (rows - 1)) with (Z.of_nat m + 1) by lia. lia.
Qed.

Lemma length_grid_segments (cols rows : Z) :
  1 <= cols -> 1 <= rows ->
  Z.of_nat (length (grid_segments cols rows))
  = 3 * cols * rows - 2 * cols - 2 * rows + 1.
Proof.
  intros Hc Hr. unfold grid_segments.
  change (range rows) with (map Z.of_nat (seq 0 (Z.to_nat rows))).
  rewrite rows_prefix_count by lia.
  rewrite Z2Nat.id by lia. rewrite Z.eqb_refl.
  replace (Z.min rows (rows - 1)) with (rows - 1) by lia. ring.
Qed.

(** X3: for every [cols >= 1] and [rows >= 1] the index buffer holds
    [3 * cols * rows - 2 * cols - 2 * rows + 1] segments, two indices each;
    this is the count [render] passes to [drawElements]. *)
Theorem index_buffer_length (cols rows : Z) :
  1 <= cols -> 1 <= rows ->
  Z.of_nat (length (Rich.buildHexEdges cols rows))
  = 2 * (3 * cols * rows - 2 * cols - 2 * rows + 1).
Proof.
  intros Hc Hr. rewrite buildHexEdges_unpair. unfold Uint16Array.
  rewrite length_map, length_unpair, Nat2Z.inj_mul.
  rewrite length_grid_segments by assumption. reflexivity.
Qed.

Lemma index_buffer_length_witness :
  1 <= 80 /\ 1 <= 28 /\ Z.of_nat (length (Rich.buildHexEdges 80 28)) = 2 * 6505.
Proof.
  split; [lia|]. split; [lia|].
  exact (index_buffer_length 80 28 ltac:(lia) ltac:(lia)).
Defined.

(** *** Beyond 16 bits *)

Lemma segments_Uint16Array (l : list (Z * Z)) :
  segments (Uint16Array (unpair l))
  = map (fun s => (to_uint16 (fst s), to_uint16 (snd s))) l.
Proof.
  unfold Uint16Array. induction l as [|[a b] l IH]; [reflexivity|].
  cbn [unpair flat_map app fst snd map segments]. fold (unpair l).
  now rewrite IH.
Qed.

(** X4: the bound of 65536 points is sharp: as soon as a grid has more
    points, the point of index 65536 is stored as index 0, so the index
    buffer holds a segment that ends at point 0, which no segment of the
    lattice does. *)
Theorem large_grid_aliases_point_zero (cols rows : Z) :
  1 <= cols -> 1 <= rows -> 65536 < cols * rows ->
  (exists a, In (a, 0) (segments (Rich.buildHexEdges cols rows)))
  /\ forall a, ~ In (a, 0) (grid_segments cols rows).
Proof.
  intros Hc Hr Hbig. split.
  - rewrite buildHexEdges_unpair, segments_Uint16Array.
    pose proof (Z.div_mod 65536 cols ltac:(lia)) as Hdm.
    pose proof (Z.mod_pos_bound 65536 cols ltac:(lia)) as Hmod.
    set (i := 65536 mod cols) in *. set (j := 65536 / cols) in *.
    assert (Hj : 0 <= j < rows) by (split; [apply Z.div_pos; lia | nia]).
    destruct (Z_lt_le_dec 0 i) as [Hi|Hi].
    + exists (to_uint16 65535).
      apply in_map_iff. exists (65535, 65536). split; [reflexivity|].
      apply in_grid_segments. exists (i - 1), j.
      split; [lia|]. split; [assumption|]. split; [lia|]. left. lia.
    + assert (i = 0) by lia. assert (1 <= j) by nia.
      exists (to_uint16 (65536 - cols)).
      apply in_map_iff. exists (65536 - cols, 65536). split; [reflexivity|].
      apply in_grid_segments. exists 0, (j - 1).
      split; [lia|]. split; [lia|]. split; [nia|]. right; left. split; nia.
  - intros a Hin. apply grid_segment_in_grid in Hin. lia.
Qed.

Lemma large_grid_aliases_point_zero_witness :
  1 <= 300 /\ 1 <= 300 /\ 65536 < 300 * 300
  /\ exists a, In (a, 0) (segments (Rich.buildHexEdges 300 300)).
Proof.
  split; [lia|]. split; [lia|]. split; [lia|].
  exact (proj1 (large_grid_aliases_point_zero 300 300
                  ltac:(lia) ltac:(lia) ltac:(lia))).
Defined.

(** ** The builders on any number model *)

Section MoreMeshFacts.
Context {F : Type} `{Number F}.
Local Open Scope js_scope.

Lemma range_nonpos (n : Z) : n <= 0 -> range n = [].
Proof. intros Hn. unfold range. now replace (Z.to_nat n) with 0%nat by lia. Qed.

Lemma flat_map_nil {A B} (l : list A) : flat_map (fun _ : A => @nil B) l = [].
Proof. induction l as [|a l IH]; [reflexivity | exact IH]. Qed.

Lemma buildHexPoints_empty (cols rows : Z) (h : F) :
  cols <= 0 \/ rows <= 0 -> Rich.buildHexPoints cols rows h = [].
Proof.
  intros [Hc|Hr]; unfold Rich.buildHexPoints.
  - rewrite (range_nonpos cols Hc). cbn [map]. apply flat_map_nil.
  - now rewrite (range_nonpos rows Hr).
Qed.

Lemma buildHexEdges_empty (cols rows : Z) :
  cols <= 0 \/ rows <= 0 -> Rich.buildHexEdges cols rows = [].
Proof.
  intros Hempty. rewrite buildHexEdges_unpair. unfold grid_segments.
  destruct Hempty as [Hc|Hr].
  - rewrite (range_nonpos cols Hc). cbn [flat_map]. now rewrite flat_map_nil.
  - now rewrite (range_nonpos rows Hr).
Qed.

(** X5: a grid with no column or no row ([cols <= 0] or [rows <= 0]) is
    empty in every variant: no position, no index, and in particular no NaN
    from the bounds of an empty point list. *)
Theorem createHexGrid_empty (cols rows : Z) :
  cols <= 0 \/ rows <= 0 ->
  Simple.createHexGrid (F:=F) cols rows = mkGrid [] []
  /\ Mid.createHexGrid (F:=F) cols rows = mkGrid [] []
  /\ Rich.createHexGrid (F:=F) cols rows = mkGrid [] [].
Proof.
  intros Hempty.
  assert (Hrich : Rich.createHexGrid (F:=F) cols rows = mkGrid [] []).
  { unfold Rich.createHexGrid. cbv zeta.
    rewrite buildHexPoints_empty, buildHexEdges_empty by assumption.
    reflexivity. }
  split; [|split; [|exact Hrich]].
  - change (Simple.createHexGrid cols rows)
      with (mkGrid (positions (Simple.createHexGrid (F:=F) cols rows))
                   (indices (Simple.createHexGrid (F:=F) cols rows))).
    rewrite simple_positions, simple_indices. cbv zeta.
    rewrite buildHexPoints_empty, buildHexEdges_empty by assumption.
    reflexivity.
  - unfold Mid.createHexGrid. cbv zeta.
    rewrite buildHexPoints_empty by assumption.
    change (Mid.buildHexEdges cols rows)
      with (indices (Simple.createHexGrid (F:=F) cols rows)).
    rewrite simple_indices, buildHexEdges_empty by assumption. reflexivity.
Qed.

(** X6: the middle variant, whose edges come from a chain of tests, returns
    the same grid as the richer variant with its table of neighbor offsets,
    for all [cols] and [rows] and whatever the number model. *)
Theorem mid_createHexGrid_is_rich (cols rows : Z) :
  Mid.createHexGrid (F:=F) cols rows = Rich.createHexGrid cols rows.
Proof.
  unfold Mid.createHexGrid, Rich.createHexGrid. cbv zeta. f_equal.
  change (Mid.buildHexEdges cols rows)
    with (indices (Simple.createHexGrid (F:=F) cols rows)).
  apply simple_indices.
Qed.

End MoreMeshFacts.

Lemma createHexGrid_empty_witness :
  (0 <= 0 \/ 5 <= 0)
  /\ Rich.createHexGrid (F:=float) 0 5 = mkGrid [] [].
Proof.
  split; [left; lia|].
  exact (proj2 (proj2 (createHexGrid_empty (F:=float) 0 5
                         (or_introl (Z.le_refl 0))))).
Defined.

(** ** Which point an index refers to *)

Lemma nth_flat_map_const {A B} (f : A -> list B) (c : nat) (l : list A)
    (q r : nat) (da : A) (d : B) :
  (forall a, length (f a) = c) -> (r < c)%nat -> (q < length l)%nat ->
  nth (q * c + r) (flat_map f l) d = nth r (f (nth q l da)) d.
Proof.
  intros Hlen Hr. revert q. induction l as [|a l IH]; intros q Hq.
  - cbn [length] in Hq. lia.
  - cbn [flat_map]. destruct q as [|q].
    + cbn [Nat.mul Nat.add nth]. apply app_nth1. now rewrite Hlen.
    + rewrite app_nth2 by (rewrite Hlen; lia).
      rewrite Hlen. replace (S q * c + r - c)%nat with (q * c + r)%nat by lia.
      cbn [nth]. apply IH. cbn [length] in Hq. lia.
Qed.

Lemma nth_range (n : Z) (k : nat) (d : Z) :
  (k < Z.to_nat n)%nat -> nth k (range n) d = Z.of_nat k.
Proof.
  intros Hk. unfold range.
  rewrite nth_indep with (d' := Z.of_nat 0) by (now rewrite length_map, length_seq).
  rewrite map_nth, seq_nth by assumption. reflexivity.
Qed.

Section PointOfIndex.
Context {F : Type} `{Number F}.
Local Open Scope js_scope.

(** The raw point stored at index [j * cols + i] is the lattice point of
    column [i] and row [j]. *)
Lemma nth_buildHexPoints (cols rows i j : Z) (h : F) (d : point F) :
  (0 <= i < cols)%Z -> (0 <= j < rows)%Z ->
  nth (Z.to_nat (j * cols + i)) (Rich.buildHexPoints cols rows h) d
  = lattice_point h i j.
Proof.
  intros Hi Hj. unfold Rich.buildHexPoints.
  replace (Z.to_nat (j * cols + i))
    with (Z.to_nat j * Z.to_nat cols + Z.to_nat i)%nat by nia.
  rewrite nth_flat_map_const with (c := Z.to_nat cols) (da := 0%Z).
  - rewrite nth_range by lia. rewrite Z2Nat.id by lia.
    rewrite nth_indep with (d' := lattice_point h 0 j)
      by (rewrite length_map, length_range; lia).
    change (lattice_point h 0 j)
      with ((fun i => mkPoint (of_Z i +! of_Z (j mod 2) *! lit 5 10)
                              (of_Z j *! h)) 0%Z).
    rewrite map_nth, nth_range by lia. rewrite Z2Nat.id by lia. reflexivity.
  - intros a. now rewrite length_map, length_range.
  - lia.
  - rewrite length_range. lia.
Qed.

(** The slots of the position buffer that hold the point of column [i] and
    row [j]. *)
Lemma nth_positions (cols rows i j : Z) (d : F) :
  (0 <= i < cols)%Z -> (0 <= j < rows)%Z ->
  let h := sqrt (of_Z 3) *! lit 5 10 in
  let b := Rich.computeBounds (Rich.buildHexPoints cols rows h) in
  let p := positions (Rich.createHexGrid cols rows) in
  nth (Z.to_nat (2 * (j * cols + i))) p d
    = fround (norm_x b (lit 125 100) (lattice_point h i j))
  /\ nth (Z.to_nat (2 * (j * cols + i) + 1)) p d
    = fround (norm_y b (lattice_point h i j)).
Proof.
  intros Hi Hj h b p. unfold p. cbn [Rich.createHexGrid positions]. fold h. fold b.
  rewrite normalizePositions_pairs.
  assert (Hk : (Z.to_nat (j * cols + i) < length (Rich.buildHexPoints cols rows h))%nat)
    by (rewrite length_buildHexPoints; nia).
  split.
  - replace (Z.to_nat (2 * (j * cols + i)))
      with (Z.to_nat (j * cols + i) * 2 + 0)%nat by nia.
    rewrite nth_flat_map_const with (c := 2%nat) (da := lattice_point h 0 0);
      [|reflexivity|lia|assumption].
    rewrite nth_buildHexPoints by assumption. reflexivity.
  - replace (Z.to_nat (2 * (j * cols + i) + 1))
      with (Z.to_nat (j * cols + i) * 2 + 1)%nat by nia.
    rewrite nth_flat_map_const with (c := 2%nat) (da := lattice_point h 0 0);
      [|reflexivity|lia|assumption].
    rewrite nth_buildHexPoints by assumption. reflexivity.
Qed.

(** X7: for a point in column [i] and row [j] of the grid, slots
    [2 * (j * cols + i)] and [2 * (j * cols + i) + 1] of the position buffer
    hold the normalized x and y of the lattice point
    [(i + (j mod 2) * 0.5, j * sqrt(3)/2)], as kept by the 32-bit store: the
    index [j * cols + i] of the index buffer refers to that point. *)
Theorem position_of_index (cols rows i j : Z) (d : F) :
  (0 <= i < cols)%Z -> (0 <= j < rows)%Z ->
  let h := sqrt (of_Z 3) *! lit 5 10 in
  let b := Rich.computeBounds (Rich.buildHexPoints cols rows h) in
  let p := positions (Rich.createHexGrid cols rows) in
  nth (Z.to_nat (2 * (j * cols + i))) p d
    = fround (norm_x b (lit 125 100) (lattice_point h i j))
  /\ nth (Z.to_nat (2 * (j * cols + i) + 1)) p d
    = fround (norm_y b (lattice_point h i j)).
Proof.
  intros Hi Hj. exact (nth_positions cols rows i j d Hi Hj).
Qed.

End PointOfIndex.

Lemma position_of_index_witness :
  (0 <= 3 < 80)%Z /\ (0 <= 5 < 28)%Z
  /\ (let h := sqrt (of_Z 3) *! lit 5 10 in
      let b := Rich.computeBounds (Rich.buildHexPoints (F:=float) 80 28 h) in
      let p := positions (Rich.createHexGrid (F:=float) 80 28) in
      nth (Z.to_nat (2 * (5 * 80 + 3))) p 0%float
        = fround (norm_x b (lit 125 100) (lattice_point h 3 5))
      /\ nth (Z.to_nat (2 * (5 * 80 + 3) + 1)) p 0%float
        = fround (norm_y b (lattice_point h 3 5)))%js.
Proof.
  split; [lia|]. split; [lia|].
  exact (position_of_index (F:=float) 80 28 3 5 0%float ltac:(lia) ltac:(lia)).
Defined.

(** ** The lattice in exact arithmetic *)

Module IdealMesh.
Import Ideal IdealFacts.
Local Open Scope R_scope.

Lemma lattice_point_fin (hr : R) (i j : Z) :
  lattice_point (XFin hr) i j = pt (IZR i + IZR (j mod 2) * (5 / 10)) (IZR j * hr).
Proof. unfold lattice_point. rewrite lit_fin by discriminate. reflexivity. Qed.

Lemma IZR_mod2 (j : Z) : IZR (j mod 2) = 0 \/ IZR (j mod 2) = 1.
Proof.
  pose proof (Z.mod_pos_bound j 2 ltac:(lia)) as Hb.
  assert (Hc : (j mod 2 = 0 \/ j mod 2 = 1)%Z) by lia.
  destruct Hc as [-> | ->]; [now left | now right].
Qed.

Lemma IZR_range (k n : Z) : (0 <= k < n)%Z -> 0 <= IZR k <= IZR n - 1.
Proof.
  intros [Hlo Hhi]. split; [now apply IZR_le|].
  rewrite <- (minus_IZR n 1). apply IZR_le. lia.
Qed.

Lemma lattice_extent (cols rows : Z) (hr : R) :
  (1 <= cols)%Z -> (1 <= rows)%Z -> 0 < hr ->
  let pts := Rich.buildHexPoints cols rows (XFin hr) in
  run_min (map x pts) infinity = XFin 0
  /\ run_max (map x pts) (neg infinity) = XFin (lattice_max_x cols rows)
  /\ run_min (map y pts) infinity = XFin 0
  /\ run_max (map y pts) (neg infinity) = XFin ((IZR rows - 1) * hr).
Proof.
  intros Hc Hr Hh pts.
  assert (Hin : forall i j, (0 <= i < cols)%Z -> (0 <= j < rows)%Z ->
            In (pt (IZR i + IZR (j mod 2) * (5 / 10)) (IZR j * hr)) pts).
  { intros i j Hi Hj. apply in_buildHexPoints. now exists i, j. }
  assert (Hout : forall q, In q pts -> exists i j,
            (0 <= i < cols)%Z /\ (0 <= j < rows)%Z
            /\ q = pt (IZR i + IZR (j mod 2) * (5 / 10)) (IZR j * hr))
    by (intros q Hq; now apply in_buildHexPoints in Hq).
  assert (Hfx : all_finite (map x pts)).
  { apply Forall_map, Forall_forall. intros q Hq.
    apply Hout in Hq as (i & j & _ & _ & ->). now eexists. }
  assert (Hfy : all_finite (map y pts)).
  { apply Forall_map, Forall_forall. intros q Hq.
    apply Hout in Hq as (i & j & _ & _ & ->). now eexists. }
  assert (Hnx : map x pts <> []).
  { pose proof (in_map x _ _ (Hin 0%Z 0%Z ltac:(lia) ltac:(lia))) as H0.
    intros E. rewrite E in H0. destruct H0. }
  assert (Hny : map y pts <> []).
  { pose proof (in_map y _ _ (Hin 0%Z 0%Z ltac:(lia) ltac:(lia))) as H0.
    intros E. rewrite E in H0. destruct H0. }
  destruct (run_min_least _ Hnx Hfx) as (mX & -> & HlX).
  destruct (run_max_greatest _ Hnx Hfx) as (MX & -> & HgX).
  destruct (run_min_least _ Hny Hfy) as (mY & -> & HlY).
  destruct (run_max_greatest _ Hny Hfy) as (MY & -> & HgY).
  (* every raw coordinate, as a real *)
  assert (Hxs : forall v, In (XFin v) (map x pts) ->
            0 <= v <= lattice_max_x cols rows).
  { intros v Hv. apply in_map_iff in Hv as (q & Hq & Hv).
    apply Hout in Hv as (i & j & Hi & Hj & ->). cbn [x pt] in Hq.
    injection Hq as <-. pose proof (IZR_range i cols Hi) as Hri.
    unfold lattice_max_x. destruct (Z.leb_spec 2 rows).
    - destruct (IZR_mod2 j) as [-> | ->]; lra.
    - assert (j = 0)%Z by lia. subst j. change (0 mod 2)%Z with 0%Z. lra. }
  assert (Hys : forall v, In (XFin v) (map y pts) ->
            0 <= v <= (IZR rows - 1) * hr).
  { intros v Hv. apply in_map_iff in Hv as (q & Hq & Hv).
    apply Hout in Hv as (i & j & Hi & Hj & ->). cbn [y pt] in Hq.
    injection Hq as <-. pose proof (IZR_range j rows Hj) as Hrj. nra. }
  (* the extreme points *)
  pose proof (in_map x _ _ (Hin 0%Z 0%Z ltac:(lia) ltac:(lia))) as Hx0.
  pose proof (in_map y _ _ (Hin 0%Z 0%Z ltac:(lia) ltac:(lia))) as Hy0.
  pose proof (in_map y _ _ (Hin 0%Z (rows - 1)%Z ltac:(lia) ltac:(lia))) as Hy1.
  assert (Hx1 : In (XFin (lattice_max_x cols rows)) (map x pts)).
  { unfold lattice_max_x. destruct (Z.leb_spec 2 rows).
    - pose proof (in_map x _ _ (Hin (cols - 1)%Z 1%Z ltac:(lia) ltac:(lia))) as Hp.
      cbn [x pt] in Hp. change (1 mod 2)%Z with 1%Z in Hp.
      rewrite minus_IZR in Hp.
      replace (IZR cols - 1 + 5 / 10) with (IZR cols - 1 + 1 * (5 / 10)) by lra.
      exact Hp.
    - pose proof (in_map x _ _ (Hin (cols - 1)%Z 0%Z ltac:(lia) ltac:(lia))) as Hp.
      cbn [x pt] in Hp. change (0 mod 2)%Z with 0%Z in Hp.
      rewrite minus_IZR in Hp.
      replace (IZR cols - 1 + 0) with (IZR cols - 1 + 0 * (5 / 10)) by lra.
      exact Hp. }
  cbn [x y pt] in Hx0, Hy0, Hy1. change (0 mod 2)%Z with 0%Z in Hx0.
  rewrite minus_IZR in Hy1.
  pose proof (least_le _ _ _ HlX Hx0). pose proof (Hxs _ (proj1 HlX)).
  pose proof (greatest_ge _ _ _ HgX Hx1). pose proof (Hxs _ (proj1 HgX)).
  pose proof (least_le _ _ _ HlY Hy0). pose proof (Hys _ (proj1 HlY)).
  pose proof (greatest_ge _ _ _ HgY Hy1). pose proof (Hys _ (proj1 HgY)).
  repeat split; f_equal; lra.
Qed.

Lemma guarded_span (M : R) :
  ((XFin M -! XFin 0) ||! of_Z 1)%js = XFin (if Req_dec_T M 0 then 1 else M).
Proof.
  cbn [sub truthy of_Z xreal_number]. rewrite xsub_fin. unfold xtruthy, Reqb.
  destruct (Req_dec_T (M - 0) 0) as [E|E]; destruct (Req_dec_T M 0) as [E'|E'];
    cbn [negb]; try lra; [reflexivity | f_equal; lra].
Qed.

Lemma lattice_bounds (cols rows : Z) (hr : R) :
  (1 <= cols)%Z -> (1 <= rows)%Z -> 0 < hr ->
  Rich.computeBounds (Rich.buildHexPoints cols rows (XFin hr))
  = Rich.mkBounds (XFin 0) (XFin 0)
      (XFin (if Req_dec_T (lattice_max_x cols rows) 0 then 1
             else lattice_max_x cols rows))
      (XFin (if Req_dec_T ((IZR rows - 1) * hr) 0 then 1
             else (IZR rows - 1) * hr)).
Proof.
  intros Hc Hr Hh. unfold Rich.computeBounds.
  destruct (bounds_fold (Rich.buildHexPoints cols rows (XFin hr))
              (mkExtent infinity (neg infinity) infinity (neg infinity)))
    as (H1 & H2 & H3 & H4).
  cbn [minX maxX minY maxY] in H1, H2, H3, H4.
  destruct (lattice_extent cols rows hr Hc Hr Hh) as (E1 & E2 & E3 & E4).
  rewrite H1, H2, H3, H4, E1, E2, E3, E4, !guarded_span. reflexivity.
Qed.

Lemma norm_fin (sx sy a b : R) :
  sx <> 0 -> sy <> 0 ->
  norm_x (Rich.mkBounds (XFin 0) (XFin 0) (XFin sx) (XFin sy)) (lit 125 100) (pt a b)
    = XFin ((a / sx * 2 - 1) * (125 / 100))
  /\ norm_y (Rich.mkBounds (XFin 0) (XFin 0) (XFin sx) (XFin sy)) (pt a b)
    = XFin (b / sy * 2 - 1).
Proof.
  intros Hx Hy. unfold norm_x, norm_y, pt.
  cbn [x y Rich.b_minX Rich.b_minY Rich.spanX Rich.spanY].
  rewrite lit_fin by discriminate. rewrite !xsub_fin, !xdiv_fin by assumption.
  cbn [of_Z mul sub xreal_number xmul xsub xadd xneg].
  split; f_equal; lra.
Qed.

(** The stored coordinates of the point of column [i] and row [j], for the
    spans the bounds give. *)
Lemma position_fin (cols rows i j : Z) :
  (0 <= i < cols)%Z -> (0 <= j < rows)%Z ->
  let hr := R_sqrt.sqrt 3 * (5 / 10) in
  let sx := if Req_dec_T (lattice_max_x cols rows) 0 then 1
            else lattice_max_x cols rows in
  let sy := if Req_dec_T ((IZR rows - 1) * hr) 0 then 1
            else (IZR rows - 1) * hr in
  let p := positions (Rich.createHexGrid (F:=xreal) cols rows) in
  nth (Z.to_nat (2 * (j * cols + i))) p XNaN
    = XFin (((IZR i + IZR (j mod 2) * (5 / 10)) / sx * 2 - 1) * (125 / 100))
  /\ nth (Z.to_nat (2 * (j * cols + i) + 1)) p XNaN
    = XFin (IZR j * hr / sy * 2 - 1).
Proof.
  intros Hi Hj hr sx sy p.
  pose proof (sqrt_lt_R0 3 ltac:(lra)) as H3.
  assert (Hh : 0 < hr) by (unfold hr; lra).
  destruct (nth_positions (F:=xreal) cols rows i j XNaN Hi Hj) as [Hx Hy].
  rewrite (proj1 ideal_cell_height) in Hx, Hy. fold hr in Hx, Hy.
  rewrite lattice_bounds in Hx, Hy by (assumption || lia).
  rewrite lattice_point_fin in Hx, Hy. fold sx sy in Hx, Hy.
  assert (Hsx : sx <> 0)
    by (unfold sx; destruct (Req_dec_T (lattice_max_x cols rows) 0);
        [lra | assumption]).
  assert (Hsy : sy <> 0)
    by (unfold sy; destruct (Req_dec_T ((IZR rows - 1) * hr) 0);
        [lra | assumption]).
  destruct (norm_fin sx sy (IZR i + IZR (j mod 2) * (5 / 10)) (IZR j * hr) Hsx Hsy)
    as [Nx Ny].
  rewrite Nx in Hx. rewrite Ny in Hy. split; assumption.
Qed.

(** X8: in exact arithmetic, for [cols >= 1] and [rows >= 2], the point of
    column [i] and row [j] is stored at
    [x = ((i + (j mod 2) / 2) / (cols - 1/2) * 2 - 1) * 1.25] and
    [y = j / (rows - 1) * 2 - 1]: rows are evenly spaced from -1 to 1 whatever
    the cell height, and odd rows are shifted right by half a cell. *)
Theorem position_closed_form (cols rows i j : Z) :
  (1 <= cols)%Z -> (2 <= rows)%Z -> (0 <= i < cols)%Z -> (0 <= j < rows)%Z ->
  let p := positions (Rich.createHexGrid (F:=xreal) cols rows) in
  nth (Z.to_nat (2 * (j * cols + i))) p XNaN
    = XFin (((IZR i + IZR (j mod 2) * (5 / 10)) / (IZR cols - 5 / 10) * 2 - 1)
            * (125 / 100))
  /\ nth (Z.to_nat (2 * (j * cols + i) + 1)) p XNaN
    = XFin (IZR j / (IZR rows - 1) * 2 - 1).
Proof.
  intros Hc Hr Hi Hj p.
  destruct (position_fin cols rows i j Hi Hj) as [Hx Hy]. fold p in Hx, Hy.
  cbv zeta in Hx, Hy. rewrite Hx, Hy. clear Hx Hy.
  pose proof (sqrt_lt_R0 3 ltac:(lra)) as H3.
  assert (HR : 2 <= IZR rows) by (now apply IZR_le).
  assert (HC : 1 <= IZR cols) by (now apply IZR_le).
  unfold lattice_max_x. rewrite (proj2 (Z.leb_le 2 rows) Hr).
  destruct (Req_dec_T (IZR cols - 1 + 5 / 10) 0) as [E|_]; [lra|].
  destruct (Req_dec_T ((IZR rows - 1) * (R_sqrt.sqrt 3 * (5 / 10))) 0) as [E|_];
    [nra|].
  split; f_equal; field; lra.
Qed.

Lemma position_closed_form_witness :
  (1 <= 1)%Z /\ (2 <= 3)%Z /\ (0 <= 0 < 1)%Z /\ (0 <= 1 < 3)%Z
  /\ nth (Z.to_nat (2 * (1 * 1 + 0)))
       (positions (Rich.createHexGrid (F:=xreal) 1 3)) XNaN
     = XFin (((IZR 0 + IZR (1 mod 2) * (5 / 10)) / (IZR 1 - 5 / 10) * 2 - 1)
             * (125 / 100)).
Proof.
  split; [lia|]. split; [lia|]. split; [lia|]. split; [lia|].
  exact (proj1 (position_closed_form 1 3 0 1
                  ltac:(lia) ltac:(lia) ltac:(lia) ltac:(lia))).
Defined.

(** X9: in exact arithmetic a single row ([rows = 1], [cols >= 2]) has a
    vertical span of 0, which the guard replaces by 1: every point is stored
    with [y = -1], on the lower edge of the box and not at mid height, and
    the columns are evenly spaced from -1.25 to 1.25. *)
Theorem single_row_positions (cols i : Z) :
  (2 <= cols)%Z -> (0 <= i < cols)%Z ->
  let p := positions (Rich.createHexGrid (F:=xreal) cols 1) in
  nth (Z.to_nat (2 * i)) p XNaN
    = XFin ((IZR i / (IZR cols - 1) * 2 - 1) * (125 / 100))
  /\ nth (Z.to_nat (2 * i + 1)) p XNaN = XFin (-1).
Proof.
  intros Hc Hi p.
  destruct (position_fin cols 1 i 0 Hi ltac:(lia)) as [Hx Hy]. fold p in Hx, Hy.
  cbv zeta in Hx, Hy.
  replace (2 * (0 * cols + i))%Z with (2 * i)%Z in Hx, Hy by lia.
  rewrite Hx, Hy. clear Hx Hy.
  assert (HC : 2 <= IZR cols) by (now apply IZR_le).
  unfold lattice_max_x. change (2 <=? 1)%Z with false. change (0 mod 2)%Z with 0%Z.
  destruct (Req_dec_T (IZR cols - 1 + 0) 0) as [E|_]; [lra|].
  destruct (Req_dec_T ((1 - 1) * (R_sqrt.sqrt 3 * (5 / 10))) 0) as [_|E]; [|lra].
  split; f_equal; field; lra.
Qed.

Lemma single_row_positions_witness :
  (2 <= 4)%Z /\ (0 <= 3 < 4)%Z
  /\ nth (Z.to_nat (2 * 3 + 1)) (positions (Rich.createHexGrid (F:=xreal) 4 1)) XNaN
     = XFin (-1).
Proof.
  split; [lia|]. split; [lia|].
  exact (proj2 (single_row_positions 4 3 ltac:(lia) ltac:(lia))).
Defined.

(** X10: in exact arithmetic, for every [cols >= 1] and [rows >= 1], every
    stored position is a finite number inside the box
    [[-1.25, 1.25] x [-1, 1]], degenerate spans included. *)
Theorem positions_in_box (cols rows i j : Z) :
  (0 <= i < cols)%Z -> (0 <= j < rows)%Z ->
  let p := positions (Rich.createHexGrid (F:=xreal) cols rows) in
  exists vx vy,
    nth (Z.to_nat (2 * (j * cols + i))) p XNaN = XFin vx
    /\ nth (Z.to_nat (2 * (j * cols + i) + 1)) p XNaN = XFin vy
    /\ - (125 / 100) <= vx <= 125 / 100 /\ -1 <= vy <= 1.
Proof.
  intros Hi Hj p.
  destruct (position_fin cols rows i j Hi Hj) as [Hx Hy]. fold p in Hx, Hy.
  cbv zeta in Hx, Hy. eexists _, _. split; [exact Hx|]. split; [exact Hy|].
  pose proof (sqrt_lt_R0 3 ltac:(lra)) as H3.
  pose proof (IZR_range i cols Hi) as Hri. pose proof (IZR_range j rows Hj) as Hrj.
  set (hr := R_sqrt.sqrt 3 * (5 / 10)) in *.
  assert (Hh : 0 < hr) by (unfold hr; lra).
  assert (Ha : 0 <= IZR i + IZR (j mod 2) * (5 / 10) <= lattice_max_x cols rows).
  { unfold lattice_max_x. destruct (Z.leb_spec 2 rows).
    - destruct (IZR_mod2 j) as [-> | ->]; lra.
    - assert (j = 0)%Z by lia. subst j. change (0 mod 2)%Z with 0%Z. lra. }
  assert (Hb : 0 <= IZR j * hr <= (IZR rows - 1) * hr) by nra.
  assert (Hunit : forall a M, 0 <= a <= M ->
            0 <= a / (if Req_dec_T M 0 then 1 else M) <= 1).
  { intros a M HaM. destruct (Req_dec_T M 0) as [E|E].
    - subst. lra.
    - assert (0 < M) by lra. split.
      + unfold Rdiv. apply Rmult_le_pos; [lra|].
        apply Rlt_le, Rinv_0_lt_compat. lra.
      + apply Rmult_le_reg_r with M; [assumption|].
        unfold Rdiv. rewrite Rmult_assoc, Rinv_l, Rmult_1_r by lra. lra. }
  pose proof (Hunit _ _ Ha). pose proof (Hunit _ _ Hb). lra.
Qed.

Lemma positions_in_box_witness :
  (0 <= 0 < 1)%Z /\ (0 <= 0 < 1)%Z
  /\ exists vx vy,
       nth (Z.to_nat (2 * (0 * 1 + 0)))
         (positions (Rich.createHexGrid (F:=xreal) 1 1)) XNaN = XFin vx
       /\ nth (Z.to_nat (2 * (0 * 1 + 0) + 1))
            (positions (Rich.createHexGrid (F:=xreal) 1 1)) XNaN = XFin vy
       /\ - (125 / 100) <= vx <= 125 / 100 /\ -1 <= vy <= 1.
Proof.
  split; [lia|]. split; [lia|].
  exact (positions_in_box 1 1 0 0 ltac:(lia) ltac:(lia)).
Defined.

Lemma mod2_succ (j : Z) :
  (j mod 2 = 0 /\ (j + 1) mod 2 = 1 /\ Z.even j = true)%Z
  \/ (j mod 2 = 1 /\ (j + 1) mod 2 = 0 /\ Z.even j = false)%Z.
Proof.
  pose proof (Z.mod_pos_bound j 2 ltac:(lia)) as Hb.
  pose proof (Z.mod_pos_bound (j + 1) 2 ltac:(lia)) as Hb'.
  pose proof (Z.div_mod j 2 ltac:(lia)) as Hd.
  pose proof (Z.div_mod (j + 1) 2 ltac:(lia)) as Hd'.
  rewrite Zeven_mod.
  assert (Hc : (j mod 2 = 0 \/ j mod 2 = 1)%Z) by lia.
  destruct Hc as [E|E]; rewrite E; [left | right];
    (split; [reflexivity|]); (split; [lia | reflexivity]).
Qed.

Lemma unit_distance (x1 y1 x2 y2 : R) :
  (x2 - x1) * (x2 - x1) + (y2 - y1) * (y2 - y1) = 1 ->
  distance (pt x1 y1) (pt x2 y2) = 1.
Proof.
  intros Hsq. unfold distance, pt. cbn [x y to_R].
  replace ((x1 - x2) ^ 2 + (y1 - y2) ^ 2) with 1 by (rewrite <- Hsq; ring).
  apply sqrt_1.
Qed.

(** X11: in exact arithmetic every segment of a grid of at most 65536 points
    joins two lattice points at distance exactly 1: with rows
    [sqrt(3)/2] apart and odd rows shifted by half a cell, the right, lower
    and diagonal neighbors form equilateral triangles of side 1. *)
Theorem segments_have_unit_length (cols rows a b : Z) :
  (cols * rows <= 65536)%Z ->
  In (a, b) (segments (Rich.buildHexEdges cols rows)) ->
  let pts := Rich.buildHexPoints (F:=xreal) cols rows
               (sqrt (of_Z 3) *! lit 5 10)%js in
  distance (nth (Z.to_nat a) pts (pt 0 0)) (nth (Z.to_nat b) pts (pt 0 0)) = 1.
Proof.
  intros Hsmall Hin pts. unfold pts. rewrite (proj1 ideal_cell_height).
  rewrite indices_segments, segments_unpair in Hin by assumption.
  apply in_grid_segments in Hin.
  destruct Hin as (i & j & Hi & Hj & -> & Hb).
  pose proof (sqrt_sqrt 3 ltac:(lra)) as H3.
  rewrite nth_buildHexPoints, lattice_point_fin by assumption.
  destruct (mod2_succ j) as [(E0 & E1 & Ev)|(E0 & E1 & Ev)];
    destruct Hb as [[Hlt ->]|[[Hlt ->]|(Hlt & Hd & ->)]];
    unfold diagonal_column in *; rewrite ?Ev in *;
    rewrite nth_buildHexPoints, lattice_point_fin by lia;
    rewrite ?E0, ?E1, ?plus_IZR, ?minus_IZR.
  all: apply unit_distance; set (s := R_sqrt.sqrt 3) in *;
    ring_simplify; try (replace (s ^ 2) with 3 by (rewrite <- H3; ring)); lra.
Qed.

End IdealMesh.

Lemma segments_have_unit_length_witness :
  (4 * 3 <= 65536)%Z
  /\ In (1, 4)%Z (segments (Rich.buildHexEdges 4 3))
  /\ distance
       (nth (Z.to_nat 1)
          (Rich.buildHexPoints (F:=Ideal.xreal) 4 3 (sqrt (of_Z 3) *! lit 5 10)%js)
          (pt 0 0))
       (nth (Z.to_nat 4)
          (Rich.buildHexPoints (F:=Ideal.xreal) 4 3 (sqrt (of_Z 3) *! lit 5 10)%js)
          (pt 0 0))
     = 1%R.
Proof.
  assert (Hin : In (1, 4)%Z (segments (Rich.buildHexEdges 4 3)))
    by (vm_compute; tauto).
  split; [lia|]. split; [exact Hin|].
  exact (IdealMesh.segments_have_unit_length 4 3 1 4 ltac:(lia) Hin).
Defined.

(** ** The handlers over sequences of events *)

Section MoreLoopFacts.
Context {F : Type} `{Number F}.
Local Open Scope js_scope.
Import Loop.

Lemma menuVisible_render (w : page) (ms : F) (st : state) :
  menuVisible (fst (render w ms st)) = menuVisible st.
Proof. unfold render. destruct (shock_age ms (start (shock st))). reflexivity. Qed.

Lemma targetMouse_render (w : page) (ms : F) (st : state) :
  targetMouse (fst (render w ms st)) = targetMouse st.
Proof. unfold render. destruct (shock_age ms (start (shock st))). reflexivity. Qed.

Lemma mouse_render (w : page) (ms : F) (st : state) :
  mouse (fst (render w ms st)) = ease (targetMouse st) (mouse st).
Proof. unfold render. destruct (shock_age ms (start (shock st))). reflexivity. Qed.

Lemma menu_consistent_step (w : page) (st : state) (ev : event) :
  menu_consistent w st -> menu_consistent w (step w st ev).
Proof.
  unfold menu_consistent. intros Hst.
  destruct ev as [e|e now|e|key|ms]; cbn [step].
  - exact Hst.
  - unfold pointerdown, openContextMenu, closeContextMenu, updatePointerTarget.
    destruct (contextMenu w) eqn:Hm; [intros _; reflexivity|]. cbn [negb andb orb].
    destruct ((pointerType e =? "mouse")%string && (button e =? 2)%Z);
      [exact Hst|].
    destruct (menuVisible st) eqn:Hv; [discriminate (Hst eq_refl)|].
    destruct ((pointerType e =? "mouse")%string && negb (button e =? 0)%Z);
      cbn [menuVisible]; intros Hv'; congruence.
  - unfold contextmenu, openContextMenu.
    destruct (contextMenu w) eqn:Hm; [intros _; reflexivity|]. cbn [negb andb].
    exact Hst.
  - unfold keydown, closeContextMenu.
    destruct (key =? "Escape")%string; [|exact Hst].
    destruct (negb (contextMenu w) || negb (menuVisible st)); [exact Hst|].
    cbn [menuVisible]. discriminate.
  - rewrite menuVisible_render. exact Hst.
Qed.

Lemma menu_consistent_run (w : page) (evs : list event) (st : state) :
  menu_consistent w st -> menu_consistent w (run w st evs).
Proof.
  unfold run. revert st. induction evs as [|ev evs IH]; intros st Hst; [exact Hst|].
  cbn [fold_left]. apply IH, menu_consistent_step, Hst.
Qed.

Lemma pointerdown_starts_full (w : page) (e : pointerEvent) (now : F) (st : state) :
  starts_shock w e = true -> menu_consistent w st ->
  pointerdown w e now st
  = mkState (clipSpaceFromEvent w e) (mouse st)
      (mkShock (clipSpaceFromEvent w e) now) false.
Proof.
  unfold starts_shock, primary, pointerdown, menu_consistent. intros Hs Hst.
  apply andb_prop in Hs as [Hp Hm]. apply negb_true_iff in Hm. rewrite Hm.
  assert (Hmouse : (pointerType e =? "mouse")%string && (button e =? 2)%Z = false).
  { destruct (pointerType e =? "mouse")%string; [|reflexivity].
    cbn [negb orb andb] in *. apply Z.eqb_eq in Hp. now rewrite Hp. }
  assert (Hmid : (pointerType e =? "mouse")%string && negb (button e =? 0)%Z = false).
  { destruct (pointerType e =? "mouse")%string; [|reflexivity].
    cbn [negb orb andb] in *. now rewrite Hp. }
  rewrite Hmouse, Hmid.
  unfold closeContextMenu, updatePointerTarget.
  destruct (menuVisible st) eqn:Hv.
  - rewrite (Hst eq_refl). reflexivity.
  - cbn [targetMouse mouse shock menuVisible]. rewrite Hv. reflexivity.
Qed.

Lemma pointerdown_other_full (w : page) (e : pointerEvent) (now : F) (st : state) :
  starts_shock w e = false ->
  targetMouse (pointerdown w e now st) = targetMouse st
  /\ mouse (pointerdown w e now st) = mouse st
  /\ shock (pointerdown w e now st) = shock st.
Proof.
  unfold starts_shock, primary, pointerdown, openContextMenu, closeContextMenu.
  intros Hs.
  destruct (pointerType e =? "mouse")%string; cbn [negb orb andb] in *.
  - destruct (button e =? 2)%Z.
    + destruct (negb (contextMenu w)); repeat split.
    + destruct (contextMenu w && target_in_menu e); [repeat split|].
      destruct (button e =? 0)%Z; [discriminate|]. cbn [negb].
      destruct (menuVisible st); [|repeat split].
      destruct (negb (contextMenu w) || negb true); repeat split.
  - destruct (contextMenu w && target_in_menu e); [repeat split | discriminate].
Qed.

(** X12: over every sequence of events from the initial state, the menu is
    shown only if the page has a menu element; and a press that starts a
    shock, whatever came before it, leaves the menu closed, the pointer
    target at the point of the press (the shock origin) and the smoothed
    pointer where it was. *)
Theorem press_after_any_events (w : page) (evs : list event)
    (e : pointerEvent) (now : F) :
  starts_shock w e = true ->
  let before := run w initial evs in
  let after := run w initial (evs ++ [PointerDown e now]) in
  (menuVisible before = true -> contextMenu w = true)
  /\ menuVisible after = false
  /\ targetMouse after = clipSpaceFromEvent w e
  /\ origin (shock after) = targetMouse after
  /\ start (shock after) = now
  /\ mouse after = mouse before.
Proof.
  intros Hs before after.
  assert (Hc : menu_consistent w before)
    by (apply menu_consistent_run; unfold menu_consistent; discriminate).
  split; [exact Hc|].
  unfold after, run. rewrite fold_left_app. cbn [fold_left step].
  fold (run w initial evs). fold before.
  rewrite (pointerdown_starts_full w e now before Hs Hc).
  repeat split.
Qed.

(** X13: a press that does not start a shock (a secondary mouse button, or a
    press aimed at the menu) changes neither the pointer target, nor the
    smoothed pointer, nor the shock; and only frames move the smoothed
    pointer: a sequence of events without a frame leaves it where it was. *)
Theorem quiet_events (w : page) (e : pointerEvent) (now : F) (st : state)
    (evs : list event) :
  starts_shock w e = false ->
  Forall (fun ev => match ev with Frame _ => False | _ => True end) evs ->
  (targetMouse (pointerdown w e now st) = targetMouse st
   /\ mouse (pointerdown w e now st) = mouse st
   /\ shock (pointerdown w e now st) = shock st)
  /\ mouse (run w st evs) = mouse st.
Proof.
  intros Hs Hno. split; [now apply pointerdown_other_full|].
  unfold run. revert st. induction Hno as [|ev evs Hev _ IH]; intros st;
    [reflexivity|].
  cbn [fold_left]. rewrite IH.
  destruct ev as [e'|e' now'|e'|key|ms]; cbn [step]; try contradiction.
  - reflexivity.
  - destruct (starts_shock w e') eqn:Hs'.
    + unfold pointerdown, starts_shock, primary in *.
      apply andb_prop in Hs' as [Hp Hm]. apply negb_true_iff in Hm. rewrite Hm.
      unfold openContextMenu, closeContextMenu, updatePointerTarget.
      destruct ((pointerType e' =? "mouse")%string && (button e' =? 2)%Z);
        [destruct (negb (contextMenu w)); reflexivity|].
      destruct (menuVisible st);
        [destruct (negb (contextMenu w) || negb true)|];
        destruct ((pointerType e' =? "mouse")%string && negb (button e' =? 0)%Z);
        reflexivity.
    + now apply pointerdown_other_full.
  - unfold contextmenu, openContextMenu.
    destruct (contextMenu w && target_in_menu e'); [reflexivity|].
    destruct (negb (contextMenu w)); reflexivity.
  - unfold keydown, closeContextMenu. destruct (key =? "Escape")%string; [|reflexivity].
    destruct (negb (contextMenu w) || negb (menuVisible st)); reflexivity.
Qed.

End MoreLoopFacts.

Lemma press_after_any_events_witness :
  let w := page_1000_800 (F:=float) in
  let evs := [Loop.ContextMenu (left_click false); Loop.Frame (of_Z 16)] in
  Loop.starts_shock w (left_click false) = true
  /\ Loop.menuVisible
       (Loop.run w Loop.initial (evs ++ [Loop.PointerDown (left_click false) (of_Z 40)]))
     = false.
Proof.
  intros w evs. split; [reflexivity|].
  exact (proj1 (proj2 (press_after_any_events w evs (left_click false) (of_Z 40)
                         eq_refl))).
Defined.

Lemma quiet_events_witness :
  let w := page_1000_800 (F:=float) in
  let evs := [Loop.PointerMove (left_click false); Loop.KeyDown "Escape"] in
  Loop.starts_shock w (left_click true) = false
  /\ Forall (fun ev => match ev with Loop.Frame _ => False | _ => True end) evs
  /\ Loop.mouse (Loop.run w Loop.initial evs) = Loop.mouse Loop.initial.
Proof.
  intros w evs.
  assert (Hno : Forall (fun ev => match ev with Loop.Frame _ => False | _ => True end) evs)
    by (apply Forall_cons; [exact I|]; apply Forall_cons; [exact I|]; apply Forall_nil).
  split; [reflexivity|]. split; [exact Hno|].
  exact (proj2 (quiet_events w (left_click true) (of_Z 0) Loop.initial evs
                  eq_refl Hno)).
Defined.

(** ** The render loop in exact arithmetic *)

Module IdealLoop.
Import Ideal IdealFacts.
Local Open Scope R_scope.

(** *** Pointer coordinates *)

Lemma clip_fin (W Hh cx cy : R) (ty : string) (bt : Z) (inm m : bool) :
  W <> 0 -> Hh <> 0 ->
  Loop.clipSpaceFromEvent (Loop.mkPage (XFin W) (XFin Hh) m)
    (Loop.mkPointerEvent ty bt (XFin cx) (XFin cy) inm)
  = pt (cx / W * 2 - 1) (- (cy / Hh * 2 - 1)).
Proof.
  intros HW HH. unfold Loop.clipSpaceFromEvent, pt.
  cbn [Loop.clientX Loop.clientY Loop.innerWidth Loop.innerHeight].
  cbn [div xreal_number]. rewrite !xdiv_fin by assumption.
  cbn [of_Z mul sub neg xreal_number xmul xsub xadd xneg].
  f_equal; f_equal; lra.
Qed.

(** X14: in exact arithmetic, a pointer event inside a window of positive
    size is mapped into the square [[-1, 1] x [-1, 1]], the y axis pointing
    up: the top left corner of the window goes to (-1, 1), the bottom right
    corner to (1, -1), at [x = 2 * clientX / width - 1] and
    [y = 1 - 2 * clientY / height]. *)
Theorem clipSpace_of_window (W Hh cx cy : R) (ty : string) (bt : Z) (inm m : bool) :
  0 < W -> 0 < Hh -> 0 <= cx <= W -> 0 <= cy <= Hh ->
  exists u v,
    Loop.clipSpaceFromEvent (Loop.mkPage (XFin W) (XFin Hh) m)
      (Loop.mkPointerEvent ty bt (XFin cx) (XFin cy) inm) = pt u v
    /\ u = 2 * cx / W - 1 /\ v = 1 - 2 * cy / Hh
    /\ -1 <= u <= 1 /\ -1 <= v <= 1
    /\ (cx = 0 -> u = -1) /\ (cx = W -> u = 1)
    /\ (cy = 0 -> v = 1) /\ (cy = Hh -> v = -1).
Proof.
  intros HW HH Hcx Hcy. eexists _, _. split; [apply clip_fin; lra|].
  assert (Hu : 0 <= cx / W <= 1).
  { split; [unfold Rdiv; apply Rmult_le_pos; [lra|];
            apply Rlt_le, Rinv_0_lt_compat; lra|].
    apply Rmult_le_reg_r with W; [assumption|].
    unfold Rdiv. rewrite Rmult_assoc, Rinv_l, Rmult_1_r by lra. lra. }
  assert (Hv : 0 <= cy / Hh <= 1).
  { split; [unfold Rdiv; apply Rmult_le_pos; [lra|];
            apply Rlt_le, Rinv_0_lt_compat; lra|].
    apply Rmult_le_reg_r with Hh; [assumption|].
    unfold Rdiv. rewrite Rmult_assoc, Rinv_l, Rmult_1_r by lra. lra. }
  split; [field; lra|]. split; [field; lra|].
  split; [lra|]. split; [lra|].
  repeat split; intros ->; field; lra.
Qed.

Lemma clipSpace_of_window_witness :
  0 < 1000 /\ 0 < 800 /\ 0 <= 500 <= 1000 /\ 0 <= 400 <= 800
  /\ exists u v,
       Loop.clipSpaceFromEvent (Loop.mkPage (XFin 1000) (XFin 800) true)
         (Loop.mkPointerEvent "mouse" 0 (XFin 500) (XFin 400) false) = pt u v
       /\ u = 2 * 500 / 1000 - 1 /\ v = 1 - 2 * 400 / 800
       /\ -1 <= u <= 1 /\ -1 <= v <= 1
       /\ (500 = 0 -> u = -1) /\ (500 = 1000 -> u = 1)
       /\ (400 = 0 -> v = 1) /\ (400 = 800 -> v = -1).
Proof.
  split; [lra|]. split; [lra|]. split; [lra|]. split; [lra|].
  exact (clipSpace_of_window 1000 800 500 400 "mouse" 0 false true
           ltac:(lra) ltac:(lra) ltac:(lra) ltac:(lra)).
Defined.

(** *** Easing *)

(** X15: in exact arithmetic the smoothed pointer never overshoots: after
    any number of frames with the target held, each of its coordinates lies
    between the coordinate it started from and the target's, so a pointer
    and a target inside the square [[-1, 1] x [-1, 1]] keep the pointer
    inside it. *)
Theorem easing_never_overshoots (tx ty mx my : R) (n : nat) :
  exists ex ey,
    Loop.ease_frames n (pt tx ty) (pt mx my) = pt ex ey
    /\ Rmin mx tx <= ex <= Rmax mx tx
    /\ Rmin my ty <= ey <= Rmax my ty
    /\ (-1 <= mx <= 1 -> -1 <= tx <= 1 -> -1 <= ex <= 1)
    /\ (-1 <= my <= 1 -> -1 <= ty <= 1 -> -1 <= ey <= 1).
Proof.
  rewrite ease_frames_fin. eexists _, _. split; [reflexivity|].
  set (q := (93 / 100) ^ n).
  assert (Hq : 0 <= q <= 1).
  { split; [apply pow_le; lra|].
    unfold q. rewrite <- (pow1 n). apply pow_incr. lra. }
  unfold Rmin, Rmax.
  destruct (Rle_dec mx tx); destruct (Rle_dec my ty);
    repeat split; intros; nra.
Qed.

(** *** The shock over time *)

Lemma decay_any (age : R) (n : Z) :
  0 <= age -> (0 < n)%Z ->
  (if (XFin age >=! of_Z 0)%js
   then max (of_Z 0) (of_Z 1 -! XFin age /! lit n 10)%js else of_Z 0)
  = XFin (Rmax 0 (1 - age / (IZR n / 10))).
Proof.
  intros Hage Hn. rewrite lit_fin by discriminate.
  assert (Hpos : 0 < IZR n / 10)
    by (apply Rdiv_lt_0_compat; [now apply IZR_lt | lra]).
  cbn [of_Z leb div sub max xreal_number xleb].
  rewrite Rleb_true by assumption.
  rewrite xdiv_fin by lra. rewrite xsub_fin.
  unfold xmax, xltb, Rltb, Rmax.
  destruct (Rlt_dec 0 (1 - age / (IZR n / 10)));
    destruct (Rle_dec 0 (1 - age / (IZR n / 10))); try lra; try reflexivity.
  f_equal. lra.
Qed.

Lemma shock_age_early (t0 dt : R) :
  0 <= t0 -> dt < 0 ->
  Loop.shock_age (XFin (t0 + dt)) (XFin t0) = (XFin t0, XFin (dt / 1000)).
Proof.
  intros Ht Hdt. apply shock_age_live; lra.
Qed.

(** X17: in exact arithmetic, a frame [dt] milliseconds after a press that
    started a shock at [t0 >= 0] does the following.  Up to 4500 ms the
    shock is kept, its age is [dt / 1000], its strength is
    [max(0, 1 - dt / 3200)] and its heat [max(0, 1 - dt / 2200)], so the heat
    is never above the strength and both are in [[0, 1]]; past 4500 ms the
    shock is cleared; and a frame stamped before the press ([dt < 0]) keeps
    the shock with a negative age and no strength. *)
Theorem shock_envelope (w : Loop.page) (st : Loop.state) (t0 dt : R) :
  0 <= t0 -> Loop.start (Loop.shock st) = XFin t0 ->
  let r := Loop.render w (XFin (t0 + dt)) st in
  (0 <= dt <= 4500 ->
     Loop.start (Loop.shock (fst r)) = XFin t0
     /\ Loop.uShockTime (snd r) = XFin (dt / 1000)
     /\ Loop.uShockPower (snd r) = XFin (Rmax 0 (1 - dt / 3200))
     /\ Loop.uShockHeat (snd r) = XFin (Rmax 0 (1 - dt / 2200))
     /\ 0 <= Rmax 0 (1 - dt / 2200)
     /\ Rmax 0 (1 - dt / 2200) <= Rmax 0 (1 - dt / 3200)
     /\ Rmax 0 (1 - dt / 3200) <= 1)
  /\ (4500 < dt ->
     Loop.start (Loop.shock (fst r)) = XFin (-1)
     /\ Loop.uShockTime (snd r) = XFin (-1)
     /\ Loop.uShockPower (snd r) = XFin 0
     /\ Loop.uShockHeat (snd r) = XFin 0)
  /\ (dt < 0 ->
     Loop.start (Loop.shock (fst r)) = XFin t0
     /\ Loop.uShockTime (snd r) = XFin (dt / 1000)
     /\ Loop.uShockPower (snd r) = XFin 0
     /\ Loop.uShockHeat (snd r) = XFin 0).
Proof.
  intros Ht Hst r. unfold r, Loop.render. rewrite Hst. split; [|split]; intros Hdt.
  - rewrite shock_age_live by lra.
    cbn [fst snd Loop.start Loop.shock Loop.uShockTime Loop.uShockPower
         Loop.uShockHeat].
    rewrite (decay_any (dt / 1000) 32), (decay_any (dt / 1000) 22) by (try lia; lra).
    replace (1 - dt / 1000 / (32 / 10)) with (1 - dt / 3200) by field.
    replace (1 - dt / 1000 / (22 / 10)) with (1 - dt / 2200) by field.
    repeat (split; [reflexivity|]).
    unfold Rmax.
    destruct (Rle_dec 0 (1 - dt / 2200)); destruct (Rle_dec 0 (1 - dt / 3200));
      repeat split; lra.
  - rewrite shock_age_expired by lra.
    cbn [fst snd Loop.start Loop.shock Loop.uShockTime Loop.uShockPower
         Loop.uShockHeat].
    cbn [of_Z leb xreal_number xleb]. rewrite Rleb_false by lra.
    repeat split.
  - rewrite shock_age_early by lra.
    cbn [fst snd Loop.start Loop.shock Loop.uShockTime Loop.uShockPower
         Loop.uShockHeat].
    cbn [of_Z leb xreal_number xleb]. rewrite Rleb_false by lra.
    repeat split.
Qed.

Lemma shock_envelope_witness :
  let st := Loop.mkState (pt 0 0) (pt 0 0) (Loop.mkShock (pt 0 0) (XFin 2000)) false in
  0 <= 2000 /\ Loop.start (Loop.shock st) = XFin 2000
  /\ 0 <= 3300 <= 4500
  /\ Loop.uShockPower (snd (Loop.render page_1000_800 (XFin (2000 + 3300)) st))
     = XFin (Rmax 0 (1 - 3300 / 3200)).
Proof.
  intros st. split; [lra|]. split; [reflexivity|]. split; [lra|].
  pose proof (shock_envelope page_1000_800 st 2000 3300 ltac:(lra) eq_refl)
    as (Hlive & _ & _).
  exact (proj1 (proj2 (proj2 (Hlive ltac:(lra))))).
Defined.

(** X18: in exact arithmetic, while no press starts a shock, no shock is
    ever shown: from a state without a shock ([start = -1], as initially or
    after a shock was cleared), after any sequence of other events and
    frames with any time stamps, the start time is still [-1] and a frame
    sends the age [-1] and the strength and heat 0. *)
Theorem no_shock_without_press (w : Loop.page) (st : Loop.state)
    (evs : list Loop.event) (ms : xreal) :
  Loop.start (Loop.shock st) = XFin (-1) ->
  Forall (fun ev => match ev with
                    | Loop.PointerDown e _ => Loop.starts_shock w e = false
                    | _ => True
                    end) evs ->
  let st' := Loop.run w st evs in
  Loop.start (Loop.shock st') = XFin (-1)
  /\ Loop.uShockTime (snd (Loop.render w ms st')) = XFin (-1)
  /\ Loop.uShockPower (snd (Loop.render w ms st')) = XFin 0
  /\ Loop.uShockHeat (snd (Loop.render w ms st')) = XFin 0.
Proof.
  intros Hst Hevs. cbv zeta.
  assert (Hidle : forall t, Loop.shock_age t (XFin (-1)) = (XFin (-1), XFin (-1))).
  { intros t. unfold Loop.shock_age. cbn [of_Z leb xreal_number xleb].
    rewrite Rleb_false by lra. reflexivity. }
  assert (Hkeep : Loop.start (Loop.shock (Loop.run w st evs)) = XFin (-1)).
  { unfold Loop.run. revert st Hst.
    induction Hevs as [|ev evs Hev _ IH]; intros st Hst; [exact Hst|].
    cbn [fold_left]. apply IH.
    destruct ev as [e|e now|e|key|t]; cbn [Loop.step].
    - exact Hst.
    - now rewrite pointerdown_other.
    - unfold Loop.contextmenu. destruct (Loop.contextMenu w && Loop.target_in_menu e);
        rewrite ?shock_openContextMenu; exact Hst.
    - unfold Loop.keydown. destruct (key =? "Escape")%string;
        rewrite ?shock_closeContextMenu; exact Hst.
    - rewrite shock_render, Hst, Hidle. reflexivity. }
  split; [exact Hkeep|].
  unfold Loop.render. rewrite Hkeep, Hidle.
  cbn [snd Loop.uShockTime Loop.uShockPower Loop.uShockHeat].
  cbn [of_Z leb xreal_number xleb]. rewrite Rleb_false by lra.
  repeat split.
Qed.

End IdealLoop.

Lemma no_shock_without_press_witness :
  let w := page_1000_800 (F:=Ideal.xreal) in
  let evs := [Loop.Frame (Ideal.XFin 0);
              Loop.PointerDown (left_click true) (Ideal.XFin 5)] in
  Loop.start (Loop.shock (Loop.initial (F:=Ideal.xreal))) = Ideal.XFin (-1)
  /\ Forall (fun ev => match ev with
                       | Loop.PointerDown e _ => Loop.starts_shock w e = false
                       | _ => True
                       end) evs
  /\ Loop.start (Loop.shock (Loop.run w Loop.initial evs)) = Ideal.XFin (-1).
Proof.
  intros w evs.
  assert (Hevs : Forall (fun ev => match ev with
                       | Loop.PointerDown e _ => Loop.starts_shock w e = false
                       | _ => True
                       end) evs)
    by (apply Forall_cons; [exact I|]; apply Forall_cons; [reflexivity|];
        apply Forall_nil).
  split; [reflexivity|]. split; [exact Hevs|].
  exact (proj1 (IdealLoop.no_shock_without_press w Loop.initial evs Ideal.XNaN
                  eq_refl Hevs)).
Defined.

(** ** Aspect correction, menu placement and pointer speed in exact arithmetic *)

Module IdealPage.
Import Ideal IdealFacts.
Local Open Scope R_scope.

(** X19: whatever [resize] reads, numbers or not, the aspect scale it leaves
    has one component equal to 1 and the other one at least 1 (possibly
    infinite), and never NaN: the lattice is stretched along one axis only
    and never shrunk. *)
Theorem aspectScale_at_least_one (s : Viewport.screen) :
  let at_least_one := fun v => v = XInf false \/ exists r, v = XFin r /\ 1 <= r in
  (x (Viewport.resize s) = XFin 1 /\ at_least_one (y (Viewport.resize s)))
  \/ (y (Viewport.resize s) = XFin 1 /\ at_least_one (x (Viewport.resize s))).
Proof.
  cbv zeta. unfold Viewport.resize. cbv zeta.
  set (aspect := if (_ >! of_Z 0)%js then _ else _). clearbody aspect.
  cbn [of_Z leb ltb xreal_number].
  destruct aspect as [|[|]|r]; cbn [xleb xltb negb x y].
  - left. split; [reflexivity|]. right. exists 1. split; [reflexivity | lra].
  - left. split; [reflexivity|]. right. exists 1. split; [reflexivity | lra].
  - left. split; [reflexivity|]. now left.
  - unfold Rleb, Rltb. destruct (Rle_dec 1 r) as [Hr|Hr]; cbn [x y].
    + left. split; [reflexivity|]. right. now exists r.
    + destruct (Rlt_dec 0 r) as [Hp|Hp]; cbn [x y].
      * right. split; [reflexivity|]. right.
        cbn [div xreal_number]. rewrite xdiv_fin by lra.
        exists (1 / r). split; [reflexivity|].
        apply Rmult_le_reg_r with r; [assumption|].
        unfold Rdiv. rewrite Rmult_assoc, Rinv_l, Rmult_1_r by lra. lra.
      * left. split; [reflexivity|]. right. exists 1. split; [reflexivity | lra].
Qed.

(** X20: in exact arithmetic, for a canvas of positive client size and a
    positive device pixel ratio, the aspect scale is [(1, w / h)] when the
    canvas is at least as wide as high and [(h / w, 1)] otherwise: the pixel
    ratio cancels out and the window size is not used. *)
Theorem aspectScale_of_canvas (dpr cw ch : R) (iw ih : xreal) :
  0 < dpr -> 0 < cw -> 0 < ch ->
  Viewport.resize (Viewport.mkScreen (XFin dpr) (XFin cw) (XFin ch) iw ih)
  = if Rle_dec ch cw then pt 1 (cw / ch) else pt (ch / cw) 1.
Proof.
  intros Hd Hw Hh. unfold Viewport.resize. cbv zeta.
  cbn [Viewport.devicePixelRatio Viewport.clientWidth Viewport.clientHeight
       truthy xreal_number xtruthy].
  rewrite !Reqb_false by lra. cbn [negb].
  cbn [mul of_Z ltb xreal_number xmul xltb].
  assert (Hhd : 0 < ch * dpr) by (apply Rmult_lt_0_compat; assumption).
  rewrite Rltb_true by assumption.
  cbn [div xreal_number]. rewrite xdiv_fin by lra.
  replace (cw * dpr / (ch * dpr)) with (cw / ch) by (field; lra).
  assert (Hq : 0 < cw / ch) by (apply Rdiv_lt_0_compat; assumption).
  cbn [leb ltb xreal_number xleb xltb]. unfold Rleb, Rltb.
  destruct (Rle_dec ch cw) as [Hle|Hgt].
  - destruct (Rle_dec 1 (cw / ch)) as [_|Hn]; [reflexivity|].
    exfalso. apply Hn. apply Rmult_le_reg_r with ch; [assumption|].
    unfold Rdiv. rewrite Rmult_assoc, Rinv_l, Rmult_1_r by lra. lra.
  - destruct (Rle_dec 1 (cw / ch)) as [Hge|_].
    + exfalso. apply Hgt. apply Rmult_le_compat_r with (r := ch) in Hge; [|lra].
      unfold Rdiv in Hge. rewrite Rmult_assoc, Rinv_l, Rmult_1_r in Hge by lra. lra.
    + destruct (Rlt_dec 0 (cw / ch)) as [_|Hn]; [|contradiction].
      rewrite xdiv_fin by lra. unfold pt. f_equal. f_equal. field. lra.
Qed.

Lemma aspectScale_of_canvas_witness :
  0 < 2 /\ 0 < 1920 /\ 0 < 1080
  /\ Viewport.resize (Viewport.mkScreen (XFin 2) (XFin 1920) (XFin 1080) XNaN XNaN)
     = if Rle_dec 1080 1920 then pt 1 (1920 / 1080) else pt (1080 / 1920) 1.
Proof.
  split; [lra|]. split; [lra|]. split; [lra|].
  exact (aspectScale_of_canvas 2 1920 1080 XNaN XNaN ltac:(lra) ltac:(lra) ltac:(lra)).
Defined.

End IdealPage.

Module IdealMenu.
Import Ideal IdealFacts.
Local Open Scope R_scope.

Lemma clamp_fin (c lo hi : R) :
  max (XFin lo) (math_min (XFin c) (XFin hi)) = XFin (Rmax lo (Rmin c hi)).
Proof.
  cbn [max math_min xreal_number xreal_math_min xreal_min xltb]. unfold Rltb.
  unfold Rmax, Rmin.
  destruct (Rlt_dec hi c); destruct (Rle_dec c hi); cbn [xmax xltb]; unfold Rltb;
    repeat match goal with
    | |- context [Rlt_dec ?a ?b] => destruct (Rlt_dec a b)
    | |- context [Rle_dec ?a ?b] => destruct (Rle_dec a b)
    end; try (exfalso; lra); try reflexivity; f_equal; lra.
Qed.

(** X21: in exact arithmetic, with a measured menu of positive size, the
    menu is placed at [max(12, min(click, window - menu - 12))] on each axis:
    never closer than 12 pixels to the left and top edges; at the click
    itself when the click leaves room; entirely inside the window with a
    margin of 12 pixels whenever the window is large enough for that; and
    pinned at 12 pixels, overflowing the far edge, when it is not. *)
Theorem menu_placement (mw mh W Hh cx cy : R) :
  0 < mw -> 0 < mh ->
  exists left top,
    MenuPlace.place (XFin mw) (XFin mh) (XFin W) (XFin Hh) (XFin cx) (XFin cy)
      = (XFin left, XFin top)
    /\ left = Rmax 12 (Rmin cx (W - mw - 12))
    /\ top = Rmax 12 (Rmin cy (Hh - mh - 12))
    /\ 12 <= left /\ 12 <= top
    /\ (12 <= cx <= W - mw - 12 -> left = cx)
    /\ (12 <= cy <= Hh - mh - 12 -> top = cy)
    /\ (24 + mw <= W -> left + mw + 12 <= W)
    /\ (24 + mh <= Hh -> top + mh + 12 <= Hh)
    /\ (W < 24 + mw -> left = 12)
    /\ (Hh < 24 + mh -> top = 12).
Proof.
  intros Hmw Hmh. eexists _, _. split.
  - unfold MenuPlace.place. cbv zeta.
    cbn [truthy xreal_number xtruthy]. rewrite !Reqb_false by lra. cbn [negb].
    cbn [of_Z sub xreal_number]. rewrite !xsub_fin, !clamp_fin. reflexivity.
  - split; [reflexivity|]. split; [reflexivity|].
    unfold Rmax, Rmin.
    destruct (Rle_dec cx (W - mw - 12)); destruct (Rle_dec cy (Hh - mh - 12));
      repeat match goal with
      | |- context [Rle_dec ?a ?b] => destruct (Rle_dec a b)
      end; repeat split; intros; lra.
Qed.

Lemma menu_placement_witness :
  0 < 200 /\ 0 < 140
  /\ exists left top,
       MenuPlace.place (XFin 200) (XFin 140) (XFin 1000) (XFin 800)
         (XFin 950) (XFin 5) = (XFin left, XFin top)
       /\ left = Rmax 12 (Rmin 950 (1000 - 200 - 12))
       /\ top = Rmax 12 (Rmin 5 (800 - 140 - 12))
       /\ 12 <= left /\ 12 <= top
       /\ (12 <= 950 <= 1000 - 200 - 12 -> left = 950)
       /\ (12 <= 5 <= 800 - 140 - 12 -> top = 5)
       /\ (24 + 200 <= 1000 -> left + 200 + 12 <= 1000)
       /\ (24 + 140 <= 800 -> top + 140 + 12 <= 800)
       /\ (1000 < 24 + 200 -> left = 12)
       /\ (800 < 24 + 140 -> top = 12).
Proof.
  split; [lra|]. split; [lra|].
  exact (menu_placement 200 140 1000 800 950 5 ltac:(lra) ltac:(lra)).
Defined.

End IdealMenu.

Module IdealSpeed.
Import Ideal IdealFacts.
Local Open Scope R_scope.

(** X22: in exact arithmetic, [recordPointerSpeed] sets the speed target to
    [min(2.5, 16 * distance / max(1, now - lastTime))], a number between 0
    and 2.5, and remembers the position and the time: the elapsed time is
    clamped to at least one millisecond, so two events with the same time
    stamp, or time stamps out of order, never divide by zero. *)
Theorem recordPointerSpeed_target (cx cy now t v lx ly lt : R) :
  let ps := Speed.recordPointerSpeed (pt cx cy) (XFin now)
              (Speed.mkSpeed (XFin t) (XFin v) (XFin lx) (XFin ly) (XFin lt)) in
  let dist := R_sqrt.sqrt ((cx - lx) * (cx - lx) + (cy - ly) * (cy - ly)) in
  let speed := Rmin (25 / 10) (dist / (Rmax 1 (now - lt) / 16)) in
  ps = Speed.mkSpeed (XFin speed) (XFin v) (XFin cx) (XFin cy) (XFin now)
  /\ 0 <= speed <= 25 / 10.
Proof.
  cbv zeta. set (dist := R_sqrt.sqrt _).
  assert (Hdist : 0 <= dist) by apply sqrt_pos.
  assert (Hdt : 1 <= Rmax 1 (now - lt)) by apply Rmax_l.
  assert (Hq : 0 <= dist / (Rmax 1 (now - lt) / 16)).
  { unfold Rdiv. apply Rmult_le_pos; [assumption|].
    apply Rlt_le, Rinv_0_lt_compat. lra. }
  split.
  - unfold Speed.recordPointerSpeed, pt. cbv zeta.
    cbn [x y Speed.lastX Speed.lastY Speed.lastTime Speed.value].
    rewrite lit_fin by discriminate. rewrite !xsub_fin.
    cbn [hypot xreal_math_hypot xreal_hypot]. fold dist.
    assert (Hmax : max (of_Z 1) (XFin (now - lt)) = XFin (Rmax 1 (now - lt))).
    { cbn [max of_Z xreal_number]. unfold xmax, xltb, Rltb, Rmax.
      destruct (Rlt_dec 1 (now - lt)); destruct (Rle_dec 1 (now - lt));
        try (exfalso; lra); try reflexivity. f_equal. lra. }
    rewrite Hmax. cbn [div of_Z xreal_number]. rewrite !xdiv_fin by lra.
    cbn [math_min xreal_math_min xreal_min xltb]. unfold Rltb, Rmin.
    destruct (Rlt_dec (dist / (Rmax 1 (now - lt) / 16)) (25 / 10));
      destruct (Rle_dec (25 / 10) (dist / (Rmax 1 (now - lt) / 16)));
      try (exfalso; lra); try reflexivity; do 2 f_equal; lra.
  - unfold Rmin. destruct (Rle_dec (25 / 10) (dist / (Rmax 1 (now - lt) / 16))); lra.
Qed.

Lemma frame_fin (t v : R) (lx ly lt : xreal) :
  Speed.frame (Speed.mkSpeed (XFin t) (XFin v) lx ly lt)
  = Speed.mkSpeed
      (XFin (if Rlt_dec (t * (9 / 10)) (1 / 10000) then 0 else t * (9 / 10)))
      (XFin (v + (t - v) * (8 / 100))) lx ly lt.
Proof.
  unfold Speed.frame. cbv zeta. rewrite !lit_fin by discriminate.
  cbn [Speed.target Speed.value Speed.lastX Speed.lastY Speed.lastTime].
  rewrite xsub_fin. cbn [mul add ltb of_Z xreal_number xmul xadd xltb].
  unfold Rltb. destruct (Rlt_dec (t * (9 / 10)) (1 / 10000)); reflexivity.
Qed.

Lemma pow9_97 : 25 / 10 * (9 / 10) ^ 97 < 1 / 10000.
Proof.
  rewrite pow_ratio.
  assert (H10 : 0 < IZR (10 ^ Z.of_nat 97)) by (apply IZR_lt, Z.pow_pos_nonneg; lia).
  assert (Hlt : IZR (9 ^ Z.of_nat 97) / IZR (10 ^ Z.of_nat 97) < 4 / 100000).
  { apply Rdiv_lt_cross; [assumption | lra |].
    rewrite <- !mult_IZR. apply IZR_lt. vm_compute. reflexivity. }
  lra.
Qed.

(** After [n] frames without an event: the target is 0 or the initial target
    times [0.9 ^ n], and in the second case not below the threshold. *)
Lemma frames_fin (n : nat) (t v : R) (lx ly lt : xreal) :
  0 <= t <= 25 / 10 -> 0 <= v <= 25 / 10 ->
  exists t' v',
    Speed.frames n (Speed.mkSpeed (XFin t) (XFin v) lx ly lt)
      = Speed.mkSpeed (XFin t') (XFin v') lx ly lt
    /\ 0 <= v' <= 25 / 10
    /\ (t' = 0 \/ (t' = t * (9 / 10) ^ n /\ ((1 <= n)%nat -> 1 / 10000 <= t'))).
Proof.
  revert t v. induction n as [|n IH]; intros t v Ht Hv.
  - exists t, v. split; [reflexivity|]. split; [assumption|].
    right. split; [cbn [pow]; lra | intros Hn; lia].
  - cbn [Speed.frames]. rewrite frame_fin.
    set (t1 := if Rlt_dec (t * (9 / 10)) (1 / 10000) then 0 else t * (9 / 10)).
    assert (Ht1 : 0 <= t1 <= 25 / 10)
      by (unfold t1; destruct (Rlt_dec (t * (9 / 10)) (1 / 10000)); lra).
    assert (Hv1 : 0 <= v + (t - v) * (8 / 100) <= 25 / 10) by lra.
    destruct (IH t1 _ Ht1 Hv1) as (t' & v' & Heq & Hv' & Ht').
    exists t', v'. split; [exact Heq|]. split; [exact Hv'|].
    destruct Ht' as [Hz|[Hpow Hlow]]; [now left|].
    unfold t1 in *. destruct (Rlt_dec (t * (9 / 10)) (1 / 10000)) as [Hsnap|Hkeep].
    + left. rewrite Hpow. ring.
    + right. split; [rewrite Hpow; cbn [pow]; ring|].
      intros _. destruct n as [|n].
      * rewrite Hpow. cbn [pow]. lra.
      * apply Hlow. lia.
Qed.

(** X23: in exact arithmetic the speed relaxes without new events: starting
    from a target and a value between 0 and 2.5, after any number of frames
    the value is still between 0 and 2.5, the target is 0 or the initial
    target times [0.9 ^ n], and from the 97th frame on the target is exactly
    0 (it is snapped to 0 once below 0.0001). *)
Theorem speed_relaxes (n : nat) (t v : R) (lx ly lt : xreal) :
  0 <= t <= 25 / 10 -> 0 <= v <= 25 / 10 ->
  exists t' v',
    Speed.frames n (Speed.mkSpeed (XFin t) (XFin v) lx ly lt)
      = Speed.mkSpeed (XFin t') (XFin v') lx ly lt
    /\ 0 <= v' <= 25 / 10
    /\ (t' = 0 \/ t' = t * (9 / 10) ^ n)
    /\ ((97 <= n)%nat -> t' = 0).
Proof.
  intros Ht Hv.
  destruct (frames_fin n t v lx ly lt Ht Hv) as (t' & v' & Heq & Hv' & Ht').
  exists t', v'. split; [exact Heq|]. split; [exact Hv'|]. split.
  - destruct Ht' as [Hz|[Hp _]]; [now left | now right].
  - intros Hn. destruct Ht' as [Hz|[Hp Hlow]]; [exact Hz|].
    exfalso. specialize (Hlow ltac:(lia)).
    assert (Hle : (9 / 10) ^ n <= (9 / 10) ^ 97).
    { replace n with (97 + (n - 97))%nat by lia. rewrite pow_add.
      assert (0 <= (9 / 10) ^ (n - 97) <= 1).
      { split; [apply pow_le; lra|].
        rewrite <- (pow1 (n - 97)). apply pow_incr. lra. }
      assert (0 < (9 / 10) ^ 97) by (apply pow_lt; lra). nra. }
    pose proof pow9_97. assert (0 <= (9 / 10) ^ n) by (apply pow_le; lra). nra.
Qed.

Lemma speed_relaxes_witness :
  0 <= 25 / 10 <= 25 / 10 /\ 0 <= 0 <= 25 / 10
  /\ exists t' v',
       Speed.frames 97 (Speed.mkSpeed (XFin (25 / 10)) (XFin 0) XNaN XNaN XNaN)
         = Speed.mkSpeed (XFin t') (XFin v') XNaN XNaN XNaN
       /\ 0 <= v' <= 25 / 10
       /\ (t' = 0 \/ t' = 25 / 10 * (9 / 10) ^ 97)
       /\ ((97 <= 97)%nat -> t' = 0).
Proof.
  split; [lra|]. split; [lra|].
  exact (speed_relaxes 97 (25 / 10) 0 XNaN XNaN XNaN ltac:(lra) ltac:(lra)).
Defined.

End IdealSpeed.


(** ** Mesh levels *)

Section LevelFacts.
Context {F : Type} `{Number F}.
Variable menuButtons : list string.

Lemma markActive_ok (st : Levels.state (F:=F)) :
  In (Levels.currentMeshLevel st) Rich.meshLevels ->
  Levels.meshGrid st
    = Rich.createHexGrid (Rich.cols (Levels.currentMeshLevel st))
        (Rich.rows (Levels.currentMeshLevel st)) ->
  (exists older, Levels.uploads st = Levels.meshGrid st :: older) ->
  level_ok menuButtons (Levels.markActiveMeshButton menuButtons st).
Proof.
  intros Hin Hgrid Hup. unfold Levels.markActiveMeshButton, level_ok.
  destruct menuButtons as [|b bs] eqn:Hb.
  - cbn [length Nat.eqb]. repeat split; try assumption. intros Hne. congruence.
  - cbn [length Nat.eqb Levels.currentMeshLevel Levels.meshGrid Levels.uploads
         Levels.active].
    repeat split; assumption || reflexivity.
Qed.

Lemma initial_ok (flags : list bool) :
  level_ok menuButtons (Levels.initial menuButtons flags).
Proof.
  unfold Levels.initial. cbv zeta. apply markActive_ok.
  - cbn. right. now left.
  - reflexivity.
  - eexists. reflexivity.
Qed.

Lemma applyMeshLevel_ok (level : Rich.meshLevel) (st : Levels.state (F:=F)) :
  In level Rich.meshLevels ->
  level_ok menuButtons (Levels.applyMeshLevel menuButtons level st).
Proof.
  intros Hin. unfold Levels.applyMeshLevel. cbv zeta. apply markActive_ok.
  - exact Hin.
  - reflexivity.
  - eexists. reflexivity.
Qed.

Lemma step_ok (st : Levels.state (F:=F)) (ev : Levels.event) :
  level_ok menuButtons st -> level_ok menuButtons (Levels.step menuButtons st ev).
Proof.
  intros Hst. destruct ev as [[wanted|]|]; cbn [Levels.step Levels.click].
  - destruct (find (fun item => (Rich.id item =? wanted)%string) Rich.meshLevels)
      as [level|] eqn:Hfind; [|exact Hst].
    destruct (negb (Rich.id level =? Rich.id (Levels.currentMeshLevel st))%string);
      [|exact Hst].
    apply applyMeshLevel_ok. now apply find_some in Hfind.
  - exact Hst.
  - destruct Hst as (Hin & Hgrid & Hup & _). now apply markActive_ok.
Qed.

(** X24: after any sequence of menu clicks and menu openings from the state
    the load handler sets up, the current level is one of the three of the
    table, the grid is the one the builder returns for it, that grid is the
    last one uploaded to the buffers, and each button is marked active
    exactly when its level is the current one. *)
Theorem mesh_state_consistent (flags : list bool) (evs : list Levels.event) :
  level_ok menuButtons
    (Levels.run menuButtons (Levels.initial menuButtons flags) evs).
Proof.
  unfold Levels.run. generalize (initial_ok flags).
  generalize (Levels.initial (F:=F) menuButtons flags).
  induction evs as [|ev evs IH]; intros st Hst; [exact Hst|].
  cbn [fold_left]. apply IH, step_ok, Hst.
Qed.

Lemma find_level (level : Rich.meshLevel) :
  In level Rich.meshLevels ->
  find (fun item => (Rich.id item =? Rich.id level)%string) Rich.meshLevels
  = Some level.
Proof.
  intros [<-|[<-|[<-|[]]]]; reflexivity.
Qed.

(** X25: a click on the button of a level of the table other than the
    current one switches to it, builds its grid and uploads it once; a click
    on the button of the current level, on a button of an unknown level or
    outside the buttons changes nothing: no grid is built and nothing is
    uploaded. *)
Theorem click_switches_level (level : Rich.meshLevel) (wanted : string)
    (st : Levels.state (F:=F)) :
  In level Rich.meshLevels ->
  (Rich.id level <> Rich.id (Levels.currentMeshLevel st) ->
     let st' := Levels.click menuButtons (Some (Rich.id level)) st in
     Levels.currentMeshLevel st' = level
     /\ Levels.meshGrid st' = Rich.createHexGrid (Rich.cols level) (Rich.rows level)
     /\ Levels.uploads st' = Levels.meshGrid st' :: Levels.uploads st)
  /\ Levels.click menuButtons (Some (Rich.id (Levels.currentMeshLevel st))) st = st
  /\ ((forall item, In item Rich.meshLevels -> Rich.id item <> wanted) ->
      Levels.click menuButtons (Some wanted) st = st)
  /\ Levels.click menuButtons None st = st.
Proof.
  intros Hin. split; [|split; [|split]].
  - intros Hne. cbv zeta. unfold Levels.click. rewrite (find_level level Hin).
    apply String.eqb_neq in Hne. rewrite Hne. cbn [negb].
    unfold Levels.applyMeshLevel, Levels.markActiveMeshButton, Levels.uploadGridBuffers.
    cbv zeta. destruct (length menuButtons =? 0)%nat; repeat split.
  - unfold Levels.click.
    destruct (find _ Rich.meshLevels) as [found|] eqn:Hfind; [|reflexivity].
    apply find_some in Hfind as [_ Heq]. rewrite Heq. reflexivity.
  - intros Hunknown. unfold Levels.click.
    destruct (find _ Rich.meshLevels) as [found|] eqn:Hfind; [|reflexivity].
    apply find_some in Hfind as [Hf Heq]. apply String.eqb_eq in Heq.
    now apply Hunknown in Hf.
  - reflexivity.
Qed.

End LevelFacts.

Lemma click_switches_level_witness :
  let dense := Rich.mkLevel "dense" "Dense mesh" 120 42 in
  let st := Levels.initial (F:=float) ["minimal"%string; "balanced"%string; "dense"%string]
              [false; false; false] in
  In dense Rich.meshLevels
  /\ Levels.click ["minimal"%string; "balanced"%string; "dense"%string] None st = st.
Proof.
  intros dense st.
  assert (Hin : In dense Rich.meshLevels) by (right; right; left; reflexivity).
  split; [exact Hin|].
  exact (proj2 (proj2 (proj2 (click_switches_level
                                ["minimal"%string; "balanced"%string; "dense"%string]
                                dense ""%string st Hin)))).
Defined.

(** ** Shaders and programs *)

Section GLFacts.
Import GL.
Variable d : driver.

Lemma remove_fresh (id : nat) (l : list nat) :
  (forall x, In x l -> (x < id)%nat) -> remove Nat.eq_dec id l = l.
Proof.
  intros Hl. apply notin_remove. intros Hin. apply Hl in Hin. lia.
Qed.

Lemma createShader_effect (gl : context) (type : shaderType) (src : string) :
  numbered gl ->
  let r := createShader d gl type src in
  fst r = (if COMPILE_STATUS d type src then Some (created gl) else None)
  /\ created (snd r) = S (created gl)
  /\ live_shaders (calls (snd r))
     = (if COMPILE_STATUS d type src then [created gl] else [])
       ++ live_shaders (calls gl)
  /\ live_programs (calls (snd r)) = live_programs (calls gl)
  /\ errors (calls (snd r))
     = ((if COMPILE_STATUS d type src then 0 else 1) + errors (calls gl))%nat.
Proof.
  intros Hgl. unfold createShader, fresh, emit. cbv zeta.
  destruct (COMPILE_STATUS d type src); cbn; repeat split.
  destruct (Nat.eq_dec (created gl) (created gl)) as [_|Hne]; [|congruence].
  apply remove_fresh. intros x Hx. apply Hgl. now left.
Qed.

Lemma createShader_numbered (gl : context) (type : shaderType) (src : string) :
  numbered gl -> numbered (snd (createShader d gl type src)).
Proof.
  intros Hgl. destruct (createShader_effect gl type src Hgl)
    as (_ & Hc & Hs & Hp & _).
  intros id. rewrite Hc, Hs, Hp. intros [Hin|Hin].
  - apply in_app_or in Hin as [Hin|Hin].
    + destruct (COMPILE_STATUS d type src); [|destruct Hin].
      destruct Hin as [<-|[]]. lia.
    + enough (id < created gl)%nat by lia. apply Hgl. now left.
  - enough (id < created gl)%nat by lia. apply Hgl. now right.
Qed.

(** X26: a program is returned exactly when both sources compile and the
    two link, and it is then the one object the call leaves in the list of
    programs; a program that does not link is deleted, and none is created
    when a shader did not compile.  An error is written to the console for
    each shader that does not compile and for a link that fails, so the
    result is null exactly when something was reported. *)
Theorem createProgram_result (gl : context) (vs fs : string) :
  numbered gl ->
  let ok := COMPILE_STATUS d VERTEX_SHADER vs
            && COMPILE_STATUS d FRAGMENT_SHADER fs
            && LINK_STATUS d vs fs in
  let r := createProgram d gl vs fs in
  fst r = (if ok then Some (created gl + 2)%nat else None)
  /\ live_programs (calls (snd r))
     = (if ok then [(created gl + 2)%nat] else []) ++ live_programs (calls gl)
  /\ (ok = true <-> errors (calls (snd r)) = errors (calls gl)).
Proof.
  intros Hgl ok r. subst ok r. unfold createProgram.
  pose proof (createShader_effect gl VERTEX_SHADER vs Hgl) as Hv.
  pose proof (createShader_numbered gl VERTEX_SHADER vs Hgl) as Hgl1.
  destruct (createShader d gl VERTEX_SHADER vs) as [v gl1].
  cbn [fst snd] in Hv, Hgl1. destruct Hv as (Hv & Hc1 & _ & Hp1 & He1).
  pose proof (createShader_effect gl1 FRAGMENT_SHADER fs Hgl1) as Hf.
  pose proof (createShader_numbered gl1 FRAGMENT_SHADER fs Hgl1) as Hgl2.
  destruct (createShader d gl1 FRAGMENT_SHADER fs) as [f gl2].
  cbn [fst snd] in Hf, Hgl2. destruct Hf as (Hf & Hc2 & _ & Hp2 & He2).
  rewrite Hc1 in Hc2. rewrite Hp1 in Hp2. rewrite He1 in He2.
  replace (created gl + 2)%nat with (created gl2) by lia.
  destruct (COMPILE_STATUS d VERTEX_SHADER vs),
    (COMPILE_STATUS d FRAGMENT_SHADER fs); subst v f;
    cbn [andb fst snd app];
    try (split; [reflexivity|split; [exact Hp2|split; [discriminate|lia]]]).
  unfold fresh, emit. cbv zeta.
  destruct (LINK_STATUS d vs fs); cbn [negb fst snd calls created live_programs
                                       errors app].
  - split; [reflexivity|]. split; [now rewrite Hp2|]. split; [lia|reflexivity].
  - split; [reflexivity|]. split; [|split; [discriminate|lia]].
    rewrite remove_cons, Hp2. apply remove_fresh. intros x Hx.
    enough (x < created gl)%nat by lia. apply Hgl. now right.
Qed.

(** X27: whatever the outcome, the shaders that compiled stay alive after
    the call: only a shader that does not compile is deleted.  So a vertex
    shader that compiled is kept when the fragment shader fails, and both
    are kept when the link fails and null is returned. *)
Theorem createProgram_keeps_compiled_shaders (gl : context) (vs fs : string) :
  numbered gl ->
  live_shaders (calls (snd (createProgram d gl vs fs)))
  = (if COMPILE_STATUS d FRAGMENT_SHADER fs then [S (created gl)] else [])
    ++ (if COMPILE_STATUS d VERTEX_SHADER vs then [created gl] else [])
    ++ live_shaders (calls gl).
Proof.
  intros Hgl. unfold createProgram.
  pose proof (createShader_effect gl VERTEX_SHADER vs Hgl) as Hv.
  pose proof (createShader_numbered gl VERTEX_SHADER vs Hgl) as Hgl1.
  destruct (createShader d gl VERTEX_SHADER vs) as [v gl1].
  cbn [fst snd] in Hv, Hgl1. destruct Hv as (Hv & Hc1 & Hs1 & _).
  pose proof (createShader_effect gl1 FRAGMENT_SHADER fs Hgl1) as Hf.
  destruct (createShader d gl1 FRAGMENT_SHADER fs) as [f gl2].
  cbn [fst snd] in Hf. destruct Hf as (Hf & _ & Hs2 & _).
  rewrite Hc1, Hs1 in Hs2.
  destruct (COMPILE_STATUS d VERTEX_SHADER vs),
    (COMPILE_STATUS d FRAGMENT_SHADER fs); subst v f;
    cbn [snd]; try exact Hs2.
  unfold fresh, emit. cbv zeta.
  destruct (LINK_STATUS d vs fs); cbn [negb snd calls live_shaders]; exact Hs2.
Qed.

End GLFacts.

Lemma numbered_new (n : nat) : GL.numbered (GL.mkContext n []).
Proof.
  intros id [[]|[]].
Qed.

Lemma createProgram_result_witness :
  let d := GL.mkDriver (fun _ src => negb (src =? "")%string) (fun _ _ => true) in
  let r := GL.createProgram d (GL.mkContext 0 []) "void main() {}" "" in
  fst r = None /\ GL.live_programs (GL.calls (snd r)) = [].
Proof.
  intros d r.
  destruct (createProgram_result d (GL.mkContext 0 []) "void main() {}" ""
              (numbered_new 0)) as (Hr & Hp & _).
  split; [exact Hr|exact Hp].
Defined.

Lemma createProgram_keeps_compiled_shaders_witness :
  let d := GL.mkDriver (fun _ src => negb (src =? "")%string) (fun _ _ => true) in
  GL.live_shaders
    (GL.calls (snd (GL.createProgram d (GL.mkContext 0 []) "void main() {}" "")))
  = [0%nat].
Proof.
  intros d.
  exact (createProgram_keeps_compiled_shaders d (GL.mkContext 0 [])
           "void main() {}" "" (numbered_new 0)).
Defined.


(** ** The builder on the heap *)

Lemma nth_error_upd_eq {A} (r : nat) (v a : A) (l : list A) :
  nth_error l r = Some a -> nth_error (upd r v l) r = Some v.
Proof.
  revert r. induction l as [|h t IH]; intros [|r]; cbn; try discriminate; auto.
Qed.

Lemma nth_error_upd_neq {A} (r r' : nat) (v : A) (l : list A) :
  r <> r' -> nth_error (upd r v l) r' = nth_error l r'.
Proof.
  revert r r'. induction l as [|h t IH]; intros [|r] [|r'] Hne; cbn; auto; try lia.
Qed.

Lemma upd_upd {A} (r : nat) (v v' : A) (l : list A) :
  upd r v (upd r v' l) = upd r v l.
Proof.
  revert r. induction l as [|h t IH]; intros [|r]; cbn; auto. now rewrite IH.
Qed.

Lemma upd_same {A} (r : nat) (v : A) (l : list A) :
  nth_error l r = Some v -> upd r v l = l.
Proof.
  revert r. induction l as [|h t IH]; intros [|r]; cbn; try discriminate.
  - now intros [= ->].
  - intros Hr. now rewrite IH.
Qed.

Lemma upd_last {A} (l : list A) (v v' : A) : upd (length l) v (l ++ [v']) = l ++ [v].
Proof. apply upd_app. Qed.

Lemma nth_error_last {A} (l : list A) (v : A) : nth_error (l ++ [v]) (length l) = Some v.
Proof. rewrite nth_error_app2 by lia. now rewrite Nat.sub_diag. Qed.

Lemma flat_map_single {A B} (f : A -> B) (l : list A) :
  flat_map (fun a => [f a]) l = map f l.
Proof. induction l as [|a l IH]; cbn; [reflexivity|now rewrite IH]. Qed.

Section StoreFacts.
Context {F : Type} `{Number F} {G : Type}.
Import Store.

Lemma read_at (w : world F G) (r : nat) (o : object F) :
  nth_error (heap w) r = Some o -> read r w = (o, w).
Proof. intros Hr. unfold read. now rewrite (nth_error_nth _ _ _ Hr). Qed.

Lemma lawful_points : lawful (F:=F) points.
Proof. intros l. reflexivity. Qed.

Lemma lawful_numbers : lawful (F:=F) numbers.
Proof. intros l. reflexivity. Qed.

Lemma elements_at {X} (K : kind F X) (w : world F G) (r : nat) (l : list X) :
  lawful K -> nth_error (heap w) r = Some (wrap K l) -> elements K r w = (l, w).
Proof.
  intros HK Hr. unfold elements, bind. rewrite (read_at w r _ Hr), HK. reflexivity.
Qed.

Section Appends.
Context {X : Type} (K : kind F X) (HK : lawful K) (r : nat).

Lemma appends_ret : appends (G:=G) K r (ret tt) [].
Proof.
  intros w acc Hr. unfold ret. rewrite app_nil_r, (upd_same _ _ _ Hr).
  now destruct w.
Qed.

Lemma appends_push (xs : list X) : appends (G:=G) K r (push K r xs) xs.
Proof.
  intros w acc Hr. unfold push, bind. rewrite (read_at w r _ Hr), HK. reflexivity.
Qed.

Lemma appends_seq (m1 m2 : M F G unit) (k1 k2 : list X) :
  appends K r m1 k1 -> appends K r m2 k2 ->
  appends K r (bind m1 (fun _ => m2)) (k1 ++ k2).
Proof.
  intros H1 H2 w acc Hr. unfold bind. rewrite (H1 w acc Hr).
  rewrite (H2 _ (acc ++ k1)) by (cbn [heap]; apply (nth_error_upd_eq _ _ _ _ Hr)).
  cbn [heap rest]. now rewrite upd_upd, app_assoc.
Qed.

Lemma appends_for {A} (l : list A) (body : A -> M F G unit) (k : A -> list X) :
  (forall a, appends K r (body a) (k a)) ->
  appends K r (for_ l body) (flat_map k l).
Proof.
  intros Hbody. induction l as [|a l IH]; cbn [for_ flat_map].
  - apply appends_ret.
  - apply appends_seq; [apply Hbody|exact IH].
Qed.

Lemma for_appends_run {A} (l : list A) (body : A -> M F G unit) (k : A -> list X)
    (w : world F G) (acc : list X) :
  (forall a, appends K r (body a) (k a)) ->
  nth_error (heap w) r = Some (wrap K acc) ->
  for_ l body w
  = (tt, mkWorld (upd r (wrap K (acc ++ flat_map k l)) (heap w)) (rest w)).
Proof. intros Hbody Hr. now apply appends_for. Qed.

End Appends.

(** A loop that reads each point and stores two numbers for it: the loops
    that fill the position buffer. *)
Lemma fill_loop (pts r : nat) (elems : list (point F)) (fx fy : point F -> F)
    (d : point F) (l : list nat) (w : world F G) (acc : list F) :
  pts <> r ->
  nth_error (heap w) pts = Some (PointArr elems) ->
  nth_error (heap w) r = Some (Float32Arr acc) ->
  for_ l (fun i =>
    bind (elements points pts) (fun elems =>
    bind (store32 r (i * 2) (fx (nth i elems d))) (fun _ =>
    store32 r (i * 2 + 1) (fy (nth i elems d))))) w
  = (tt, mkWorld
           (upd r (Float32Arr
              (fold_left (fun (positions : list F) (i : nat) =>
                 upd (i * 2 + 1) (fround (fy (nth i elems d)))
                   (upd (i * 2) (fround (fx (nth i elems d))) positions)) l acc))
              (heap w))
           (rest w)).
Proof.
  intros Hne. revert w acc. induction l as [|i l IH]; intros w acc Hpts Hr.
  - cbn [for_ fold_left]. unfold ret. rewrite (upd_same _ _ _ Hr). now destruct w.
  - cbn [for_ fold_left]. unfold bind at 1 2.
    rewrite (elements_at points w pts elems lawful_points Hpts).
    unfold bind at 1. unfold store32 at 1, bind at 1.
    rewrite (read_at w r _ Hr). unfold write at 1.
    unfold store32 at 1, bind at 1.
    rewrite (read_at _ r (Float32Arr _))
      by (cbn [heap]; apply (nth_error_upd_eq _ _ _ _ Hr)).
    unfold write at 1. cbn [heap rest]. rewrite upd_upd.
    erewrite IH.
    + cbn [heap rest]. rewrite upd_upd. reflexivity.
    + cbn [heap]. now rewrite nth_error_upd_neq by auto.
    + cbn [heap]. apply (nth_error_upd_eq _ _ _ _ Hr).
Qed.

End StoreFacts.

Section RichRunFacts.
Context {F : Type} `{Number F} {G : Type}.
Import Store.

Lemma buildHexPoints_run (cols rows : Z) (h : F) (w : world F G) :
  RichRun.buildHexPoints cols rows h w
  = (length (heap w),
     mkWorld (heap w ++ [PointArr (Rich.buildHexPoints cols rows h)]) (rest w)).
Proof.
  unfold RichRun.buildHexPoints, bind at 1, alloc. unfold bind at 1.
  rewrite (for_appends_run points (length (heap w)) (range rows) _
             (fun j => map (fun i =>
                mkPoint (of_Z i +! of_Z (j mod 2) *! lit 5 10)%js
                        (of_Z j *! h)%js) (range cols)) _ []).
  - unfold ret. cbn [heap rest app wrap points]. rewrite upd_last. reflexivity.
  - intros j. cbv zeta. rewrite <- flat_map_single.
    apply appends_for. intros i. apply appends_push. exact lawful_points.
  - cbn [heap]. apply nth_error_last.
Qed.

Lemma computeBounds_run (pts : nat) (elems : list (point F)) (w : world F G) :
  nth_error (heap w) pts = Some (PointArr elems) ->
  RichRun.computeBounds pts w = (Rich.computeBounds elems, w).
Proof.
  intros Hpts. unfold RichRun.computeBounds, bind.
  rewrite (elements_at points w pts elems lawful_points Hpts). reflexivity.
Qed.

Lemma normalizePositions_run (pts : nat) (elems : list (point F))
    (b : Rich.bounds) (widen : F) (w : world F G) :
  nth_error (heap w) pts = Some (PointArr elems) ->
  RichRun.normalizePositions pts b widen w
  = (length (heap w),
     mkWorld (heap w ++ [Float32Arr (Rich.normalizePositions elems b widen)])
       (rest w)).
Proof.
  intros Hpts. unfold RichRun.normalizePositions, bind at 1.
  rewrite (elements_at points w pts elems lawful_points Hpts).
  unfold bind at 1, alloc. unfold bind at 1.
  assert (Hlt : (pts < length (heap w))%nat)
    by (apply nth_error_Some; rewrite Hpts; discriminate).
  rewrite (fill_loop pts (length (heap w)) elems
             (fun p => ((((x p -! Rich.b_minX b) /! Rich.spanX b) *! of_Z 2 -! of_Z 1)
                        *! widen)%js)
             (fun p => (((y p -! Rich.b_minY b) /! Rich.spanY b) *! of_Z 2 -! of_Z 1)%js)
             (mkPoint (of_Z 0) (of_Z 0)) _ _
             (repeat (of_Z 0) (length elems * 2))).
  - unfold ret. cbn [heap rest]. rewrite upd_last. reflexivity.
  - lia.
  - cbn [heap]. rewrite nth_error_app1 by assumption. exact Hpts.
  - cbn [heap]. apply nth_error_last.
Qed.

Lemma buildHexEdges_run (cols rows : Z) (w : world F G) :
  exists edges,
    RichRun.buildHexEdges cols rows w
    = (S (length (heap w)),
       mkWorld (heap w ++ [NumberArr edges; Uint16Arr (Rich.buildHexEdges cols rows)])
         (rest w)).
Proof.
  eexists. unfold RichRun.buildHexEdges, bind at 1, alloc. unfold bind at 1.
  rewrite (for_appends_run numbers (length (heap w)) (range rows) _
             (fun j => flat_map (fun i =>
                flat_map (fun '(dx, dy) =>
                  if (i + dx <? 0)%Z || (i + dx >=? cols)%Z
                     || (j + dy <? 0)%Z || (j + dy >=? rows)%Z
                  then []
                  else [(j * cols + i)%Z; ((j + dy) * cols + (i + dx))%Z])
                  (nth (Z.to_nat (j mod 2)) Rich.neighborOffsets []))
                (range cols)) _ []).
  - unfold bind at 1. cbn [heap rest app wrap numbers]. rewrite upd_last.
    erewrite elements_at;
      [|exact lawful_numbers|cbn [heap]; apply nth_error_last].
    cbn [heap rest]. rewrite length_app. cbn [length].
    rewrite Nat.add_1_r, <- app_assoc. reflexivity.
  - intros j. cbv zeta. apply appends_for. intros i.
    apply appends_for. intros [dx dy].
    destruct (_ || _ || _ || _).
    + apply appends_ret.
    + apply appends_push. exact lawful_numbers.
  - cbn [heap]. apply nth_error_last.
Qed.

Lemma rich_createHexGrid_run (cols rows : Z) (w : world F G) :
  exists raw edges,
    RichRun.createHexGrid cols rows w
    = ((S (length (heap w)), S (S (S (length (heap w))))),
       mkWorld (heap w ++ [PointArr raw;
                           Float32Arr (positions (Rich.createHexGrid cols rows));
                           NumberArr edges;
                           Uint16Arr (indices (Rich.createHexGrid cols rows))])
         (rest w)).
Proof.
  unfold RichRun.createHexGrid. cbv zeta. unfold bind at 1.
  rewrite buildHexPoints_run. unfold bind at 1.
  erewrite computeBounds_run by (cbn [heap]; apply nth_error_last).
  unfold bind at 1.
  erewrite normalizePositions_run by (cbn [heap]; apply nth_error_last).
  unfold bind at 1.
  destruct (buildHexEdges_run cols rows
              (mkWorld ((heap w ++ [PointArr (Rich.buildHexPoints cols rows
                                               (sqrt (of_Z 3) *! lit 5 10)%js)])
                        ++ [Float32Arr (Rich.normalizePositions
                              (Rich.buildHexPoints cols rows (sqrt (of_Z 3) *! lit 5 10)%js)
                              (Rich.computeBounds
                                 (Rich.buildHexPoints cols rows (sqrt (of_Z 3) *! lit 5 10)%js))
                              (lit 125 100))])
                 (rest w))) as [edges Hedges].
  cbn [heap rest] in Hedges |- *. rewrite Hedges.
  eexists. exists edges. unfold ret. rewrite !length_app. cbn [length].
  rewrite !Nat.add_1_r, <- !app_assoc. reflexivity.
Qed.

End RichRunFacts.

Lemma nth_error_tail {A} (l t : list A) (k : nat) :
  nth_error (l ++ t) (length l + k) = nth_error t k.
Proof. rewrite nth_error_app2 by lia. f_equal. lia. Qed.

Lemma upd_tail {A} (l t : list A) (k : nat) (v : A) :
  upd (length l + k) v (l ++ t) = l ++ upd k v t.
Proof.
  induction l as [|h l IH]; cbn [length app Nat.add upd]; [reflexivity|].
  now rewrite IH.
Qed.

Lemma nth_error_head {A} (l t : list A) (v : A) :
  nth_error (l ++ v :: t) (length l) = Some v.
Proof. rewrite nth_error_app2 by lia. now rewrite Nat.sub_diag. Qed.

Section SimpleRunFacts.
Context {F : Type} `{Number F} {G : Type}.
Import Store.

Lemma simple_createHexGrid_run (cols rows : Z) (w : world F G) :
  exists raw edges,
    SimpleRun.createHexGrid cols rows w
    = ((length (heap w) + 2, length (heap w) + 3)%nat,
       mkWorld (heap w ++ [PointArr raw;
                           NumberArr edges;
                           Float32Arr (positions (Simple.createHexGrid cols rows));
                           Uint16Arr (indices (Simple.createHexGrid cols rows))])
         (rest w)).
Proof.
  unfold SimpleRun.createHexGrid. cbv zeta.
  unfold bind at 1, alloc at 1. unfold bind at 1, alloc at 1.
  cbn [heap rest]. rewrite <- app_assoc. cbn [app].
  rewrite length_app. cbn [length].
  (* the points *)
  unfold bind at 1.
  rewrite (for_appends_run points (length (heap w)) (range rows) _
             (fun j => map (fun i =>
                mkPoint (of_Z i +! of_Z (j mod 2) *! lit 5 10)%js
                        (of_Z j *! (sqrt (of_Z 3) *! lit 5 10 *! of_Z 1))%js)
                (range cols)) _ []);
    [|intros j; rewrite <- flat_map_single; apply appends_for; intros i;
      apply appends_push; exact lawful_points
     |cbn [heap]; apply nth_error_head].
  cbn [heap rest app wrap points]. rewrite upd_app.
  set (pts := flat_map _ (range rows)).
  (* the bounds *)
  unfold bind at 1.
  rewrite (elements_at points _ (length (heap w)) pts lawful_points)
    by (cbn [heap]; apply nth_error_head).
  (* the positions *)
  unfold bind at 1, alloc at 1. cbn [heap rest].
  rewrite length_app. cbn [length].
  rewrite <- app_assoc. cbn [app].
  unfold bind at 1.
  set (b := fold_left Simple.bounds_step pts _).
  rewrite (fill_loop (length (heap w)) (length (heap w) + 2) pts
             (fun p => ((((x p -! minX b) /! ((maxX b -! minX b) ||! of_Z 1))
                         *! of_Z 2 -! of_Z 1) *! lit 125 100)%js)
             (fun p => (((y p -! minY b) /! ((maxY b -! minY b) ||! of_Z 1))
                        *! of_Z 2 -! of_Z 1)%js)
             (mkPoint (of_Z 0) (of_Z 0)) _ _
             (repeat (of_Z 0) (length pts * 2)));
    [|lia
     |cbn [heap]; apply nth_error_head
     |cbn [heap]; rewrite nth_error_tail; reflexivity].
  cbn [heap rest]. rewrite upd_tail. cbn [upd].
  set (pos := fold_left _ (seq 0 (length pts)) _).
  (* the segments *)
  unfold bind at 1.
  rewrite (for_appends_run numbers (length (heap w) + 1) (range rows) _
             (fun j => flat_map (fun i =>
                (if (i + 1 <? cols)%Z
                 then [(j * cols + i)%Z; (j * cols + (i + 1))%Z] else []) ++
                (if (j + 1 <? rows)%Z then
                   [(j * cols + i)%Z; ((j + 1) * cols + i)%Z] ++
                   (let di := if negb (j mod 2 =? 0)%Z then (i + 1)%Z else (i - 1)%Z in
                    if (di >=? 0)%Z && (di <? cols)%Z
                    then [(j * cols + i)%Z; ((j + 1) * cols + di)%Z] else [])
                 else []))
                (range cols)) _ []);
    [|intros j; apply appends_for; intros i; apply appends_seq;
      [destruct (i + 1 <? cols)%Z;
       [apply appends_push; exact lawful_numbers|apply appends_ret]
      |destruct (j + 1 <? rows)%Z;
       [apply appends_seq;
        [apply appends_push; exact lawful_numbers
        |cbv zeta; destruct (_ && _);
         [apply appends_push; exact lawful_numbers|apply appends_ret]]
       |apply appends_ret]]
     |cbn [heap]; rewrite nth_error_tail; reflexivity].
  cbn [heap rest app wrap numbers]. rewrite upd_tail. cbn [upd].
  set (es := flat_map _ (range rows)).
  unfold bind at 1.
  rewrite (elements_at numbers _ (length (heap w) + 1) es lawful_numbers)
    by (cbn [heap]; rewrite nth_error_tail; reflexivity).
  unfold bind at 1, alloc at 1. cbn [heap rest]. unfold ret.
  rewrite length_app. cbn [length]. rewrite <- app_assoc. cbn [app].
  exists pts, es. reflexivity.
Qed.

End SimpleRunFacts.

Section Determinism.
Context {F : Type} `{Number F} {G : Type}.
Import Store.

Lemma returns_twice (run : M F G (nat * nat)) (g : grid F) :
  (forall w, returns_grid run w g) -> forall w, two_calls_agree run w.
Proof.
  intros Hrun w. unfold two_calls_agree.
  pose proof (Hrun w) as H1. unfold returns_grid in H1.
  destruct (run w) as [[p1 i1] w'].
  destruct H1 as (Hp1 & Hi1 & _ & _ & _ & _).
  pose proof (Hrun w') as H2. unfold returns_grid in H2.
  destruct (run w') as [[p2 i2] w''].
  destruct H2 as (Hp2 & Hi2 & Hfp & Hfi & Hframe & _).
  assert (p1 < length (heap w'))%nat by (apply nth_error_Some; rewrite Hp1; discriminate).
  assert (i1 < length (heap w'))%nat by (apply nth_error_Some; rewrite Hi1; discriminate).
  split; [lia|]. split; [lia|].
  exists (positions g), (indices g). auto.
Qed.

Lemma simple_returns_grid (cols rows : Z) (w : world F G) :
  returns_grid (SimpleRun.createHexGrid cols rows) w (Simple.createHexGrid cols rows).
Proof.
  unfold returns_grid.
  destruct (simple_createHexGrid_run cols rows w) as (raw & edges & ->).
  cbn [heap rest]. split; [|split; [|split; [|split; [|split]]]].
  - rewrite nth_error_tail. reflexivity.
  - rewrite nth_error_tail. reflexivity.
  - lia.
  - lia.
  - intros r o Hr. rewrite nth_error_app1; [exact Hr|].
    apply nth_error_Some. rewrite Hr. discriminate.
  - reflexivity.
Qed.

Lemma rich_returns_grid (cols rows : Z) (w : world F G) :
  returns_grid (RichRun.createHexGrid cols rows) w (Rich.createHexGrid cols rows).
Proof.
  unfold returns_grid.
  destruct (rich_createHexGrid_run cols rows w) as (raw & edges & ->).
  cbn [heap rest]. split; [|split; [|split; [|split; [|split]]]].
  - rewrite <- Nat.add_1_r, nth_error_tail. reflexivity.
  - replace (S (S (S (length (heap w))))) with (length (heap w) + 3)%nat by lia.
    rewrite nth_error_tail. reflexivity.
  - lia.
  - lia.
  - intros r o Hr. rewrite nth_error_app1; [exact Hr|].
    apply nth_error_Some. rewrite Hr. discriminate.
  - reflexivity.
Qed.

(** C8: whatever the state of the page, a call of the builder (either
    variant) returns two new buffers that hold the positions and the indices
    which [cols] and [rows] alone determine, and changes neither an object
    that existed nor the rest of the page; so two calls with the same
    [(cols, rows)], in any two states, return buffers with the same contents,
    and after two calls in a row both results are alive, in different
    buffers with equal contents. *)
Theorem createHexGrid_deterministic (cols rows : Z) (w1 w2 : world F G) :
  (returns_grid (SimpleRun.createHexGrid cols rows) w1 (Simple.createHexGrid cols rows)
   /\ returns_grid (SimpleRun.createHexGrid cols rows) w2 (Simple.createHexGrid cols rows)
   /\ two_calls_agree (SimpleRun.createHexGrid cols rows) w1)
  /\ (returns_grid (RichRun.createHexGrid cols rows) w1 (Rich.createHexGrid cols rows)
      /\ returns_grid (RichRun.createHexGrid cols rows) w2 (Rich.createHexGrid cols rows)
      /\ two_calls_agree (RichRun.createHexGrid cols rows) w1).
Proof.
  split; (split; [|split]).
  - apply simple_returns_grid.
  - apply simple_returns_grid.
  - apply (returns_twice _ (Simple.createHexGrid cols rows)). intros w.
    apply simple_returns_grid.
  - apply rich_returns_grid.
  - apply rich_returns_grid.
  - apply (returns_twice _ (Rich.createHexGrid cols rows)). intros w.
    apply rich_returns_grid.
Qed.

End Determinism.

(** ** The static files of the build *)

Lemma append_assoc (a b c : string) : ((a ++ b) ++ c = a ++ (b ++ c))%string.
Proof.
  induction a as [|ch a IH]; cbn; [reflexivity|now rewrite IH].
Qed.

Lemma append_inj (a b c : string) : (a ++ b = a ++ c)%string -> b = c.
Proof.
  induction a as [|ch a IH]; cbn; intros Heq; [exact Heq|].
  injection Heq as Heq. now apply IH.
Qed.

Section BuildFacts.
Import Build.
Variable copy : string -> string -> disk -> outcome.
Hypothesis Hcopy : copy_law copy.
Variable dirname : string.

Local Abbreviation SRC := (path_join dirname "src").
Local Abbreviation DIST := (path_join dirname "dist").

Lemma path_join_inj (dir f g : string) : path_join dir f = path_join dir g -> f = g.
Proof.
  unfold path_join. intros Heq. apply append_inj in Heq.
  now apply append_inj in Heq.
Qed.

Lemma source_not_target (f g : string) : path_join SRC f <> path_join DIST g.
Proof.
  unfold path_join. rewrite !append_assoc. intros Heq.
  apply append_inj in Heq. cbn in Heq. discriminate Heq.
Qed.

Lemma handled_mono (d d1 d' : disk) (g : string) :
  d1 (path_join SRC g) = d (path_join SRC g) ->
  d1 (path_join DIST g) = d (path_join DIST g) ->
  handled SRC DIST d1 d' g -> handled SRC DIST d d' g.
Proof. unfold handled. intros -> ->. exact (fun h => h). Qed.

Lemma copy_files_spec (files : list string) (d : disk) :
  NoDup files -> copied SRC DIST files d (copy_files copy SRC DIST files d).
Proof.
  revert d. induction files as [|f files IH]; intros d Hnd.
  - cbn. split; [intros f []|]. reflexivity.
  - inversion Hnd as [|? ? Hnotin Hnd']; subst. cbn [copy_files].
    unfold existsSync.
    destruct (d (path_join SRC f)) as [e|] eqn:Hsrc.
    + pose proof (Hcopy (path_join SRC f) (path_join DIST f) d) as Hlaw.
      destruct (copy (path_join SRC f) (path_join DIST f) d) as [d1|err d1].
      * destruct Hlaw as [(c & Hc & Ht) Hframe].
        assert (Hsrc1 : forall g, d1 (path_join SRC g) = d (path_join SRC g))
          by (intros g; apply Hframe, source_not_target).
        assert (Hdist1 : forall g, g <> f ->
                  d1 (path_join DIST g) = d (path_join DIST g)).
        { intros g Hg. apply Hframe. intros Heq. apply path_join_inj in Heq. auto. }
        specialize (IH d1 Hnd').
        destruct (copy_files copy SRC DIST files d1) as [d'|err d']; cbn [copied] in *.
        -- destruct IH as [Hall Hother]. split.
           ++ intros g [<-|Hg].
              ** unfold handled. rewrite Hsrc. exists c. split; [congruence|].
                 rewrite Hother; [exact Ht|]. intros g Hg Heq.
                 apply path_join_inj in Heq. congruence.
              ** apply (handled_mono d d1); [apply Hsrc1| |now apply Hall].
                 apply Hdist1. intros ->. contradiction.
           ++ intros p Hp. rewrite Hother by (intros g Hg; apply Hp; now right).
              apply Hframe, Hp. now left.
        -- destruct IH as (before & h & after & -> & Hbefore & Hh & Hafter & Hother).
           exists (f :: before), h, after. split; [reflexivity|]. split; [|split; [|split]].
           ++ intros g [<-|Hg].
              ** unfold handled. rewrite Hsrc. exists c. split; [congruence|].
                 rewrite Hother; [exact Ht|]. intros g Hg Heq.
                 apply path_join_inj in Heq. congruence.
              ** apply (handled_mono d d1); [apply Hsrc1| |now apply Hbefore].
                 apply Hdist1. intros ->. apply Hnotin, in_or_app. now left.
           ++ now rewrite <- Hsrc1.
           ++ intros g Hg. rewrite Hafter by assumption. apply Hdist1.
              intros ->. apply Hnotin, in_or_app. right. now right.
           ++ intros p Hp. rewrite Hother by (intros g Hg; apply Hp; now right).
              apply Hframe, Hp. now left.
      * cbn [copied]. exists [], f, files. split; [reflexivity|].
        split; [intros g []|]. split; [congruence|]. split.
        -- intros g Hg. apply Hlaw. intros Heq. apply path_join_inj in Heq.
           subst. contradiction.
        -- intros p Hp. apply Hlaw, Hp. now left.
    + specialize (IH d Hnd').
      destruct (copy_files copy SRC DIST files d) as [d'|err d']; cbn [copied] in *.
      * destruct IH as [Hall Hother]. split.
        -- intros g [<-|Hg]; [|now apply Hall].
           unfold handled. rewrite Hsrc. apply Hother. intros g Hg Heq.
           apply path_join_inj in Heq. congruence.
        -- intros p Hp. apply Hother. intros g Hg. apply Hp. now right.
      * destruct IH as (before & h & after & -> & Hbefore & Hh & Hafter & Hother).
        exists (f :: before), h, after. split; [reflexivity|]. split; [|split; [|split]].
        -- intros g [<-|Hg]; [|now apply Hbefore].
           unfold handled. rewrite Hsrc. apply Hother. intros g Hg Heq.
           apply path_join_inj in Heq. congruence.
        -- exact Hh.
        -- exact Hafter.
        -- intros p Hp. apply Hother. intros g Hg. apply Hp. now right.
Qed.

Lemma NoDup_STATIC_FILES : NoDup STATIC_FILES.
Proof.
  unfold STATIC_FILES. repeat constructor; cbn; intros H;
    repeat (destruct H as [H|H]; [discriminate H|]); exact H.
Qed.


(** X29: copying the static files a second time changes nothing: when both
    runs return, the disk after the second is, at every path, the disk after
    the first. *)
Theorem copyStaticFiles_again (d d1 d2 : disk) (p : string) :
  copyStaticFiles copy dirname d = Done d1 ->
  copyStaticFiles copy dirname d1 = Done d2 ->
  d2 p = d1 p.
Proof.
  intros H1 H2.
  pose proof (copy_files_spec STATIC_FILES d NoDup_STATIC_FILES) as S1.
  pose proof (copy_files_spec STATIC_FILES d1 NoDup_STATIC_FILES) as S2.
  unfold copyStaticFiles in H1, H2. cbv zeta in H1, H2. rewrite H1 in S1.
  rewrite H2 in S2. cbn [copied] in S1, S2.
  destruct S1 as [Hall1 Hother1]. destruct S2 as [Hall2 Hother2].
  destruct (existsb (fun f => (p =? path_join DIST f)%string) STATIC_FILES) eqn:Hex.
  - apply existsb_exists in Hex as (f & Hin & Heq). apply String.eqb_eq in Heq.
    subst p. specialize (Hall1 f Hin). specialize (Hall2 f Hin).
    unfold handled in Hall1, Hall2.
    assert (Hsrc : d1 (path_join SRC f) = d (path_join SRC f)).
    { apply Hother1. intros g _. apply source_not_target. }
    rewrite Hsrc in Hall2. destruct (d (path_join SRC f)) as [e|].
    + destruct Hall1 as (c & -> & ->). destruct Hall2 as (c' & [= <-] & ->).
      reflexivity.
    + exact Hall2.
  - apply Hother2. intros f Hin Heq.
    assert (existsb (fun f => (p =? path_join DIST f)%string) STATIC_FILES = true).
    { apply existsb_exists. exists f. split; [exact Hin|]. now apply String.eqb_eq. }
    congruence.
Qed.


End BuildFacts.

Lemma plain_copy_law : Build.copy_law Build.plain_copy.
Proof.
  intros source target d. unfold Build.plain_copy.
  destruct (d source) as [[c|]|] eqn:Hs; [|intros p _; reflexivity..].
  destruct (d target) as [[c'|]|] eqn:Ht.
  - split; [exists c; split; [reflexivity|now rewrite String.eqb_refl]|].
    intros p Hp. apply String.eqb_neq in Hp. now rewrite Hp.
  - intros p _. reflexivity.
  - split; [exists c; split; [reflexivity|now rewrite String.eqb_refl]|].
    intros p Hp. apply String.eqb_neq in Hp. now rewrite Hp.
Qed.


Lemma copyStaticFiles_again_witness :
  let d : Build.disk :=
    fun p => if (p =? "/site/src/robots.txt")%string
             then Some (Build.File "User-agent: *") else None in
  let d1 : Build.disk :=
    fun p => if (p =? "/site/dist/robots.txt")%string
             then Some (Build.File "User-agent: *") else d p in
  let d2 : Build.disk :=
    fun p => if (p =? "/site/dist/robots.txt")%string
             then Some (Build.File "User-agent: *") else d1 p in
  d2 "/site/dist/robots.txt"%string = d1 "/site/dist/robots.txt"%string.
Proof.
  intros d d1 d2.
  exact (copyStaticFiles_again Build.plain_copy plain_copy_law "/site" d d1 d2
           "/site/dist/robots.txt" eq_refl eq_refl).
Defined.


(** On that disk the build stops at the directory and [robots.txt], which
    exists, is not copied. *)
Lemma copyStaticFiles_stops_at_directory :
  let d : Build.disk :=
    fun p => if (p =? "/site/src/favicon.svg")%string then Some Build.Directory
             else if (p =? "/site/src/robots.txt")%string
                  then Some (Build.File "User-agent: *") else None in
  match Build.copyStaticFiles Build.plain_copy "/site" d with
  | Build.Done _ => False
  | Build.Thrown error d' =>
      error = "EISDIR"%string /\ d' "/site/dist/robots.txt"%string = None
  end.
Proof. vm_compute. split; reflexivity. Qed.

(** ** Binary64 arithmetic read in the real numbers *)

Module Binary64Facts.
Import Binary64.

(** *** Shifting and rounding a mantissa *)

Lemma digits2_bounds (p : positive) :
  2 ^ (Zpos (digits2_pos p) - 1) <= Zpos p < 2 ^ Zpos (digits2_pos p).
Proof.
  induction p as [p IH|p IH|]; cbn [digits2_pos].
  - rewrite Pos2Z.inj_succ. replace (Z.succ (Zpos (digits2_pos p)) - 1)
      with (Z.succ (Zpos (digits2_pos p) - 1)) by lia.
    rewrite !Z.pow_succ_r by lia. lia.
  - rewrite Pos2Z.inj_succ. replace (Z.succ (Zpos (digits2_pos p)) - 1)
      with (Z.succ (Zpos (digits2_pos p) - 1)) by lia.
    rewrite !Z.pow_succ_r by lia. lia.
  - cbn. lia.
Qed.

Lemma digits2_unique (p : positive) (D : Z) :
  2 ^ (D - 1) <= Zpos p < 2 ^ D -> Zpos (digits2_pos p) = D.
Proof.
  intros [Hlo Hhi]. pose proof (digits2_bounds p) as [Hlo' Hhi'].
  assert (0 < D).
  { destruct (Z.ltb_spec 0 D) as [|Hn]; [assumption|].
    destruct (Z.eqb_spec D 0) as [->|Hz]; [cbn in Hhi; lia|].
    rewrite Z.pow_neg_r in Hhi by lia. lia. }
  assert (D - 1 < Zpos (digits2_pos p)).
  { apply (Z.pow_lt_mono_r_iff 2); lia. }
  assert (Zpos (digits2_pos p) - 1 < D).
  { apply (Z.pow_lt_mono_r_iff 2); lia. }
  lia.
Qed.

Lemma iter_pos_nat {A : Type} (f : A -> A) (p : positive) (a : A) :
  SpecFloat.iter_pos f p a = Nat.iter (Pos.to_nat p) f a.
Proof.
  revert a. induction p as [p IH|p IH|]; intros a; cbn [SpecFloat.iter_pos].
  - rewrite !IH, Pos2Nat.inj_xI. rewrite <- Nat.iter_add.
    replace (S (2 * Pos.to_nat p)) with (Pos.to_nat p + Pos.to_nat p + 1)%nat by lia.
    rewrite (Nat.iter_add (Pos.to_nat p + Pos.to_nat p) 1). reflexivity.
  - rewrite !IH, Pos2Nat.inj_xO. rewrite <- Nat.iter_add.
    f_equal. lia.
  - reflexivity.
Qed.

Lemma shr_1_nonneg (rec : shr_record) :
  0 <= shr_m rec ->
  shr_1 rec = Build_shr_record (Z.div2 (shr_m rec)) (Z.odd (shr_m rec))
                (shr_r rec || shr_s rec).
Proof.
  destruct rec as [m r s]. cbn [shr_m shr_r shr_s]. intros Hm.
  destruct m as [|[p|p|]|p]; try reflexivity. lia.
Qed.

Lemma shr_ok_start (m0 : Z) : shr_ok m0 0 (Build_shr_record m0 false false).
Proof.
  exists 0. cbn. repeat split; try lia; try discriminate.
Qed.

Lemma shr_ok_step (m0 k : Z) (rec : shr_record) :
  0 <= k -> 0 <= shr_m rec -> shr_ok m0 k rec ->
  shr_ok m0 (k + 1) (shr_1 rec) /\ 0 <= shr_m (shr_1 rec).
Proof.
  intros Hk Hm (rho & Hm0 & Hrho & Hr & Hs).
  rewrite shr_1_nonneg by assumption. cbn [shr_m shr_r shr_s].
  rewrite Z.div2_div. split; [|apply Z.div_pos; lia].
  unfold shr_ok. cbn [shr_m shr_r shr_s].
  rewrite Z.pow_add_r by lia. change (2 ^ 1) with 2.
  pose proof (Z.pow_pos_nonneg 2 k ltac:(lia) Hk) as HP. set (P := 2 ^ k) in *.
  pose proof (Z.div_mod (shr_m rec) 2 ltac:(lia)) as Hdm.
  pose proof (Zmod_odd (shr_m rec)) as Hb.
  set (q := shr_m rec / 2) in *.
  assert (Hnr : shr_r rec = false -> 2 * rho < P).
  { intros Hf. destruct (Z.ltb_spec (2 * rho) P) as [|Hc]; [assumption|].
    apply Hr in Hc. congruence. }
  destruct (Z.odd (shr_m rec)).
  - exists (P + rho). repeat split; try lia.
    + intros Hor. apply orb_false_iff in Hor as [Hr' Hs'].
      apply Hs in Hs'. apply Hnr in Hr'. lia.
    + intros Hcases. assert (rho = 0) by lia. apply orb_false_iff. split.
      * destruct (shr_r rec); [|reflexivity].
        assert (P <= 2 * rho) by now apply Hr. lia.
      * apply Hs. now left.
  - exists rho. repeat split; try lia; try discriminate.
    + intros Hor. apply orb_false_iff in Hor as [Hr' Hs'].
      apply Hs in Hs'. apply Hnr in Hr'. lia.
    + intros Hcases. assert (rho = 0) by lia. apply orb_false_iff. split.
      * destruct (shr_r rec); [|reflexivity].
        assert (P <= 2 * rho) by now apply Hr. lia.
      * apply Hs. now left.
Qed.

Lemma shr_ok_iter (m0 : Z) (n : nat) :
  0 <= m0 ->
  let rec := Nat.iter n shr_1 (Build_shr_record m0 false false) in
  shr_ok m0 (Z.of_nat n) rec /\ 0 <= shr_m rec.
Proof.
  intros Hm0. induction n as [|n [IH1 IH2]]; cbn zeta.
  - split; [apply shr_ok_start|assumption].
  - cbn [Nat.iter]. rewrite Nat2Z.inj_succ, <- Z.add_1_r.
    apply shr_ok_step; [lia|assumption|assumption].
Qed.

Lemma round_nearest_even_error (m0 k : Z) (rec : shr_record) :
  0 <= k -> shr_ok m0 k rec ->
  let m2 := round_nearest_even (shr_m rec) (loc_of_shr_record rec) in
  shr_m rec <= m2 <= shr_m rec + 1
  /\ Z.abs (2 * (m2 * 2 ^ k - m0)) <= 2 ^ k
  /\ (k = 0 -> m2 = m0).
Proof.
  intros Hk (rho & Hm0 & Hrho & Hr & Hs).
  pose proof (Z.pow_pos_nonneg 2 k ltac:(lia) Hk) as HP.
  assert (Hk0 : k = 0 -> rho = 0) by (intros ->; cbn in Hrho; lia).
  destruct rec as [m r s]. cbn [shr_m shr_r shr_s] in *.
  set (P := 2 ^ k) in *.
  assert (Hk0' : k = 0 -> P = 1) by (intros ->; reflexivity).
  destruct r, s; cbn [loc_of_shr_record round_nearest_even].
  - assert (P <= 2 * rho) by now apply Hr. nia.
  - assert (P <= 2 * rho) by now apply Hr.
    assert (rho = 0 \/ 2 * rho = P) by now apply Hs.
    destruct (Z.even m); nia.
  - assert (~ P <= 2 * rho) by (intros Hc; apply Hr in Hc; congruence). nia.
  - assert (~ P <= 2 * rho) by (intros Hc; apply Hr in Hc; congruence).
    assert (rho = 0 \/ 2 * rho = P) by now apply Hs. nia.
Qed.

Lemma fexp_64 (e : Z) : fexp prec emax e = Z.max (e - 53) (-1074).
Proof. reflexivity. Qed.

Lemma shr_nonpos (rec : shr_record) (e n : Z) : n <= 0 -> shr rec e n = (rec, e).
Proof. destruct n; [reflexivity|lia|reflexivity]. Qed.

Lemma shr_spec (m0 e n : Z) :
  0 <= m0 ->
  exists rec, shr (Build_shr_record m0 false false) e n = (rec, e + Z.max n 0)
    /\ shr_ok m0 (Z.max n 0) rec /\ 0 <= shr_m rec.
Proof.
  intros Hm0. destruct n as [|p|p].
  - eexists. split; [cbn; now rewrite Z.add_0_r|]. split; [apply shr_ok_start|exact Hm0].
  - exists (Nat.iter (Pos.to_nat p) shr_1 (Build_shr_record m0 false false)).
    split; [cbn [shr]; rewrite iter_pos_nat; f_equal; lia|].
    replace (Z.max (Zpos p) 0) with (Z.of_nat (Pos.to_nat p))
      by (rewrite positive_nat_Z; lia).
    now apply shr_ok_iter.
  - eexists. split; [cbn; now rewrite Z.add_0_r|]. split; [apply shr_ok_start|exact Hm0].
Qed.

Lemma round_aux_spec (sx : bool) (p : positive) (ex : Z) :
  let e1 := fexp prec emax (Zpos (digits2_pos p) + ex) in
  ex <= e1 ->
  exists m2 e2,
    binary_round_aux prec emax sx (Zpos p) ex loc_Exact = SF_of_Z sx m2 e2
    /\ 0 <= m2 /\ (e2 = e1 \/ e2 = e1 + 1)
    /\ Z.abs (2 * (m2 * 2 ^ (e2 - ex) - Zpos p)) <= 2 ^ (e1 - ex)
    /\ (e1 = ex -> m2 = Zpos p /\ e2 = ex).
Proof.
  intros e1 Hk. unfold binary_round_aux, shr_fexp. cbn [Zdigits2 shr_record_of_loc].
  fold e1.
  destruct (shr_spec (Zpos p) ex (e1 - ex) ltac:(lia)) as (rec & -> & Hok & Hq).
  replace (Z.max (e1 - ex) 0) with (e1 - ex) in * by lia.
  replace (ex + (e1 - ex)) with e1 by lia.
  destruct (round_nearest_even_error (Zpos p) (e1 - ex) rec ltac:(lia) Hok)
    as (Hm2 & Herr & Hexact).
  set (m2 := round_nearest_even (shr_m rec) (loc_of_shr_record rec)) in *.
  assert (He1 : -1074 <= e1 /\ Zpos (digits2_pos p) + ex - 53 <= e1)
    by (unfold e1; rewrite fexp_64; lia).
  assert (Hq53 : shr_m rec < 2 ^ 53).
  { destruct Hok as (rho & Hp & Hrho & _).
    pose proof (digits2_bounds p) as [_ Hd].
    assert (2 ^ Zpos (digits2_pos p) <= 2 ^ (e1 - ex + 53))
      by (apply Z.pow_le_mono_r; lia).
    rewrite Z.pow_add_r in H by lia.
    pose proof (Z.pow_pos_nonneg 2 (e1 - ex) ltac:(lia) ltac:(lia)). nia. }
  destruct m2 as [|p2|p2] eqn:Hm2eq; [| |lia].
  - (* rounded to zero *)
    exists 0, e1. rewrite shr_nonpos by (cbn [Zdigits2]; rewrite fexp_64; lia).
    cbn [shr_m SF_of_Z]. repeat split; lia.
  - destruct (Z.eq_dec (Zpos p2) (2 ^ 53)) as [Hcarry|Hnc].
    + (* the rounding carried into the next binade *)
      exists (2 ^ 52), (e1 + 1).
      assert (Hd2 : Zpos (digits2_pos p2) = 54)
        by (apply digits2_unique; rewrite Hcarry; cbn; lia).
      cbn [Zdigits2]. rewrite Hd2, fexp_64.
      replace (Z.max (54 + e1 - 53) (-1074) - e1) with 1 by lia.
      cbn [shr SpecFloat.iter_pos]. rewrite shr_1_nonneg by (cbn; lia).
      cbn [shr_m]. rewrite Hcarry. change (Z.div2 (2 ^ 53)) with (2 ^ 52).
      split; [reflexivity|]. split; [cbn; lia|]. split; [now right|]. split.
      * replace (e1 + 1 - ex) with (e1 - ex + 1) by lia.
        rewrite Z.pow_add_r by lia. rewrite Hcarry in Herr.
        replace (2 ^ 52 * (2 ^ (e1 - ex) * 2 ^ 1)) with (2 ^ 53 * 2 ^ (e1 - ex))
          by (change (2 ^ 53) with (2 ^ 52 * 2); change (2 ^ 1) with 2; ring).
        exact Herr.
      * intros He. assert (Zpos p2 = Zpos p) by (apply Hexact; lia).
        exfalso. pose proof (digits2_bounds p) as [_ Hd].
        assert (2 ^ Zpos (digits2_pos p) <= 2 ^ 53)
          by (apply Z.pow_le_mono_r; lia). lia.
    + exists (Zpos p2), e1.
      assert (Hd2 : Zpos (digits2_pos p2) <= 53).
      { pose proof (digits2_bounds p2) as [Hlo _].
        assert (Zpos (digits2_pos p2) - 1 < 53); [|lia].
        apply (Z.pow_lt_mono_r_iff 2); lia. }
      rewrite shr_nonpos by (cbn [Zdigits2]; rewrite fexp_64; lia).
      cbn [shr_m SF_of_Z]. repeat split; lia.
Qed.

Lemma iter_xO (m d : positive) : Zpos (Pos.iter xO m d) = Zpos m * 2 ^ Zpos d.
Proof.
  induction d as [|d IH] using Pos.peano_ind.
  - cbn [Pos.iter]. rewrite Pos2Z.inj_xO. change (2 ^ 1) with 2. lia.
  - rewrite Pos.iter_succ, Pos2Z.inj_xO, IH, Pos2Z.inj_succ, Z.pow_succ_r by lia. ring.
Qed.

Lemma shl_align_spec (m : positive) (e e' : Z) :
  e' <= e ->
  shl_align m e e' = (Z.to_pos (Zpos m * 2 ^ (e - e')), e')
  /\ Zpos (Z.to_pos (Zpos m * 2 ^ (e - e'))) = Zpos m * 2 ^ (e - e').
Proof.
  intros He. unfold shl_align. destruct (e' - e) as [|d|d] eqn:Hd; try lia.
  - assert (e' = e) by lia. subst e'. rewrite Z.sub_diag, Z.mul_1_r. cbn. tauto.
  - assert (e - e' = Zpos d) by lia. rewrite H, <- iter_xO. cbn. tauto.
Qed.

Lemma valid_finite (a : float) (s : bool) (m : positive) (e : Z) :
  Prim2SF a = S754_finite s m e ->
  Zpos (digits2_pos m) <= 53 /\ -1074 <= e <= 971
  /\ (Zpos (digits2_pos m) = 53 \/ e = -1074).
Proof.
  intros Ha. pose proof (Prim2SF_valid a) as Hv. rewrite Ha in Hv.
  cbn [SpecFloat.valid_binary] in Hv. unfold bounded, canonical_mantissa in Hv.
  apply andb_true_iff in Hv as [Hc Hb]. apply Z.eqb_eq in Hc. apply Z.leb_le in Hb.
  rewrite fexp_64 in Hc. change (emax - prec) with 971 in Hb. lia.
Qed.

Local Open Scope R_scope.

(** *** The value of a rounded number *)

Lemma IZR_pow2 (k : Z) : (0 <= k)%Z -> IZR (2 ^ k) = powerRZ 2 k.
Proof.
  intros Hk. rewrite <- (Z2Nat.id k) at 1 2 by assumption.
  rewrite <- pow_IZR, pow_powerRZ. reflexivity.
Qed.

Lemma bpow_pos (e : Z) : 0 < powerRZ 2 e.
Proof. apply powerRZ_lt. lra. Qed.

Lemma bpow_add (a b : Z) : powerRZ 2 (a + b) = powerRZ 2 a * powerRZ 2 b.
Proof. apply powerRZ_add. lra. Qed.

Lemma bpow_le (a b : Z) : (a <= b)%Z -> powerRZ 2 a <= powerRZ 2 b.
Proof.
  intros Hab. replace b with (a + (b - a))%Z by lia. rewrite bpow_add.
  rewrite <- (IZR_pow2 (b - a)) by lia.
  assert (1 <= IZR (2 ^ (b - a))).
  { apply IZR_le. pose proof (Z.pow_pos_nonneg 2 (b - a) ltac:(lia) ltac:(lia)). lia. }
  pose proof (bpow_pos a). nra.
Qed.

Lemma bpow_lt_inv (a b : Z) : powerRZ 2 a < powerRZ 2 b -> (a < b)%Z.
Proof.
  intros Hlt. destruct (Z.ltb_spec a b) as [|Hge]; [assumption|].
  apply bpow_le in Hge. lra.
Qed.

Lemma bpow_succ (a : Z) : powerRZ 2 (a + 1) = 2 * powerRZ 2 a.
Proof. rewrite bpow_add. change (powerRZ 2 1) with (2 * 1). lra. Qed.

(** The value of a rounded positive number [p * 2 ^ ex]. *)
Lemma round_aux_R (sx : bool) (p : positive) (ex : Z) :
  let v := IZR (Zpos p) * powerRZ 2 ex in
  let e1 := fexp prec emax (Zpos (digits2_pos p) + ex) in
  (ex <= e1)%Z -> v < powerRZ 2 1023 ->
  exists a : R,
    let r := binary_round_aux prec emax sx (Zpos p) ex loc_Exact in
    SF_finite r = true
    /\ SF2R r = (if sx then - a else a)
    /\ 0 <= a
    /\ Rabs (a - v) <= powerRZ 2 (-53) * v + powerRZ 2 (-1075)
    /\ ((e1 = ex \/ -1074 < e1)%Z -> Rabs (a - v) <= powerRZ 2 (-53) * v).
Proof.
  intros v e1 Hk Hv.
  destruct (round_aux_spec sx p ex Hk) as (m2 & e2 & Hr & Hm2 & He2 & Herr & Hex).
  fold e1 in He2, Herr, Hex.
  pose proof (digits2_bounds p) as [Hdlo _].
  set (d := Zpos (digits2_pos p)) in *.
  assert (Hlo : powerRZ 2 (d - 1 + ex) <= v).
  { unfold v. rewrite bpow_add, <- IZR_pow2 by lia.
    apply Rmult_le_compat_r; [left; apply bpow_pos|now apply IZR_le]. }
  assert (Hdex : (d + ex <= 1023)%Z).
  { assert (d - 1 + ex < 1023)%Z; [|lia]. apply bpow_lt_inv. lra. }
  assert (He1 : (e1 = Z.max (d + ex - 53) (-1074))%Z) by (unfold e1; apply fexp_64).
  exists (IZR m2 * powerRZ 2 e2). cbv zeta. rewrite Hr.
  assert (Hval : SF2R (SF_of_Z sx m2 e2)
                 = if sx then - (IZR m2 * powerRZ 2 e2) else IZR m2 * powerRZ 2 e2).
  { unfold SF_of_Z. destruct m2 as [|q|q]; [destruct sx; cbn; lra| |lia].
    replace (e2 <=? emax - prec)%Z with true
      by (symmetry; apply Z.leb_le; change (emax - prec)%Z with 971%Z; lia).
    destruct sx; cbn [SF2R cond_Zopp]; [|reflexivity].
    rewrite opp_IZR. lra. }
  assert (Hfin : SF_finite (SF_of_Z sx m2 e2) = true).
  { unfold SF_of_Z. destruct m2 as [|q|q]; [reflexivity| |lia].
    replace (e2 <=? emax - prec)%Z with true
      by (symmetry; apply Z.leb_le; change (emax - prec)%Z with 971%Z; lia).
    reflexivity. }
  assert (Hdiff : IZR m2 * powerRZ 2 e2 - v
                  = IZR (m2 * 2 ^ (e2 - ex) - Zpos p) * powerRZ 2 ex).
  { rewrite minus_IZR, mult_IZR, IZR_pow2 by lia. unfold v.
    replace e2 with ((e2 - ex) + ex)%Z at 1 by lia. rewrite bpow_add. ring. }
  assert (Habs : Rabs (IZR m2 * powerRZ 2 e2 - v) <= powerRZ 2 (e1 - 1)
                 /\ (e1 = ex -> Rabs (IZR m2 * powerRZ 2 e2 - v) = 0)).
  { split.
    - rewrite Hdiff, Rabs_mult, (Rabs_pos_eq (powerRZ 2 ex)) by (left; apply bpow_pos).
      rewrite <- abs_IZR.
      assert (H2 : 2 * IZR (Z.abs (m2 * 2 ^ (e2 - ex) - Zpos p)) <= powerRZ 2 (e1 - ex)).
      { rewrite <- IZR_pow2 by lia. rewrite <- mult_IZR. apply IZR_le.
        rewrite <- Herr. rewrite Z.abs_mul. cbn [Z.abs]. lia. }
      replace (e1 - 1)%Z with ((e1 - ex) + ex + (-1))%Z by lia.
      rewrite !bpow_add. change (powerRZ 2 (-1)) with (/ 2 ^ 1).
      pose proof (bpow_pos ex). set (E := powerRZ 2 ex) in *.
      set (A := IZR (Z.abs (m2 * 2 ^ (e2 - ex) - Zpos p))) in *.
      set (K := powerRZ 2 (e1 - ex)) in *.
      assert (A * E <= K / 2 * E) by (apply Rmult_le_compat_r; lra).
      lra.
    - intros He. destruct (Hex He) as [-> ->]. unfold v.
      rewrite Rminus_diag. apply Rabs_R0. }
  destruct Habs as [Habs Hzero].
  pose proof (bpow_pos (-1075)). pose proof (bpow_pos (-53)).
  assert (Hv0 : 0 < v) by (unfold v; apply Rmult_lt_0_compat;
                           [apply IZR_lt; lia|apply bpow_pos]).
  assert (Hnormal : (-1074 < e1)%Z -> powerRZ 2 (e1 - 1) <= powerRZ 2 (-53) * v).
  { intros Hn. replace (e1 - 1)%Z with (-53 + (d - 1 + ex))%Z by lia.
    rewrite bpow_add. apply Rmult_le_compat_l; lra. }
  split; [exact Hfin|]. split; [exact Hval|]. split.
  { apply Rmult_le_pos; [apply IZR_le; lia|left; apply bpow_pos]. }
  split.
  - destruct (Z.eq_dec e1 (-1074)) as [Hsub|Hn].
    + rewrite Hsub in Habs. change (-1074 - 1)%Z with (-1075)%Z in Habs. nra.
    + specialize (Hnormal ltac:(lia)). nra.
  - intros [He|Hn].
    + rewrite (Hzero He). nra.
    + specialize (Hnormal Hn). lra.
Qed.

Lemma binary_round_R (sx : bool) (p : positive) (ex : Z) :
  let v := IZR (Zpos p) * powerRZ 2 ex in
  (-1074 <= ex)%Z -> v < powerRZ 2 1023 ->
  exists a : R,
    let r := binary_round prec emax sx p ex in
    SF_finite r = true /\ SF2R r = (if sx then - a else a) /\ 0 <= a
    /\ Rabs (a - v) <= powerRZ 2 (-53) * v.
Proof.
  intros v Hex Hv. unfold binary_round.
  set (e1 := fexp prec emax (Zpos (digits2_pos p) + ex)).
  assert (He1 : (e1 = Z.max (Zpos (digits2_pos p) + ex - 53) (-1074))%Z)
    by apply fexp_64.
  destruct (Z.le_gt_cases ex e1) as [Hle|Hgt].
  - (* no alignment *)
    assert (Hsh : shl_align p ex e1 = (p, ex)).
    { unfold shl_align. destruct (e1 - ex)%Z eqn:Hd; try reflexivity. lia. }
    rewrite Hsh.
    destruct (round_aux_R sx p ex Hle Hv) as (a & Hf & Hval & Ha & _ & Herr).
    exists a. cbv zeta. repeat split; try assumption. apply Herr.
    fold e1. lia.
  - destruct (shl_align_spec p ex e1 ltac:(lia)) as [Hsh Hz].
    rewrite Hsh. set (pz := Z.to_pos (Zpos p * 2 ^ (ex - e1))) in *.
    assert (Hvz : IZR (Zpos pz) * powerRZ 2 e1 = v).
    { rewrite Hz, mult_IZR, IZR_pow2 by lia. unfold v.
      replace ex with ((ex - e1) + e1)%Z at 2 by lia. rewrite bpow_add. ring. }
    assert (Hdz : (Zpos (digits2_pos pz) = Zpos (digits2_pos p) + (ex - e1))%Z).
    { apply digits2_unique. rewrite Hz. pose proof (digits2_bounds p) as [Hlo Hhi].
      replace (Zpos (digits2_pos p) + (ex - e1) - 1)%Z
        with ((Zpos (digits2_pos p) - 1) + (ex - e1))%Z by lia.
      rewrite !Z.pow_add_r by lia.
      pose proof (Z.pow_pos_nonneg 2 (ex - e1) ltac:(lia) ltac:(lia)). nia. }
    assert (Hfz : fexp prec emax (Zpos (digits2_pos pz) + e1) = e1).
    { rewrite Hdz. replace (Zpos (digits2_pos p) + (ex - e1) + e1)%Z
        with (Zpos (digits2_pos p) + ex)%Z by lia. reflexivity. }
    destruct (round_aux_R sx pz e1) as (a & Hf & Hval & Ha & _ & Herr).
    + rewrite Hfz. lia.
    + rewrite Hvz. exact Hv.
    + exists a. cbv zeta. rewrite Hvz in Herr. repeat split; try assumption.
      apply Herr. left. exact Hfz.
Qed.

Lemma binary_normalize_R (z ez : Z) :
  let v := IZR z * powerRZ 2 ez in
  (-1074 <= ez)%Z -> Rabs v < powerRZ 2 1023 ->
  let r := binary_normalize prec emax z ez false in
  SF_finite r = true /\ Rabs (SF2R r - v) <= powerRZ 2 (-53) * Rabs v.
Proof.
  intros v Hez Hv. destruct z as [|p|p]; cbn [binary_normalize].
  - unfold v. cbn [SF_finite SF2R]. rewrite Rmult_0_l, Rminus_diag, Rabs_R0.
    split; [reflexivity|]. lra.
  - assert (Hv0 : 0 < v) by (apply Rmult_lt_0_compat; [apply IZR_lt; lia|apply bpow_pos]).
    rewrite (Rabs_pos_eq v) in * by lra.
    destruct (binary_round_R false p ez Hez Hv) as (a & Hf & Hval & Ha & Herr).
    cbv zeta in Hf, Hval. rewrite Hval. split; assumption.
  - assert (Hv0 : v = - (IZR (Zpos p) * powerRZ 2 ez))
      by (unfold v; change (Zneg p) with (- Zpos p)%Z; rewrite opp_IZR; ring).
    assert (Hp0 : 0 < IZR (Zpos p) * powerRZ 2 ez)
      by (apply Rmult_lt_0_compat; [apply IZR_lt; lia|apply bpow_pos]).
    assert (Habs : Rabs v = IZR (Zpos p) * powerRZ 2 ez)
      by (rewrite Hv0, Rabs_Ropp; apply Rabs_pos_eq; lra).
    rewrite Habs in *.
    destruct (binary_round_R true p ez Hez Hv) as (a & Hf & Hval & Ha & Herr).
    cbv zeta in Hf, Hval. rewrite Hval, Hv0. split; [assumption|].
    replace (- a - - (IZR (Zpos p) * powerRZ 2 ez))
      with (- (a - IZR (Zpos p) * powerRZ 2 ez)) by ring.
    rewrite Rabs_Ropp. exact Herr.
Qed.

(** A finite number written with the smaller of two exponents. *)
Lemma aligned_value (s : bool) (m : positive) (e ez : Z) :
  (ez <= e)%Z ->
  IZR (cond_Zopp s (Zpos (fst (shl_align m e ez)))) * powerRZ 2 ez
  = SF2R (S754_finite s m e).
Proof.
  intros He. destruct (shl_align_spec m e ez He) as [-> Hz]. cbn [fst SF2R].
  assert (Hc : forall q, IZR (cond_Zopp s q) = (if s then -1 else 1) * IZR q)
    by (intros q; destruct s; cbn [cond_Zopp]; [rewrite opp_IZR|]; ring).
  rewrite !Hc, Hz, mult_IZR, IZR_pow2 by lia.
  replace e with ((e - ez) + ez)%Z at 2 by lia. rewrite bpow_add. ring.
Qed.

Lemma zero_error (v : R) : v = 0 -> Rabs (0 - v) <= powerRZ 2 (-53) * Rabs v.
Proof. intros ->. rewrite Rminus_diag, Rabs_R0. lra. Qed.

Lemma same_error (v w : R) : v = w -> Rabs (v - w) <= powerRZ 2 (-53) * Rabs w.
Proof.
  intros ->. rewrite Rminus_diag, Rabs_R0. pose proof (bpow_pos (-53)).
  pose proof (Rabs_pos w). nra.
Qed.

(** Addition of finite numbers rounds with a relative error of at most
    [2 ^ -53], as long as the sum stays below [2 ^ 1023]. *)
Lemma add_error (a b : float) :
  finite a = true -> finite b = true ->
  Rabs (B2R a + B2R b) < powerRZ 2 1023 ->
  finite (a + b) = true
  /\ Rabs (B2R (a + b) - (B2R a + B2R b)) <= powerRZ 2 (-53) * Rabs (B2R a + B2R b).
Proof.
  unfold finite, B2R. rewrite add_spec. unfold SF64add.
  destruct (Prim2SF a) as [sa| |  |sa ma ea] eqn:Ha;
    destruct (Prim2SF b) as [sb| |  |sb mb eb] eqn:Hb;
    cbn [SF_finite]; try discriminate; intros _ _ Hsum.
  - split; [destruct sa, sb; reflexivity|].
    destruct sa, sb; cbn; apply zero_error; lra.
  - cbn [SFadd SF_finite]. split; [reflexivity|]. apply same_error.
    cbn [SF2R]. lra.
  - cbn [SFadd SF_finite]. split; [reflexivity|]. apply same_error.
    cbn [SF2R]. lra.
  - cbn [SFadd]. destruct (valid_finite a sa ma ea Ha) as (_ & Hea & _).
    destruct (valid_finite b sb mb eb Hb) as (_ & Heb & _).
    set (ez := Z.min ea eb).
    assert (Hv : IZR (cond_Zopp sa (Zpos (fst (shl_align ma ea ez)))
                      + cond_Zopp sb (Zpos (fst (shl_align mb eb ez)))) * powerRZ 2 ez
                 = SF2R (S754_finite sa ma ea) + SF2R (S754_finite sb mb eb)).
    { rewrite plus_IZR, Rmult_plus_distr_r, !aligned_value by (unfold ez; lia).
      reflexivity. }
    rewrite <- Hv in *. apply binary_normalize_R; [unfold ez; lia|assumption].
Qed.

Lemma sub_error (a b : float) :
  finite a = true -> finite b = true ->
  Rabs (B2R a - B2R b) < powerRZ 2 1023 ->
  finite (a - b) = true
  /\ Rabs (B2R (a - b) - (B2R a - B2R b)) <= powerRZ 2 (-53) * Rabs (B2R a - B2R b).
Proof.
  unfold finite, B2R. rewrite sub_spec. unfold SF64sub.
  destruct (Prim2SF a) as [sa| |  |sa ma ea] eqn:Ha;
    destruct (Prim2SF b) as [sb| |  |sb mb eb] eqn:Hb;
    cbn [SF_finite]; try discriminate; intros _ _ Hsum.
  - split; [destruct sa, sb; reflexivity|].
    destruct sa, sb; cbn; apply zero_error; lra.
  - cbn [SFsub SF_finite]. split; [reflexivity|]. apply same_error.
    cbn [SF2R]. destruct sb; cbn [negb cond_Zopp];
      change (Zneg mb) with (- Zpos mb)%Z; rewrite ?opp_IZR; lra.
  - cbn [SFsub SF_finite]. split; [reflexivity|]. apply same_error.
    cbn [SF2R]. lra.
  - cbn [SFsub]. destruct (valid_finite a sa ma ea Ha) as (_ & Hea & _).
    destruct (valid_finite b sb mb eb Hb) as (_ & Heb & _).
    set (ez := Z.min ea eb).
    assert (Hv : IZR (cond_Zopp sa (Zpos (fst (shl_align ma ea ez)))
                      - cond_Zopp sb (Zpos (fst (shl_align mb eb ez)))) * powerRZ 2 ez
                 = SF2R (S754_finite sa ma ea) - SF2R (S754_finite sb mb eb)).
    { rewrite minus_IZR, Rmult_minus_distr_r, !aligned_value by (unfold ez; lia).
      reflexivity. }
    rewrite <- Hv in *. apply binary_normalize_R; [unfold ez; lia|assumption].
Qed.

Lemma mul_error (a b : float) :
  finite a = true -> finite b = true ->
  Rabs (B2R a * B2R b) < powerRZ 2 1023 ->
  finite (a * b) = true
  /\ Rabs (B2R (a * b) - B2R a * B2R b)
     <= powerRZ 2 (-53) * Rabs (B2R a * B2R b) + powerRZ 2 (-1075).
Proof.
  unfold finite, B2R. rewrite mul_spec. unfold SF64mul.
  pose proof (bpow_pos (-1075)) as Heta.
  destruct (Prim2SF a) as [sa| |  |sa ma ea] eqn:Ha;
    destruct (Prim2SF b) as [sb| |  |sb mb eb] eqn:Hb;
    cbn [SF_finite]; try discriminate; intros _ _ Hprod;
    try (cbn [SFmul SF_finite SF2R]; split; [reflexivity|];
         rewrite ?Rmult_0_l, ?Rmult_0_r, Rminus_diag, Rabs_R0; lra).
  cbn [SFmul].
  destruct (valid_finite a sa ma ea Ha) as (Hda & Hea & Hna).
  destruct (valid_finite b sb mb eb Hb) as (Hdb & Heb & Hnb).
  set (v := IZR (Zpos (ma * mb)) * powerRZ 2 (ea + eb)).
  assert (Hc : forall s q, IZR (cond_Zopp s q) = (if s then -1 else 1) * IZR q)
    by (intros s q; destruct s; cbn [cond_Zopp]; [rewrite opp_IZR|]; ring).
  assert (Hv : SF2R (S754_finite sa ma ea) * SF2R (S754_finite sb mb eb)
               = (if xorb sa sb then - v else v)).
  { cbn [SF2R]. rewrite !Hc. unfold v. rewrite Pos2Z.inj_mul, mult_IZR, bpow_add.
    destruct sa, sb; cbn [xorb]; ring. }
  assert (Hv0 : 0 < v) by (apply Rmult_lt_0_compat; [apply IZR_lt; lia|apply bpow_pos]).
  assert (Habs : Rabs (SF2R (S754_finite sa ma ea) * SF2R (S754_finite sb mb eb)) = v).
  { rewrite Hv. destruct (xorb sa sb); [rewrite Rabs_Ropp|]; apply Rabs_pos_eq; lra. }
  rewrite Habs in *.
  assert (Hk : (ea + eb <= fexp prec emax (Zpos (digits2_pos (ma * mb)) + (ea + eb)))%Z).
  { rewrite fexp_64.
    pose proof (digits2_bounds ma) as [Hla _]. pose proof (digits2_bounds mb) as [Hlb _].
    pose proof (digits2_bounds (ma * mb)) as [_ Hhp].
    assert (Zpos (digits2_pos ma) - 1 + (Zpos (digits2_pos mb) - 1)
            < Zpos (digits2_pos (ma * mb)))%Z.
    { apply (Z.pow_lt_mono_r_iff 2); [lia|lia|]. rewrite Z.pow_add_r by lia.
      rewrite Pos2Z.inj_mul in Hhp.
      pose proof (Z.pow_pos_nonneg 2 (Zpos (digits2_pos ma) - 1) ltac:(lia) ltac:(lia)).
      pose proof (Z.pow_pos_nonneg 2 (Zpos (digits2_pos mb) - 1) ltac:(lia) ltac:(lia)).
      nia. }
    lia. }
  destruct (round_aux_R (xorb sa sb) (ma * mb) (ea + eb) Hk Hprod)
    as (r & Hf & Hval & Hr & Herr & _).
  cbv zeta in Hf, Hval. fold v in Herr. split; [exact Hf|].
  rewrite Hval, Hv. destruct (xorb sa sb); [|exact Herr].
  replace (- r - - v) with (- (r - v)) by ring. rewrite Rabs_Ropp. exact Herr.
Qed.

(** *** One coordinate of the easing *)

Lemma u_bounds : 0 < powerRZ 2 (-53) <= 12 / 10 ^ 17.
Proof.
  assert (H : powerRZ 2 (-53) * 9007199254740992 = 1).
  { replace 9007199254740992 with (powerRZ 2 53)
      by (rewrite <- IZR_pow2 by lia; reflexivity).
    rewrite <- bpow_add. reflexivity. }
  pose proof (bpow_pos (-53)). split; [assumption|]. lra.
Qed.

Lemma eta_bounds : 0 < powerRZ 2 (-1075) /\ 2 * powerRZ 2 (-1075) = powerRZ 2 (-1074).
Proof.
  split; [apply bpow_pos|]. rewrite <- bpow_succ. reflexivity.
Qed.

Lemma big_1023 : powerRZ 2 1023 = 8388608 * powerRZ 2 1000.
Proof.
  change 1023%Z with (23 + 1000)%Z. rewrite bpow_add. f_equal.
  rewrite <- IZR_pow2 by lia. reflexivity.
Qed.

Lemma big_1000 : 1 <= powerRZ 2 1000.
Proof.
  change 1 with (powerRZ 2 0). apply bpow_le. lia.
Qed.

(** One frame of easing on real numbers with the rounding errors of the three
    operations. *)
Lemma ease_real (T M Sd P M' C u eta : R) :
  0 <= u <= 12 / 10 ^ 17 -> 0 <= eta ->
  7 / 100 <= C <= 7 / 100 + 1 / 10 ^ 17 ->
  Rabs (Sd - (T - M)) <= u * Rabs (T - M) ->
  Rabs (P - Sd * C) <= u * Rabs (Sd * C) + eta ->
  Rabs (M' - (M + P)) <= u * Rabs (M + P) ->
  Rabs (T - M') <= 9300000001 / 10000000000 * Rabs (T - M) + (u * Rabs T + 2 * eta).
Proof.
  intros Hu Heta HC HS HP HM.
  set (D := T - M) in *.
  assert (HD : 0 <= Rabs D) by apply Rabs_pos.
  assert (HT : 0 <= Rabs T) by apply Rabs_pos.
  assert (HSabs : Rabs Sd <= (1 + u) * Rabs D).
  { replace Sd with ((Sd - D) + D) by ring.
    eapply Rle_trans; [apply Rabs_triang|]. lra. }
  assert (HSC : Rabs (Sd * C) <= 8 / 100 * ((1 + u) * Rabs D)).
  { rewrite Rabs_mult, (Rabs_pos_eq C) by lra.
    pose proof (Rabs_pos Sd). nra. }
  assert (HeP : Rabs (P - Sd * C) <= 9 / 100 * u * Rabs D + eta).
  { eapply Rle_trans; [exact HP|].
    assert (HX : 0 <= u * Rabs D) by (apply Rmult_le_pos; lra).
    assert (u * (u * Rabs D) <= 12 / 10 ^ 17 * (u * Rabs D))
      by (apply Rmult_le_compat_r; lra).
    assert (u * Rabs (Sd * C) <= u * (8 / 100 * ((1 + u) * Rabs D)))
      by (apply Rmult_le_compat_l; lra).
    lra. }
  assert (HDP : Rabs (D - P) <= (1 - C) * Rabs D + C * (u * Rabs D)
                                + (9 / 100 * u * Rabs D + eta)).
  { replace (D - P) with (D * (1 - C) + (- ((Sd - D) * C) + - (P - Sd * C))) by ring.
    eapply Rle_trans; [apply Rabs_triang|].
    eapply Rle_trans; [apply Rplus_le_compat_l, Rabs_triang|].
    rewrite !Rabs_Ropp, !Rabs_mult, (Rabs_pos_eq C), (Rabs_pos_eq (1 - C)) by lra.
    pose proof (Rabs_pos (Sd - D)). nra. }
  assert (HX : 0 <= u * Rabs D) by (apply Rmult_le_pos; lra).
  assert (HDP' : Rabs (D - P) <= 93 / 100 * Rabs D + 17 / 100 * (u * Rabs D) + eta).
  { assert ((1 - C) * Rabs D <= 93 / 100 * Rabs D)
      by (apply Rmult_le_compat_r; lra).
    assert (C * (u * Rabs D) <= 8 / 100 * (u * Rabs D))
      by (apply Rmult_le_compat_r; lra).
    lra. }
  assert (HMP : Rabs (M + P) <= Rabs T + Rabs D + eta).
  { replace (M + P) with (T + - (D - P)) by (unfold D; ring).
    eapply Rle_trans; [apply Rabs_triang|]. rewrite Rabs_Ropp.
    assert (u * Rabs D <= 12 / 10 ^ 17 * Rabs D) by (apply Rmult_le_compat_r; lra).
    lra. }
  replace (T - M') with ((D - P) + - (M' - (M + P))) by (unfold D; ring).
  eapply Rle_trans; [apply Rabs_triang|]. rewrite Rabs_Ropp.
  assert (Rabs (M' - (M + P)) <= u * (Rabs T + Rabs D + eta))
    by (eapply Rle_trans; [exact HM|]; apply Rmult_le_compat_l; lra).
  assert (u * eta <= eta) by (rewrite <- (Rmult_1_l eta) at 2;
                              apply Rmult_le_compat_r; lra).
  assert (u * Rabs D <= 12 / 10 ^ 17 * Rabs D) by (apply Rmult_le_compat_r; lra).
  lra.
Qed.

Lemma big_1000' : 1000 <= powerRZ 2 1000.
Proof.
  apply Rle_trans with (powerRZ 2 10); [|apply bpow_le; lia].
  rewrite <- IZR_pow2 by lia. apply IZR_le. cbn. lia.
Qed.

Lemma c_bounds (c : float) :
  Prim2SF c = S754_finite false 5044031582654956 (-56) ->
  finite c = true /\ 7 / 100 <= B2R c <= 7 / 100 + 1 / 10 ^ 17.
Proof.
  intros Hc. unfold finite, B2R. rewrite Hc. split; [reflexivity|].
  cbn [SF2R cond_Zopp].
  assert (H : powerRZ 2 (-56) * 72057594037927936 = 1).
  { replace 72057594037927936 with (powerRZ 2 56)
      by (rewrite <- IZR_pow2 by lia; reflexivity).
    rewrite <- bpow_add. reflexivity. }
  pose proof (bpow_pos (-56)). lra.
Qed.

Lemma slack_pos (T : R) : 0 < slack T.
Proof.
  unfold slack. pose proof (bpow_pos (-1074)). pose proof (bpow_pos (-53)).
  pose proof (Rabs_pos T). nra.
Qed.

Lemma slack_small (T : R) :
  Rabs T <= powerRZ 2 1000 -> slack T <= powerRZ 2 1000 / 100.
Proof.
  intros HT. unfold slack. pose proof u_bounds. pose proof big_1000'.
  assert (powerRZ 2 (-1074) <= 1) by (change 1 with (powerRZ 2 0); apply bpow_le; lia).
  pose proof (Rabs_pos T).
  assert (powerRZ 2 (-53) * Rabs T <= 12 / 10 ^ 17 * powerRZ 2 1000).
  { apply Rmult_le_compat; lra. }
  lra.
Qed.

Section Easing.
Variables c t : float.
Hypothesis Hc : Prim2SF c = S754_finite false 5044031582654956 (-56).
Hypothesis Ht : finite t = true.
Hypothesis HT : Rabs (B2R t) <= powerRZ 2 1000.

Lemma ease1_step (m : float) :
  finite m = true -> Rabs (B2R t - B2R m) <= 3 * powerRZ 2 1000 ->
  finite (ease1 c t m) = true
  /\ Rabs (B2R t - B2R (ease1 c t m))
     <= rho * Rabs (B2R t - B2R m) + slack (B2R t).
Proof.
  intros Hm HD. destruct (c_bounds c Hc) as [Hcf HC].
  pose proof u_bounds as Hu. pose proof big_1000' as HB. pose proof big_1023 as H1023.
  destruct eta_bounds as [Heta Heta2].
  set (B := powerRZ 2 1000) in *. set (u := powerRZ 2 (-53)) in *.
  set (T := B2R t) in *. set (M := B2R m) in *. set (C := B2R c) in *.
  destruct (sub_error t m Ht Hm) as [Hsf HS]; [fold T M; lra|].
  fold T M u in HS. set (Sd := B2R (t - m)) in *.
  assert (HSabs : Rabs Sd <= 4 * B).
  { replace Sd with ((Sd - (T - M)) + (T - M)) by ring.
    eapply Rle_trans; [apply Rabs_triang|].
    assert (u * Rabs (T - M) <= 1 / 10 * Rabs (T - M))
      by (apply Rmult_le_compat_r; [apply Rabs_pos|lra]).
    lra. }
  assert (HSC : Rabs (Sd * C) <= B).
  { rewrite Rabs_mult, (Rabs_pos_eq C) by lra.
    assert (Rabs Sd * C <= 4 * B * (8 / 100))
      by (apply Rmult_le_compat; [apply Rabs_pos|lra|lra|lra]).
    lra. }
  destruct (mul_error (t - m) c Hsf Hcf) as [Hpf HP]; [fold Sd C; lra|].
  fold Sd C u in HP. set (P := B2R ((t - m) * c)) in *.
  assert (HPabs : Rabs P <= 3 * B).
  { replace P with ((P - Sd * C) + Sd * C) by ring.
    eapply Rle_trans; [apply Rabs_triang|].
    assert (u * Rabs (Sd * C) <= 1 * Rabs (Sd * C))
      by (apply Rmult_le_compat_r; [apply Rabs_pos|lra]).
    assert (powerRZ 2 (-1075) <= 1)
      by (change 1 with (powerRZ 2 0); apply bpow_le; lia).
    lra. }
  assert (HMabs : Rabs M <= 4 * B).
  { replace M with (T + - (T - M)) by ring.
    eapply Rle_trans; [apply Rabs_triang|]. rewrite Rabs_Ropp. lra. }
  destruct (add_error m ((t - m) * c) Hm Hpf) as [Haf HA].
  { fold M P. eapply Rle_lt_trans; [apply Rabs_triang|]. lra. }
  fold M P u in HA. split; [exact Haf|].
  unfold slack. fold u T. rewrite <- Heta2.
  change (B2R (ease1 c t m)) with (B2R (m + (t - m) * c)).
  unfold rho.
  apply (ease_real T M Sd P (B2R (m + (t - m) * c)) C u (powerRZ 2 (-1075)));
    try assumption; lra.
Qed.

Lemma ease1_frames_bound (n : nat) (m : float) :
  finite m = true -> Rabs (B2R t - B2R m) <= 3 * powerRZ 2 1000 ->
  finite (ease1_frames c n t m) = true
  /\ Rabs (B2R t - B2R (ease1_frames c n t m))
     <= rho ^ n * Rabs (B2R t - B2R m) + 15 * slack (B2R t) * (1 - rho ^ n).
Proof.
  revert m. induction n as [|n IH]; intros m Hm HD.
  - cbn [ease1_frames pow]. split; [exact Hm|]. lra.
  - cbn [ease1_frames]. destruct (ease1_step m Hm HD) as [Hf1 H1].
    pose proof (slack_small (B2R t) HT) as Hs. pose proof (slack_pos (B2R t)) as Hs0.
    pose proof big_1000' as HB.
    assert (Hrho : 0 <= rho <= 93001 / 100000) by (unfold rho; lra).
    assert (HD1 : Rabs (B2R t - B2R (ease1 c t m)) <= 3 * powerRZ 2 1000).
    { assert (rho * Rabs (B2R t - B2R m) <= 93001 / 100000 * (3 * powerRZ 2 1000))
        by (apply Rmult_le_compat; [lra|apply Rabs_pos|lra|lra]).
      lra. }
    destruct (IH _ Hf1 HD1) as [Hfn Hn]. split; [exact Hfn|].
    eapply Rle_trans; [exact Hn|]. cbn [pow].
    assert (Hp : 0 <= rho ^ n) by (apply pow_le; lra).
    set (R := rho ^ n) in *. set (s := slack (B2R t)) in *.
    set (D := Rabs (B2R t - B2R m)) in *.
    set (D1 := Rabs (B2R t - B2R (ease1 c t m))) in *.
    assert (R * D1 <= R * (rho * D + s)) by (apply Rmult_le_compat_l; lra).
    assert (0 <= R * s) by (apply Rmult_le_pos; lra).
    assert (15 * rho * (R * s) <= 14 * (R * s))
      by (apply Rmult_le_compat_r; unfold rho; lra).
    lra.
Qed.

Lemma ease1_frames_near (n : nat) (m : float) :
  finite m = true -> Rabs (B2R m) <= powerRZ 2 1000 ->
  finite (ease1_frames c n t m) = true
  /\ Rabs (B2R t - B2R (ease1_frames c n t m))
     <= rho ^ n * Rabs (B2R t - B2R m) + 15 * slack (B2R t).
Proof.
  intros Hm HM.
  assert (HD : Rabs (B2R t - B2R m) <= 3 * powerRZ 2 1000).
  { replace (B2R t - B2R m) with (B2R t + - B2R m) by ring.
    eapply Rle_trans; [apply Rabs_triang|]. rewrite Rabs_Ropp.
    pose proof big_1000'. lra. }
  destruct (ease1_frames_bound n m Hm HD) as [Hf Hb]. split; [exact Hf|].
  eapply Rle_trans; [exact Hb|].
  assert (0 <= rho ^ n) by (apply pow_le; unfold rho; lra).
  pose proof (slack_pos (B2R t)).
  assert (0 <= 15 * slack (B2R t) * rho ^ n) by (apply Rmult_le_pos; lra).
  lra.
Qed.

End Easing.

Lemma rho_96 (n : nat) : (96 <= n)%nat -> rho ^ n < 1 / 1000.
Proof.
  intros Hn. replace n with (96 + (n - 96))%nat by lia. rewrite pow_add.
  assert (H96 : rho ^ 96 < 1 / 1000).
  { unfold rho. rewrite IdealFacts.pow_ratio. apply IdealFacts.Rdiv_lt_cross.
    - apply IZR_lt, Z.pow_pos_nonneg; lia.
    - lra.
    - rewrite <- !mult_IZR. apply IZR_lt. vm_compute. reflexivity. }
  assert (Hk : 0 <= rho ^ (n - 96) <= 1).
  { split; [apply pow_le; unfold rho; lra|].
    rewrite <- (pow1 (n - 96)). apply pow_incr. unfold rho. lra. }
  assert (H0 : 0 < rho ^ 96) by (apply pow_lt; unfold rho; lra).
  nra.
Qed.

(** The distance of two points whose coordinates are known up to a
    contraction and an allowance. *)
Lemma norm_bound (a px py dx dy ex ey : R) :
  0 <= a -> 0 <= ex -> 0 <= ey ->
  Rabs px <= a * Rabs dx + ex -> Rabs py <= a * Rabs dy + ey ->
  R_sqrt.sqrt (px ^ 2 + py ^ 2) <= a * R_sqrt.sqrt (dx ^ 2 + dy ^ 2) + (ex + ey).
Proof.
  intros Ha Hex Hey Hx Hy.
  set (N := R_sqrt.sqrt (dx ^ 2 + dy ^ 2)).
  assert (HN0 : 0 <= N) by apply sqrt_pos.
  assert (HN2 : N * N = dx ^ 2 + dy ^ 2) by (apply sqrt_sqrt; nra).
  assert (Hsq : forall v, Rabs v * Rabs v = v ^ 2)
    by (intros v; rewrite <- Rabs_mult, Rabs_pos_eq by nra; ring).
  pose proof (Rabs_pos px) as HX. pose proof (Rabs_pos py) as HY.
  pose proof (Rabs_pos dx) as HU. pose proof (Rabs_pos dy) as HV.
  pose proof (Hsq px) as HX2. pose proof (Hsq py) as HY2.
  pose proof (Hsq dx) as HU2. pose proof (Hsq dy) as HV2.
  set (X := Rabs px) in *. set (Y := Rabs py) in *.
  set (U := Rabs dx) in *. set (V := Rabs dy) in *.
  assert (HUN : U <= N) by nra.
  assert (HVN : V <= N) by nra.
  rewrite <- (sqrt_pow2 (a * N + (ex + ey))) by nra.
  apply sqrt_le_1_alt. rewrite <- HX2, <- HY2.
  assert (H1 : X * X <= (a * U + ex) * (a * U + ex))
    by (apply Rmult_le_compat; lra).
  assert (H2 : Y * Y <= (a * V + ey) * (a * V + ey))
    by (apply Rmult_le_compat; lra).
  assert (H3 : a * U * ex <= a * N * ex)
    by (apply Rmult_le_compat_r; [lra|apply Rmult_le_compat_l; lra]).
  assert (H4 : a * V * ey <= a * N * ey)
    by (apply Rmult_le_compat_r; [lra|apply Rmult_le_compat_l; lra]).
  assert (H5 : a * a * (U * U + V * V) = a * a * (N * N))
    by (rewrite HU2, HV2, HN2; reflexivity).
  assert (H6 : 0 <= a * N * ex) by (repeat apply Rmult_le_pos; lra).
  assert (H7 : 0 <= a * N * ey) by (repeat apply Rmult_le_pos; lra).
  assert (H8 : 0 <= ex * ey) by (apply Rmult_le_pos; lra).
  nra.
Qed.

(** *** The pointer on binary64 numbers *)

Lemma in_range_spec (a : float) :
  in_range a = true -> finite a = true /\ Rabs (B2R a) <= powerRZ 2 1000.
Proof.
  unfold in_range, finite, B2R.
  destruct (Prim2SF a) as [s|s| |s m e]; try discriminate; intros Hr.
  - split; [reflexivity|]. cbn [SF2R]. rewrite Rabs_R0. left. apply bpow_pos.
  - split; [reflexivity|]. apply Z.leb_le in Hr. cbn [SF2R].
    rewrite Rabs_mult, (Rabs_pos_eq (powerRZ 2 e)) by (left; apply bpow_pos).
    assert (Hm : Rabs (IZR (cond_Zopp s (Zpos m))) = IZR (Zpos m)).
    { destruct s; cbn [cond_Zopp].
      - change (Zneg m) with (- Zpos m)%Z. rewrite opp_IZR, Rabs_Ropp.
        apply Rabs_pos_eq, IZR_le. lia.
      - apply Rabs_pos_eq, IZR_le. lia. }
    rewrite Hm. pose proof (digits2_bounds m) as [_ Hhi].
    apply Rle_trans with (powerRZ 2 (Zpos (digits2_pos m) + e)); [|now apply bpow_le].
    rewrite bpow_add, <- (IZR_pow2 (Zpos (digits2_pos m))) by lia.
    apply Rmult_le_compat_r; [left; apply bpow_pos|]. apply IZR_le. lia.
Qed.

Lemma lit_7_100 :
  Prim2SF (lit (F:=float) 7 100) = S754_finite false 5044031582654956 (-56).
Proof. vm_compute. reflexivity. Qed.

Lemma ease_frames_coordinates (n : nat) (target m : point float) :
  x (Loop.ease_frames n target m)
    = ease1_frames (lit 7 100) n (x target) (x m)
  /\ y (Loop.ease_frames n target m)
    = ease1_frames (lit 7 100) n (y target) (y m).
Proof.
  revert m. induction n as [|n IH]; intros m; [split; reflexivity|].
  cbn [Loop.ease_frames ease1_frames].
  destruct (IH (Loop.ease target m)) as [Hx Hy]. rewrite Hx, Hy.
  split; reflexivity.
Qed.

Lemma allowance_above (target : point float) :
  15 * (slack (B2R (x target)) + slack (B2R (y target))) < allowance target.
Proof.
  unfold slack, allowance.
  assert (H49 : powerRZ 2 (-49) = 16 * powerRZ 2 (-53)).
  { change (-49)%Z with (4 + -53)%Z. rewrite bpow_add. f_equal.
    rewrite <- IZR_pow2 by lia. reflexivity. }
  assert (H1069 : powerRZ 2 (-1069) = 32 * powerRZ 2 (-1074)).
  { change (-1069)%Z with (5 + -1074)%Z. rewrite bpow_add. f_equal.
    rewrite <- IZR_pow2 by lia. reflexivity. }
  rewrite H49, H1069. pose proof (bpow_pos (-53)). pose proof (bpow_pos (-1074)).
  pose proof (Rabs_pos (B2R (x target))). pose proof (Rabs_pos (B2R (y target))).
  nra.
Qed.

(** With the target held, [n] frames leave the pointer finite and shrink its
    distance to the target by [rho ^ n], up to the rounding of the
    coordinates. *)
Lemma ease_frames_binary64 (target m : point float) (n : nat) :
  in_range (x target) = true -> in_range (y target) = true ->
  in_range (x m) = true -> in_range (y m) = true ->
  finite (x (Loop.ease_frames n target m)) = true
  /\ finite (y (Loop.ease_frames n target m)) = true
  /\ fdistance (Loop.ease_frames n target m) target
     < rho ^ n * fdistance m target + allowance target.
Proof.
  intros Htx Hty Hmx Hmy.
  apply in_range_spec in Htx as [Htx HTx]. apply in_range_spec in Hty as [Hty HTy].
  apply in_range_spec in Hmx as [Hmx HMx]. apply in_range_spec in Hmy as [Hmy HMy].
  destruct (ease_frames_coordinates n target m) as [Hx Hy]. rewrite Hx, Hy.
  destruct (ease1_frames_near _ _ lit_7_100 Htx HTx n (x m) Hmx HMx) as [Hfx Hbx].
  destruct (ease1_frames_near _ _ lit_7_100 Hty HTy n (y m) Hmy HMy) as [Hfy Hby].
  split; [exact Hfx|]. split; [exact Hfy|].
  eapply Rle_lt_trans; [|apply Rplus_lt_compat_l, allowance_above].
  unfold fdistance. rewrite Hx, Hy.
  replace (15 * (slack (B2R (x target)) + slack (B2R (y target))))
    with (15 * slack (B2R (x target)) + 15 * slack (B2R (y target))) by ring.
  pose proof (slack_pos (B2R (x target))). pose proof (slack_pos (B2R (y target))).
  apply norm_bound.
  - apply pow_le. unfold rho. lra.
  - lra.
  - lra.
  - rewrite Rabs_minus_sym, (Rabs_minus_sym (B2R (x m))). exact Hbx.
  - rewrite Rabs_minus_sym, (Rabs_minus_sym (B2R (y m))). exact Hby.
Qed.

Lemma rho_60 : rho ^ 60 < 13 / 1000.
Proof.
  unfold rho. rewrite IdealFacts.pow_ratio. apply IdealFacts.Rdiv_lt_cross.
  - apply IZR_lt, Z.pow_pos_nonneg; lia.
  - lra.
  - rewrite <- !mult_IZR. apply IZR_lt. vm_compute. reflexivity.
Qed.

Lemma fdistance_pos (a b : point float) : 0 <= fdistance a b.
Proof. apply sqrt_pos. Qed.

(** C4, as the code has it on binary64 numbers: with the target held and
    finite coordinates of magnitude below [2 ^ 1000], [n] frames leave the
    pointer finite and its distance to the target below [0.9300000001 ^ n]
    times the initial distance plus a rounding allowance of
    [2 ^ -49 * (|target.x| + |target.y|) + 2 ^ -1069]; so the distance is below
    1.3e-2 times the initial distance plus the allowance after 60 frames, and
    below 1e-3 times the initial distance plus the allowance after 96 frames
    and ever after. *)
Theorem pointer_easing_within_rounding (target m : point float) (n : nat) :
  in_range (x target) = true -> in_range (y target) = true ->
  in_range (x m) = true -> in_range (y m) = true ->
  let after := Loop.ease_frames n target m in
  finite (x after) = true /\ finite (y after) = true
  /\ fdistance after target < rho ^ n * fdistance m target + allowance target
  /\ (n = 60%nat ->
      fdistance after target < 13 / 1000 * fdistance m target + allowance target)
  /\ ((96 <= n)%nat ->
      fdistance after target < 1 / 1000 * fdistance m target + allowance target).
Proof.
  intros Htx Hty Hmx Hmy after.
  destruct (ease_frames_binary64 target m n Htx Hty Hmx Hmy) as (Hfx & Hfy & Hd).
  fold after in Hfx, Hfy, Hd. pose proof (fdistance_pos m target) as H0.
  split; [exact Hfx|]. split; [exact Hfy|]. split; [exact Hd|]. split.
  - intros ->. pose proof rho_60. eapply Rlt_le_trans; [exact Hd|].
    apply Rplus_le_compat_r, Rmult_le_compat_r; lra.
  - intros Hn. pose proof (rho_96 n Hn). eapply Rlt_le_trans; [exact Hd|].
    apply Rplus_le_compat_r, Rmult_le_compat_r; lra.
Qed.

(** Without the allowance the bound fails on binary64 numbers: a pointer a few
    units in the last place from its target does not move at all. *)
Lemma pointer_easing_stalls :
  let target := mkPoint 1%float 0%float in
  let m := mkPoint 0x1.ffffffffffff9p-1%float 0%float in
  Loop.ease_frames 96 target m = m.
Proof. vm_compute. reflexivity. Qed.

Lemma mouse_after_frames (w : Loop.page) (mss : list float) (st : Loop.state) :
  Loop.mouse (Loop.run w st (map Loop.Frame mss))
    = Loop.ease_frames (length mss) (Loop.targetMouse st) (Loop.mouse st)
  /\ Loop.targetMouse (Loop.run w st (map Loop.Frame mss)) = Loop.targetMouse st.
Proof.
  unfold Loop.run. revert st. induction mss as [|ms mss IH]; intros st.
  - split; reflexivity.
  - cbn [map fold_left Loop.step length Loop.ease_frames].
    destruct (IH (fst (Loop.render w ms st))) as [Hm Ht].
    rewrite Hm, Ht, mouse_render, targetMouse_render. split; reflexivity.
Qed.

(** X16: on binary64 numbers, after a pointer move followed by at least 96
    frames, the pointer target is the clip-space point of the move and the
    smoothed pointer is within one thousandth of its initial distance from
    it, up to the rounding allowance of the target; coordinates are finite
    and of magnitude below [2 ^ 1000]. *)
Theorem pointer_follows_move (w : Loop.page) (e : Loop.pointerEvent)
    (st : Loop.state) (mss : list float) :
  let goal := Loop.clipSpaceFromEvent w e in
  in_range (x goal) = true -> in_range (y goal) = true ->
  in_range (x (Loop.mouse st)) = true -> in_range (y (Loop.mouse st)) = true ->
  (96 <= length mss)%nat ->
  let after := Loop.run w st (Loop.PointerMove e :: map Loop.Frame mss) in
  Loop.targetMouse after = goal
  /\ fdistance (Loop.mouse after) goal
     < 1 / 1000 * fdistance (Loop.mouse st) goal + allowance goal.
Proof.
  intros goal Hgx Hgy Hmx Hmy Hn after.
  unfold after, Loop.run. cbn [fold_left Loop.step].
  fold (Loop.run w (Loop.pointermove w e st) (map Loop.Frame mss)).
  destruct (mouse_after_frames w mss (Loop.pointermove w e st)) as [Hmouse Htarget].
  rewrite Hmouse, Htarget.
  unfold Loop.pointermove, Loop.updatePointerTarget.
  cbn [fst Loop.targetMouse Loop.mouse]. fold goal. split; [reflexivity|].
  destruct (ease_frames_binary64 goal (Loop.mouse st) (length mss) Hgx Hgy Hmx Hmy)
    as (_ & _ & Hd).
  pose proof (rho_96 _ Hn). pose proof (fdistance_pos (Loop.mouse st) goal).
  eapply Rlt_le_trans; [exact Hd|].
  apply Rplus_le_compat_r, Rmult_le_compat_r; lra.
Qed.

End Binary64Facts.

Lemma pointer_easing_within_rounding_witness :
  let target := mkPoint 1%float 0%float in
  let m := mkPoint 0%float 0%float in
  (Binary64.fdistance (Loop.ease_frames 96 target m) target
   < 1 / 1000 * Binary64.fdistance m target + Binary64.allowance target)%R.
Proof.
  intros target m.
  refine (proj2 (proj2 (proj2 (proj2
    (Binary64Facts.pointer_easing_within_rounding target m 96 _ _ _ _)))) _);
    vm_compute; reflexivity.
Defined.

Lemma pointer_follows_move_witness :
  let w := Loop.mkPage 1000%float 800%float true in
  let e := Loop.mkPointerEvent "mouse"%string 0 1000%float 400%float false in
  let st := Loop.initial (F:=float) in
  let mss := repeat 0%float 96 in
  Loop.targetMouse (Loop.run w st (Loop.PointerMove e :: map Loop.Frame mss))
  = mkPoint 1%float (-0)%float.
Proof.
  intros w e st mss.
  refine (proj1 (Binary64Facts.pointer_follows_move w e st mss _ _ _ _ _));
    vm_compute; reflexivity.
Defined.
